(** * Room simulation server (server.js): shallow embedding and verified properties

    The file embeds the two revisions of [server.js] found in the repository:
    the current one (rooms with a tick engine, [broadcastToRoom], the
    [join]/[update]/[input] protocol and the close handler) and, in module
    [FirstDocument], the earlier lobby-only revision.

    Modelling conventions.
    - JavaScript numbers are exact rationals ([Q]) extended with [NaN];
      rounding of IEEE doubles and the infinities are not modelled.
    - A JavaScript object used as a dictionary ([rooms], [room.players]) is a
      [gmap string _] of its own properties.  Both are plain objects, so a
      lookup that finds no own property goes on to [Object.prototype]: for
      the names in [Object_prototype] it finds a builtin, which is truthy
      and has no [players].  The handlers below take that path where the
      source does.
    - The prototype chain itself is not part of the state: a [world] stands
      for a state of the program in which no prototype has been written.
      Where the source writes through an inherited name (it replaces the
      prototype of a roster, or assigns a payload onto a builtin) the
      handler emits [PrototypeWrite] and its trace ends there: what the
      program does from there on depends on state this embedding does not
      hold.  [pristine] marks the states reached without such a write.
    - An exception that leaves the close handler is uncaught ([Uncaught]):
      the process exits, and [run] handles no later event.
    - Identifiers taken from a message ([roomId], [playerId]) are strings or
      [undefined] ([None]); used as a property key, [undefined] becomes the
      string "undefined".
    - A player object is a record of the fields the server reads and writes;
      the simulation fields [x], [y], [z], [laneTarget], [laneCurrent] hold
      numbers, so a payload entry for one of them is a JSON number (finite).
      Every other own property of a player lives in [extra].
    - [Math.random] reads the head of an infinite stream [entropy] kept in the
      world; [uuidv4] is a counter.
    - Side effects ([broadcastToRoom], [setInterval], [clearInterval],
      [console.error]) are collected in a list; [console.log] is not
      recorded. *)

From Stdlib Require Import QArith Qround Qabs Lqa.
From stdpp Require Import gmap strings list fin_maps.

Local Open Scope Q_scope.

(** ** JavaScript values *)

Inductive num : Type :=
| Fin (q : Q)
| NaN.

Inductive value : Type :=
| VUndef
| VNull
| VBool (b : bool)
| VNum (q : Q)
| VStr (s : string)
| VObj.

(** ToBoolean. *)
Definition truthy (v : value) : bool :=
  match v with
  | VUndef | VNull => false
  | VBool b => b
  | VNum q => negb (Qeq_bool q 0)
  | VStr s => negb (String.eqb s "")
  | VObj => true
  end.

Definition nadd (a b : num) : num :=
  match a, b with Fin p, Fin q => Fin (p + q) | _, _ => NaN end.

Definition nsub (a b : num) : num :=
  match a, b with Fin p, Fin q => Fin (p - q) | _, _ => NaN end.

Definition nmul (a b : num) : num :=
  match a, b with Fin p, Fin q => Fin (p * q) | _, _ => NaN end.

(** [Math.abs]. *)
Definition nabs (a : num) : num :=
  match a with Fin q => Fin (Qabs q) | NaN => NaN end.

(** The relational operator [<]: false as soon as one side is [NaN]. *)
Definition nlt (a b : num) : bool :=
  match a, b with
  | Fin p, Fin q => if Qlt_le_dec p q then true else false
  | _, _ => false
  end.

Definition qmax (p q : Q) : Q := if Qlt_le_dec p q then q else p.
Definition qmin (p q : Q) : Q := if Qlt_le_dec q p then q else p.

(** [Math.max] and [Math.min]. *)
Definition nmax (a b : num) : num :=
  match a, b with Fin p, Fin q => Fin (qmax p q) | _, _ => NaN end.

Definition nmin (a b : num) : num :=
  match a, b with Fin p, Fin q => Fin (qmin p q) | _, _ => NaN end.

(** ** Constants (lines 66-72) *)

Definition TICK_RATE : Q := 60.
Definition TICK_TIME : Q := 1000 / TICK_RATE.
Definition LANE_X : list Q := [-4; 0; 4].
Definition PLAYER_START_Y : Q := 1.
Definition PLAYER_START_Z : Q := 0.
Definition OBSTACLE_BOUNDS : Q := 16 # 10.

(** [arr[n]] for a number [n]: the element when [n] is a canonical array
    index, [undefined] otherwise. *)
Definition array_index (n : num) : option nat :=
  match n with
  | Fin q =>
      let r := Qred q in
      if (Pos.eqb (Qden r) 1 && (0 <=? Qnum r)%Z)%bool
      then Some (Z.to_nat (Qnum r)) else None
  | NaN => None
  end.

Definition array_get (arr : list Q) (n : num) : option Q :=
  match array_index n with
  | Some i => arr !! i
  | None => None
  end.

(** A number read from an array slot; [undefined] only ever flows into
    arithmetic, where it coerces to [NaN]. *)
Definition of_slot (o : option Q) : num :=
  match o with Some q => Fin q | None => NaN end.

Definition LANE_X_length : Q := inject_Z (Z.of_nat (length LANE_X)).

(** ** Data model *)

Record player : Type := mkPlayer {
  nickname : value;
  color : value;
  ready : value;
  alive : value;
  p_x : num;
  p_y : num;
  p_z : num;
  laneTarget : num;
  laneCurrent : num;
  extra : gmap string value
}.

Record obstacle : Type := mkObstacle {
  o_id : nat;
  o_x : num;
  o_y : Q;
  o_z : Q
}.

(** [score], [t] and [obstacles] are absent from a room until its first
    [startGame]; nothing reads them before, so they carry defaults here.
    [gameInterval] is represented by the [SetInterval]/[ClearInterval]
    effects. *)
Record room : Type := mkRoom {
  players : gmap string player;
  running : bool;
  score : Q;
  room_t : Q;
  obstacles : list obstacle
}.

Definition ident : Type := option string.

(** ToPropertyKey on an identifier. *)
Definition key_of (i : ident) : string :=
  match i with Some s => s | None => "undefined" end.

(** ToBoolean on an identifier. *)
Definition ident_truthy (i : ident) : bool :=
  match i with Some s => negb (String.eqb s "") | None => false end.

(** The own property names of [Object.prototype] in Node.js.  On a plain
    object, a lookup under one of them that finds no own property yields the
    builtin of that name: a function, or [Object.prototype] itself for
    "__proto__". *)
Definition Object_prototype : list string :=
  ["constructor"; "__defineGetter__"; "__defineSetter__"; "hasOwnProperty";
   "__lookupGetter__"; "__lookupSetter__"; "isPrototypeOf";
   "propertyIsEnumerable"; "toString"; "valueOf"; "__proto__";
   "toLocaleString"].

Definition inherited (k : string) : bool :=
  existsb (String.eqb k) Object_prototype.

(** A WebSocket in [wss.clients], with the two ad hoc fields the handlers
    attach to it. *)
Record conn : Type := mkConn {
  ws_open : bool;
  ws_roomId : ident;
  ws_playerId : ident
}.

Record world : Type := mkWorld {
  rooms : gmap string room;
  clients : gmap nat conn;
  entropy : nat -> Q;
  uuid : nat
}.

(** A payload object: the own properties that name a player field, and the
    remaining ones. *)
Record object : Type := mkObject {
  f_nickname : option value;
  f_color : option value;
  f_ready : option value;
  f_alive : option value;
  f_x : option Q;
  f_y : option Q;
  f_z : option Q;
  f_laneTarget : option Q;
  f_laneCurrent : option Q;
  f_rest : gmap string value
}.

(** A decoded inbound message, as destructured on line 201.  [None] is
    [undefined] for the two identifiers; an [action] that is not a string
    matches no case of the switch and is [None] as well; [payload = None]
    stands for a missing or [null] payload; a number or a boolean as payload
    has no own property and is an object without fields, a string has its
    characters as properties. *)
Record message : Type := mkMessage {
  roomId : ident;
  playerId : ident;
  action : option string;
  payload : option object
}.

Inductive outmsg : Type :=
| MsgState (rid : ident) (ps : gmap string player)
| MsgGameState (rid : ident) (ps : gmap string player)
    (obs : list obstacle) (sc : Z) (run : bool)
| MsgGameOver (rid : ident).

(** [ConsoleError] is the [catch] of the message handler; [Uncaught] is an
    exception nothing catches; [PrototypeWrite] marks a write through a name
    inherited from [Object.prototype]. *)
Inductive effect : Type :=
| Broadcast (data : outmsg) (recipients : list nat)
| SetInterval (rid : ident)
| ClearInterval (rid : ident)
| ConsoleError
| Uncaught
| PrototypeWrite.

(** ** Field updates *)

Definition set_players (ps : gmap string player) (r : room) : room :=
  mkRoom ps (running r) (score r) (room_t r) (obstacles r).

Definition set_running (b : bool) (r : room) : room :=
  mkRoom (players r) b (score r) (room_t r) (obstacles r).

Definition set_rooms (rs : gmap string room) (w : world) : world :=
  mkWorld rs (clients w) (entropy w) (uuid w).

Definition set_room (k : string) (r : room) (w : world) : world :=
  set_rooms (<[k := r]> (rooms w)) w.

Definition set_alive (v : value) (p : player) : player :=
  mkPlayer (nickname p) (color p) (ready p) v (p_x p) (p_y p) (p_z p)
    (laneTarget p) (laneCurrent p) (extra p).

Definition set_laneTarget (n : num) (p : player) : player :=
  mkPlayer (nickname p) (color p) (ready p) (alive p) (p_x p) (p_y p) (p_z p)
    n (laneCurrent p) (extra p).

(** ** Math.random and uuidv4 *)

Definition random (w : world) : Q * world :=
  (entropy w 0%nat,
   mkWorld (rooms w) (clients w) (fun n => entropy w (S n)) (uuid w)).

Definition uuidv4 (w : world) : nat * world :=
  (uuid w, mkWorld (rooms w) (clients w) (entropy w) (S (uuid w))).

(** [LANE_X[Math.floor(r * LANE_X.length)]] *)
Definition random_lane (r : Q) : num :=
  of_slot (array_get LANE_X (Fin (inject_Z (Qfloor (r * LANE_X_length))))).

(** ** broadcastToRoom (lines 75-81) *)

Definition receives (rid : ident) (k : conn) : bool :=
  ws_open k && bool_decide (ws_roomId k = rid).

Definition recipients (rid : ident) (cs : gmap nat conn) : list nat :=
  (filter (λ ck, Is_true (receives rid ck.2)) (map_to_list cs)).*1.

Definition broadcastToRoom (rid : ident) (data : outmsg) (w : world) : effect :=
  Broadcast data (recipients rid (clients w)).

(** ** spawnObstacle (lines 123-131) *)

Definition spawnObstacle (z : Q) (acc : list obstacle * world)
  : list obstacle * world :=
  let '(os, w) := acc in
  let '(r, w1) := random w in
  let '(i, w2) := uuidv4 w1 in
  (os ++ [mkObstacle i (random_lane r) (9 # 10) z], w2).

(** ** startGame (lines 83-110) *)

Definition reset_player (p : player) : player :=
  mkPlayer (nickname p) (color p) (ready p) (VBool true)
    (Fin 0) (Fin PLAYER_START_Y) (Fin PLAYER_START_Z) (Fin 1) (Fin 0) (extra p).

Definition spawn_depths : list Q :=
  map (fun i : Z => - inject_Z i * 20) [1; 2; 3; 4; 5; 6; 7; 8]%Z.

Definition startGame (rid : ident) (w : world) : world * list effect :=
  match rooms w !! key_of rid with
  | None => (w, [])
  | Some r =>
      if running r then (w, [])
      else
        let '(os, w1) := fold_left (fun acc z => spawnObstacle z acc)
                           spawn_depths ([], w) in
        let r1 := mkRoom (reset_player <$> players r) true 0 0 os in
        (set_room (key_of rid) r1 w1, [SetInterval rid])
  end.

(** ** stopGame (lines 112-121) *)

Definition stopGame (rid : ident) (w : world) : world * list effect :=
  match rooms w !! key_of rid with
  | None => (w, [])
  | Some r =>
      if running r then
        let w1 := set_room (key_of rid) (set_running false r) w in
        (w1, [ClearInterval rid; broadcastToRoom rid (MsgGameOver rid) w1])
      else (w, [])
  end.

(** ** gameLoop (lines 133-193) *)

Definition speed_at (t : Q) : Q := (1 # 2) + qmin (7 # 2) (t * (12 # 100)).

(** One iteration of the obstacle loop body (lines 143-149). *)
Definition step_obstacle (speed : Q) (o : obstacle) (e : nat -> Q)
  : obstacle * (nat -> Q) :=
  let z1 := o_z o + speed in
  if Qlt_le_dec 6 z1 then
    (mkObstacle (o_id o) (random_lane (e 1%nat)) (o_y o)
       (- (160 + e 0%nat * 80)),
     fun n => e (S (S n)))
  else (mkObstacle (o_id o) (o_x o) (o_y o) z1, e).

(** The loop runs from the last index down to 0, so the tail of the list is
    served first. *)
Fixpoint step_obstacles (speed : Q) (os : list obstacle) (e : nat -> Q)
  : list obstacle * (nat -> Q) :=
  match os with
  | [] => ([], e)
  | o :: rest =>
      let '(rest', e1) := step_obstacles speed rest e in
      let '(o', e2) := step_obstacle speed o e1 in
      (o' :: rest', e2)
  end.

Definition hits (p : player) (o : obstacle) : bool :=
  let dx := nabs (nsub (o_x o) (p_x p)) in
  let dz := nabs (nsub (Fin (o_z o)) (p_z p)) in
  nlt dx (Fin OBSTACLE_BOUNDS) && nlt dz (Fin OBSTACLE_BOUNDS).

(** Lane smoothing (lines 161-163). *)
Definition smooth (p : player) : player :=
  let targetX := of_slot (array_get LANE_X (laneTarget p)) in
  let lc := nadd (laneCurrent p)
              (nmul (nsub targetX (laneCurrent p)) (Fin (15 # 100))) in
  mkPlayer (nickname p) (color p) (ready p) (alive p) lc (p_y p) (p_z p)
    (laneTarget p) lc (extra p).

(** The body of the player loop (lines 155-174). *)
Definition step_player (os : list obstacle) (p : player) : player :=
  if truthy (alive p) then
    let p1 := smooth p in
    if existsb (hits p1) os then set_alive (VBool false) p1 else p1
  else p.

Definition alive_players (ps : gmap string player) : gmap string player :=
  filter (λ kp, Is_true (truthy (alive kp.2))) ps.

(** Lines 137-175: time, score, obstacles and players of one tick. *)
Definition tick_room (r : room) (e : nat -> Q) : room * (nat -> Q) :=
  let t1 := room_t r + TICK_TIME / 1000 in
  let speed := speed_at t1 in
  let score1 := score r + speed * (TICK_TIME / 1000) * 10 in
  let '(os, e1) := step_obstacles speed (obstacles r) e in
  (mkRoom (step_player os <$> players r) (running r) score1 t1 os, e1).

(** [playersAlive] counts the players that are alive when the loop reaches
    them, that is before their own collision test. *)
Definition playersAlive (r : room) : nat := size (alive_players (players r)).

Definition gameLoop (rid : ident) (w : world) : world * list effect :=
  match rooms w !! key_of rid with
  | None => (w, [])
  | Some r =>
      if running r then
        let '(r1, e1) := tick_room r (entropy w) in
        let w1 := mkWorld (<[key_of rid := r1]> (rooms w)) (clients w) e1 (uuid w) in
        if (Nat.eqb (playersAlive r) 0 && negb (Nat.eqb (size (players r1)) 0))%bool
        then stopGame rid w1
        else (w1, [broadcastToRoom rid
                     (MsgGameState rid (players r1) (obstacles r1)
                        (Qfloor (score r1)) (running r1)) w1])
      else (w, [])
  end.

(** ** The message handler (lines 198-251) *)

Inductive action_kind : Type := Join | Update | Input | Other.

(** The [switch (action)] dispatch; the cases compare with [===]. *)
Definition classify (a : option string) : action_kind :=
  match a with
  | Some s =>
      if String.eqb s "join" then Join
      else if String.eqb s "update" then Update
      else if String.eqb s "input" then Input
      else Other
  | None => Other
  end.

Definition empty_room : room := mkRoom ∅ false 0 0 [].

(** Lines 203-205: the room is created on first reference, unless
    [rooms[roomId]] finds a member of [Object.prototype], which is truthy. *)
Definition ensure_room (k : string) (w : world) : world :=
  match rooms w !! k with
  | Some _ => w
  | None => if inherited k then w else set_room k empty_room w
  end.

(** [rooms[roomId]] once the room is known to be stored. *)
Definition the_room (k : string) (w : world) : room :=
  default empty_room (rooms w !! k).

(** [ws.roomId = roomId; ws.playerId = playerId] *)
Definition bind_ws (c : nat) (rid pid : ident) (w : world) : world :=
  mkWorld (rooms w)
    (alter (fun k => mkConn (ws_open k) rid pid) c (clients w))
    (entropy w) (uuid w).

(** The player literal of the [join] case (lines 212-219). *)
Definition joined (o : object) : player :=
  mkPlayer (default VUndef (f_nickname o)) (default VUndef (f_color o))
    (VBool false) (VBool true)
    (Fin 0) (Fin PLAYER_START_Y) (Fin PLAYER_START_Z) (Fin 1) (Fin 0) ∅.

(** [Object.assign(player, payload)]: own properties of the payload win.
    Assigning under "__proto__" runs the setter inherited from
    [Object.prototype] and creates no own property; every field the server
    reads is an own property of a player, so its prototype is never
    consulted. *)
Definition assign (p : player) (o : object) : player :=
  mkPlayer (default (nickname p) (f_nickname o))
    (default (color p) (f_color o))
    (default (ready p) (f_ready o))
    (default (alive p) (f_alive o))
    (default (p_x p) (Fin <$> f_x o))
    (default (p_y p) (Fin <$> f_y o))
    (default (p_z p) (Fin <$> f_z o))
    (default (laneTarget p) (Fin <$> f_laneTarget o))
    (default (laneCurrent p) (Fin <$> f_laneCurrent o))
    (delete "__proto__" (f_rest o) ∪ extra p).

Definition present {A : Type} (o : option A) : bool :=
  match o with Some _ => true | None => false end.

(** The payload has at least one own property for [Object.assign] to copy. *)
Definition has_properties (pl : option object) : bool :=
  match pl with
  | None => false
  | Some o =>
      present (f_nickname o) || present (f_color o) || present (f_ready o)
      || present (f_alive o) || present (f_x o) || present (f_y o)
      || present (f_z o) || present (f_laneTarget o)
      || present (f_laneCurrent o) || negb (Nat.eqb (size (f_rest o)) 0)
  end.

(** Lines 225-226.  A missing payload, or one without properties, makes
    [Object.assign] a no-op.  A [playerId] that names no own property of
    [room.players] but a member of [Object.prototype] finds that builtin,
    which is truthy: [Object.assign] then copies the payload onto the
    builtin, and the result is [None]. *)
Definition merge_player (pk : string) (pl : option object)
    (ps : gmap string player) : option (gmap string player) :=
  match ps !! pk with
  | Some p =>
      Some (match pl with Some o => <[pk := assign p o]> ps | None => ps end)
  | None => if (inherited pk && has_properties pl)%bool then None else Some ps
  end.

(** [Object.values(room.players).every(p => p.ready)] *)
Definition allReady (ps : gmap string player) : bool :=
  forallb (fun p => truthy (ready p)) (map_to_list ps).*2.

Definition is_string (v : value) (s : string) : bool :=
  match v with VStr s' => String.eqb s' s | _ => false end.

(** The two branches of the [input] case (lines 239-243). *)
Definition apply_input (inp : value) (p : player) : player :=
  if is_string inp "left" then
    set_laneTarget (nmax (Fin 0) (nsub (laneTarget p) (Fin 1))) p
  else if is_string inp "right" then
    set_laneTarget (nmin (Fin (LANE_X_length - 1)) (nadd (laneTarget p) (Fin 1))) p
  else p.

Definition on_message (c : nat) (raw : option message) (w : world)
  : world * list effect :=
  match raw with
  | None => (w, [ConsoleError])
  | Some m =>
      let rid := roomId m in
      let k := key_of rid in
      let pk := key_of (playerId m) in
      let w0 := ensure_room k w in
      match rooms w0 !! k with
      | None =>
          (* [room] is a member of [Object.prototype]: [room.players] is
             [undefined], and every case that reads it throws *)
          match classify (action m) with
          | Join => (bind_ws c rid (playerId m) w0, [ConsoleError])
          | Update | Input => (w0, [ConsoleError])
          | Other => (w0, [])
          end
      | Some r =>
          match classify (action m) with
          | Join =>
              let w1 := bind_ws c rid (playerId m) w0 in
              match payload m with
              | None => (w1, [ConsoleError])
              | Some o =>
                  if String.eqb pk "__proto__" then
                    (* line 212 runs the "__proto__" setter of the roster *)
                    (w1, [PrototypeWrite])
                  else
                    let ps := <[pk := joined o]> (players r) in
                    let w2 := set_room k (set_players ps r) w1 in
                    (w2, [broadcastToRoom rid (MsgState rid ps) w2])
              end
          | Update =>
              match merge_player pk (payload m) (players r) with
              | None => (w0, [PrototypeWrite])
              | Some ps =>
                  let w1 := set_room k (set_players ps r) w0 in
                  let e1 := broadcastToRoom rid (MsgState rid ps) w1 in
                  if (allReady ps && negb (running r)
                      && negb (Nat.eqb (size ps) 0))%bool
                  then let '(w2, e2) := startGame rid w1 in (w2, e1 :: e2)
                  else (w1, [e1])
              end
          | Input =>
              (* an inherited builtin has no [alive]: it is skipped like a
                 missing player *)
              match players r !! pk with
              | Some p =>
                  if truthy (alive p) then
                    match payload m with
                    | None => (w0, [ConsoleError])
                    | Some o =>
                        let inp := default VUndef (f_rest o !! "input") in
                        let ps := <[pk := apply_input inp p]> (players r) in
                        (set_room k (set_players ps r) w0, [])
                    end
                  else (w0, [])
              | None => (w0, [])
              end
          | Other => (w0, [])
          end
      end
  end.

(** ** The close handler (lines 253-274)

    The socket has left [wss.clients] by the time the handler runs; [k] is
    the closed socket the handler closes over.  When [ws.roomId] names a
    member of [Object.prototype] (a [join] binds the socket before it
    throws), [rooms[roomId]] is truthy and [delete rooms[roomId].players[..]]
    throws outside any [try]. *)
Definition on_close (c : nat) (w : world) : world * list effect :=
  match clients w !! c with
  | None => (w, [])
  | Some k =>
      let w0 := mkWorld (rooms w) (delete c (clients w)) (entropy w) (uuid w) in
      let rid := ws_roomId k in
      let key := key_of rid in
      if (ident_truthy rid && ident_truthy (ws_playerId k))%bool then
        match rooms w0 !! key with
        | None => if inherited key then (w0, [Uncaught]) else (w0, [])
        | Some r =>
            let ps := delete (key_of (ws_playerId k)) (players r) in
            let w1 := set_room key (set_players ps r) w0 in
            if Nat.eqb (size ps) 0 then
              let '(w2, e) := stopGame rid w1 in
              (set_rooms (delete key (rooms w2)) w2, e)
            else (w1, [broadcastToRoom rid (MsgState rid ps) w1])
        end
      else (w0, [])
  end.

(** ** Events and runs *)

Inductive event : Type :=
| Connect (c : nat)
| Message (c : nat) (raw : option message)
| Close (c : nat)
| Tick (rid : ident).

Definition on_connection (c : nat) (w : world) : world :=
  match clients w !! c with
  | Some _ => w
  | None => mkWorld (rooms w) (<[c := mkConn true None None]> (clients w))
              (entropy w) (uuid w)
  end.

(** One complete handler or one complete tick. *)
Definition handle (ev : event) (w : world) : world * list effect :=
  match ev with
  | Connect c => (on_connection c w, [])
  | Message c raw =>
      match clients w !! c with
      | Some _ => on_message c raw w
      | None => (w, [])
      end
  | Close c => on_close c w
  | Tick rid => gameLoop rid w
  end.

(** An uncaught exception ends the process. *)
Definition fatal (effs : list effect) : bool :=
  existsb (fun eff => match eff with Uncaught => true | _ => false end) effs.

Fixpoint run (evs : list event) (w : world) : world * list effect :=
  match evs with
  | [] => (w, [])
  | ev :: rest =>
      let '(w1, e1) := handle ev w in
      if fatal e1 then (w1, e1)
      else let '(w2, e2) := run rest w1 in (w2, e1 ++ e2)
  end.

Definition initial (e : nat -> Q) : world := mkWorld ∅ ∅ e 0.

(** The states between two handlers.  The relation is closed under every
    event, also from a state whose last handler was fatal: it contains every
    state of the running process, so what holds of all [reachable] states
    holds of the program. *)
Inductive reachable : world -> Prop :=
| reach_initial e : reachable (initial e)
| reach_step ev w : reachable w -> reachable (handle ev w).1.

(** A state reached from the empty store by handlers none of which wrote to
    a prototype: the program is then fully described by the own properties
    a [world] holds. *)
Inductive pristine : world -> Prop :=
| pristine_initial e : pristine (initial e)
| pristine_step ev w :
    pristine w -> ¬ In PrototypeWrite (handle ev w).2 -> pristine (handle ev w).1.

(** ** The first revision of server.js (lines 1-55)

    Rooms only hold a roster; connections carry no binding, and the handler
    sends every state message to all open clients. *)
Module FirstDocument.

Record player : Type := mkPlayer {
  nickname : value;
  color : value;
  ready : value;
  alive : value;
  p_x : num;
  p_y : num;
  extra : gmap string value
}.

(** [clients] maps a socket to [readyState === WebSocket.OPEN]. *)
Record world : Type := mkWorld {
  rooms : gmap string (gmap string player);
  clients : gmap nat bool
}.

(** [SendNoRoster] is the state message without its [players] field:
    [JSON.stringify] drops a field whose value is [undefined]. *)
Inductive effect : Type :=
| Send (c : nat) (rid : ident) (ps : gmap string player)
| SendNoRoster (c : nat) (rid : ident)
| ConsoleError
| PrototypeWrite.

Definition joined (o : object) : player :=
  mkPlayer (default VUndef (f_nickname o)) (default VUndef (f_color o))
    (VBool false) (VBool true) (Fin 0) (Fin 0) ∅.

Definition num_prop (name : string) (q : option Q) : gmap string value :=
  match q with Some v => {[ name := VNum v ]} | None => ∅ end.

Definition assign (p : player) (o : object) : player :=
  mkPlayer (default (nickname p) (f_nickname o))
    (default (color p) (f_color o))
    (default (ready p) (f_ready o))
    (default (alive p) (f_alive o))
    (default (p_x p) (Fin <$> f_x o))
    (default (p_y p) (Fin <$> f_y o))
    (delete "__proto__" (f_rest o) ∪ num_prop "z" (f_z o)
       ∪ num_prop "laneTarget" (f_laneTarget o)
       ∪ num_prop "laneCurrent" (f_laneCurrent o) ∪ extra p).

Definition open_clients (cs : gmap nat bool) : list nat :=
  (filter (λ cb, Is_true cb.2) (map_to_list cs)).*1.

(** Lines 40-45. *)
Definition broadcast (rid : ident) (ps : gmap string player) (w : world)
  : list effect :=
  map (fun c => Send c rid ps) (open_clients (clients w)).

(** Lines 39-45 for the roster [ps] of the room under [k]. *)
Definition publish (m : message) (rs : gmap string (gmap string player))
    (ps : gmap string player) (w : world) : world * list effect :=
  let w1 := mkWorld (<[key_of (roomId m) := ps]> rs) (clients w) in
  (w1, broadcast (roomId m) ps w1).

(** Lines 15-49.  As in the current revision, [rooms[roomId]] and
    [players[playerId]] find the members of [Object.prototype]. *)
Definition on_message (raw : option message) (w : world)
  : world * list effect :=
  match raw with
  | None => (w, [ConsoleError])
  | Some m =>
      let k := key_of (roomId m) in
      let pk := key_of (playerId m) in
      let rs := match rooms w !! k with
                | Some _ => rooms w
                | None => if inherited k then rooms w else <[k := ∅]> (rooms w)
                end in
      let w0 := mkWorld rs (clients w) in
      match rs !! k with
      | None =>
          (* [rooms[roomId]] is a builtin, its [players] is [undefined] *)
          if (bool_decide (action m = Some "join")
              || bool_decide (action m = Some "update"))%bool
          then (w0, [ConsoleError])
          else (w0, map (fun c => SendNoRoster c (roomId m))
                      (open_clients (clients w)))
      | Some ps =>
          if bool_decide (action m = Some "join") then
            match payload m with
            | None => (w0, [ConsoleError])
            | Some o =>
                if String.eqb pk "__proto__" then (w0, [PrototypeWrite])
                else publish m rs (<[pk := joined o]> ps) w
            end
          else if bool_decide (action m = Some "update") then
            match ps !! pk with
            | Some p =>
                publish m rs (match payload m with
                              | Some o => <[pk := assign p o]> ps
                              | None => ps
                              end) w
            | None =>
                (* [Object.assign] on [undefined] throws, on a builtin it
                   copies the payload *)
                if inherited pk then
                  if has_properties (payload m) then (w0, [PrototypeWrite])
                  else publish m rs ps w
                else (w0, [ConsoleError])
            end
          else publish m rs ps w
      end
  end.

(** Lines 12-13 and 51-54: both handlers only log; the [ws] server keeps
    [wss.clients] current. *)
Definition on_connection (c : nat) (w : world) : world * list effect :=
  (mkWorld (rooms w) (<[c := true]> (clients w)), []).

Definition on_close (c : nat) (w : world) : world * list effect :=
  (mkWorld (rooms w) (delete c (clients w)), []).

Inductive event : Type :=
| Connect (c : nat)
| Message (c : nat) (raw : option message)
| Close (c : nat).

Definition handle (ev : event) (w : world) : world * list effect :=
  match ev with
  | Connect c => on_connection c w
  | Message _ raw => on_message raw w
  | Close c => on_close c w
  end.

Fixpoint run (evs : list event) (w : world) : world * list effect :=
  match evs with
  | [] => (w, [])
  | ev :: evs' =>
      let '(w1, out1) := handle ev w in
      let '(w2, out2) := run evs' w1 in
      (w2, out1 ++ out2)
  end.

(** The player stored under [(k, pk)], if any. *)
Definition player_at (k pk : string) (w : world) : option player :=
  rooms w !! k ≫= (.!! pk).

Definition initial : world := mkWorld ∅ ∅.

(** A state reached without a write to a prototype. *)
Inductive pristine : world -> Prop :=
| pristine_initial : pristine initial
| pristine_step ev w :
    pristine w -> ¬ In PrototypeWrite (handle ev w).2 -> pristine (handle ev w).1.

End FirstDocument.

(** ** Vocabulary of the statements *)

(** A [gameState] snapshot of the room stored under key [k]. *)
Definition is_gameState (k : string) (eff : effect) : Prop :=
  match eff with
  | Broadcast (MsgGameState rid _ _ _ _) _ => key_of rid = k
  | _ => False
  end.

(** The effect of a [startGame] that passed its guard for the room under [k]. *)
Definition is_start (k : string) (eff : effect) : Prop :=
  match eff with
  | SetInterval rid => key_of rid = k
  | _ => False
  end.

(** The room under key [k] is absent or not running. *)
Definition idle (k : string) (w : world) : Prop :=
  ∀ r, rooms w !! k = Some r → running r = false.

(** The room an outbound message is about. *)
Definition room_of (data : outmsg) : ident :=
  match data with
  | MsgState rid _ => rid
  | MsgGameState rid _ _ _ _ => rid
  | MsgGameOver rid => rid
  end.

(** A broadcast whose recipients are the sockets of its room in registry
    [cs]. *)
Definition scoped (cs : gmap nat conn) (eff : effect) : Prop :=
  match eff with
  | Broadcast data recips => recips = recipients (room_of data) cs
  | _ => True
  end.

(** Intervals scheduled minus intervals cleared for the room under [k]. *)
Definition interval_delta (k : string) (eff : effect) : Z :=
  match eff with
  | SetInterval rid => if decide (key_of rid = k) then 1 else 0
  | ClearInterval rid => if decide (key_of rid = k) then -1 else 0
  | _ => 0
  end%Z.

Definition intervals (k : string) (effs : list effect) : Z :=
  foldr (λ eff n, interval_delta k eff + n)%Z 0%Z effs.

(** 1 when the room under [k] exists and is running, 0 otherwise. *)
Definition running_at (k : string) (w : world) : Z :=
  match rooms w !! k with
  | Some r => if running r then 1 else 0
  | None => 0
  end%Z.

(** The score keeps pace with the elapsed time: between 5 and 40 per
    second. *)
Definition score_paced (r : room) : Prop :=
  0 <= room_t r ∧ 5 * room_t r <= score r ∧ score r <= 40 * room_t r.

(** Every draw of [Math.random] lies in [0, 1). *)
Definition unit_draws (e : nat -> Q) : Prop := ∀ n, 0 <= e n ∧ e n < 1.

(** An obstacle inside the field: a lane of [LANE_X], the fixed height, and
    a depth between the far end of the recycle range and the forward
    boundary. *)
Definition in_field (o : obstacle) : Prop :=
  -240 <= o_z o ∧ o_z o <= 6 ∧ o_y o = 9 # 10 ∧
  ∃ lane, lane ∈ LANE_X ∧ o_x o = Fin lane.

(** The pool of a room: empty before the first round, eight obstacles
    afterwards, all inside the field. *)
Definition pool_ok (r : room) : Prop :=
  (obstacles r = [] ∨ length (obstacles r) = 8%nat) ∧
  Forall in_field (obstacles r).

(** A room with a sane clock and a sane pool. *)
Definition field_ok (r : room) : Prop := 0 <= room_t r ∧ pool_ok r.

(** Every room of the store satisfies [P]. *)
Definition all_rooms (P : room -> Prop) (w : world) : Prop :=
  ∀ k r, rooms w !! k = Some r → P r.

(** The obstacles behind slot [i] that a tick at [speed] recycles.  The
    loop of lines 142-150 serves them before slot [i], two draws each. *)
Definition recycled_after (speed : Q) (os : list obstacle) (i : nat) : nat :=
  length (List.filter (fun o => if Qlt_le_dec 6 (o_z o + speed) then true else false)
            (drop (S i) os)).

(** A number within the bounds of the lane table, [0 .. LANE_X.length - 1]. *)
Definition in_lane_range (n : num) : Prop :=
  match n with
  | Fin q => 0 <= q ∧ q <= LANE_X_length - 1
  | NaN => False
  end.

(** A number that is an index of the lane table. *)
Definition valid_lane (n : num) : Prop :=
  match n with
  | Fin q => q == 0 ∨ q == 1 ∨ q == 2
  | NaN => False
  end.

(** The player stored under [(k, pk)], if any. *)
Definition player_at (k pk : string) (w : world) : option player :=
  rooms w !! k ≫= λ r, players r !! pk.

(** No room is stored under the name of a builtin. *)
Definition own_keys (w : world) : Prop :=
  ∀ k r, rooms w !! k = Some r → inherited k = false.


(** An [input] message on a live connection, whatever its payload. *)
Definition input_event (ev : event) : Prop :=
  ∃ c m, ev = Message c (Some m) ∧ classify (action m) = Input.


(** ** Sample data for the concrete instances *)

Definition half : nat -> Q := fun _ => 1 # 2.

Definition no_fields : object :=
  mkObject None None None None None None None None None ∅.

Definition ready_fields : object :=
  mkObject None None (Some (VBool true)) None None None None None None ∅.

Definition laneTarget_fields (q : Q) : object :=
  mkObject None None None None None None None (Some q) None ∅.



Definition input_fields (dir : string) : object :=
  mkObject None None None None None None None None None {[ "input" := VStr dir ]}.

Definition msg (rid pid act : string) (pl : option object) : option message :=
  Some (mkMessage (Some rid) (Some pid) (Some act) pl).

(** Player "A" alone in the running room "R2", one obstacle about to reach
    the player plane in the centre lane. *)
Definition duel : world :=
  mkWorld
    {[ "R2" := mkRoom {[ "A" := joined no_fields ]} true 0 0
                 [mkObstacle 0 (Fin 0) (9 # 10) (-1)] ]}
    {[ 0%nat := mkConn true (Some "R2") (Some "A") ]}
    half 1.

(** Room "R1" right after its only player "A" turned ready. *)
Definition started : world :=
  (run [Connect 0; Message 0 (msg "R1" "A" "join" (Some no_fields));
        Message 0 (msg "R1" "A" "update" (Some ready_fields))]
     (initial half)).1.

(** Four distinct draws, then one half for ever. *)
Definition mixed (n : nat) : Q :=
  match n with
  | 0%nat => 1 # 10
  | 1%nat => 9 # 10
  | 2%nat => 5 # 10
  | 3%nat => 2 # 10
  | _ => 1 # 2
  end.

(** Player "A" in the running room "R2", with two obstacles about to pass
    the forward boundary. *)
Definition brink : world :=
  mkWorld
    {[ "R2" := mkRoom {[ "A" := joined no_fields ]} true 0 0
                 [mkObstacle 0 (Fin 0) (9 # 10) (59 # 10);
                  mkObstacle 1 (Fin 4) (9 # 10) (58 # 10)] ]}
    {[ 0%nat := mkConn true (Some "R2") (Some "A") ]}
    mixed 2.


(** Room "R1" in the lobby, with its only player "A" not ready yet. *)
Definition lobby : world :=
  (run [Connect 0; Message 0 (msg "R1" "A" "join" (Some no_fields))]
     (initial half)).1.

(** A player on its way to the left lane, 2 units left of the centre. *)
Definition drifting : player :=
  mkPlayer VUndef VUndef (VBool true) (VBool true)
    (Fin (-2)) (Fin 1) (Fin 0) (Fin 0) (Fin (-2)) ∅.

(** One obstacle per lane, all level with the players. *)
Definition wall : list obstacle :=
  [mkObstacle 0 (Fin (-4)) (9 # 10) 0; mkObstacle 1 (Fin 0) (9 # 10) 0;
   mkObstacle 2 (Fin 4) (9 # 10) 0].

(** Thirty seconds into a round (full speed), player "A" in the centre lane
    and an obstacle of that lane 2 units behind the player plane. *)
Definition full_speed : world :=
  mkWorld
    {[ "R2" := mkRoom {[ "A" := joined no_fields ]} true 900 30
                 [mkObstacle 0 (Fin 0) (9 # 10) (-2)] ]}
    {[ 0%nat := mkConn true (Some "R2") (Some "A") ]}
    half 1.

(** The running room "R2" whose only player "A", ready, has just died. *)
Definition all_dead : world :=
  mkWorld
    {[ "R2" := mkRoom {[ "A" := mkPlayer VUndef VUndef (VBool true) (VBool false)
                                  (Fin 0) (Fin 1) (Fin 0) (Fin 1) (Fin 0) ∅ ]}
                 true 0 0 [mkObstacle 0 (Fin 0) (9 # 10) (-1)] ]}
    {[ 0%nat := mkConn true (Some "R2") (Some "A") ]}
    half 1.

(** * Properties *)

(** ** Rationals *)

Lemma qmin_lower (a b c : Q) : c <= a -> c <= b -> c <= qmin a b.
Proof. intros Ha Hb. unfold qmin. destruct (Qlt_le_dec b a); assumption. Qed.

Lemma speed_at_pos (t : Q) : 0 <= t -> 1 # 2 <= speed_at t.
Proof.
  intros Ht. unfold speed_at.
  assert (0 <= qmin (7 # 2) (t * (12 # 100))) as H.
  { apply qmin_lower; lra. }
  lra.
Qed.

(** ** Recipients of a broadcast *)

Lemma recipients_spec (rid : ident) (cs : gmap nat conn) (c : nat) :
  c ∈ recipients rid cs ↔
  ∃ k, cs !! c = Some k ∧ ws_open k = true ∧ ws_roomId k = rid.
Proof.
  unfold recipients. rewrite list_elem_of_fmap. split.
  - intros [[c' k] [-> Hin]]. apply list_elem_of_filter in Hin as [Hrecv Hin].
    apply elem_of_map_to_list in Hin. exists k. simpl in *.
    unfold receives in Hrecv. apply Is_true_true in Hrecv.
    apply andb_true_iff in Hrecv as [Hopen Hrid].
    apply bool_decide_eq_true in Hrid. done.
  - intros (k & Hk & Hopen & Hrid). exists (c, k). split; [done|].
    apply list_elem_of_filter. split.
    + simpl. unfold receives. rewrite Hopen. simpl.
      apply Is_true_true, bool_decide_eq_true. done.
    + by apply elem_of_map_to_list.
Qed.

(** ** States of the program *)

Lemma pristine_reachable (w : world) : pristine w -> reachable w.
Proof. induction 1; by constructor. Qed.

Lemma pristine_run (evs : list event) (w : world) :
  pristine w -> ¬ In PrototypeWrite (run evs w).2 -> pristine (run evs w).1.
Proof.
  revert w. induction evs as [|ev evs IH]; intros w Hw Hno; [done|].
  cbn [run] in *. destruct (handle ev w) as [w1 e1] eqn:Hev.
  assert (pristine w1 ∧ (fatal e1 = false → ¬ In PrototypeWrite (run evs w1).2))
    as [Hw1 Hrest].
  { destruct (fatal e1).
    - split; [|done]. pose proof (pristine_step ev w Hw) as H1.
      rewrite Hev in H1. by apply H1.
    - destruct (run evs w1) as [w2 e2]. simpl in *. split.
      + pose proof (pristine_step ev w Hw) as H1. rewrite Hev in H1. apply H1.
        intros Hin. apply Hno, in_or_app. by left.
      + intros _ Hin. apply Hno, in_or_app. by right. }
  destruct (fatal e1); [done|]. specialize (IH w1 Hw1 (Hrest eq_refl)).
  by destruct (run evs w1).
Qed.

(** The sample states are states of the program. *)
Lemma pristine_connected : pristine (on_connection 0 (initial half)).
Proof.
  apply (pristine_step (Connect 0) (initial half)); [constructor|].
  by intros [].
Qed.

Lemma pristine_lobby : pristine lobby.
Proof.
  apply pristine_run; [constructor|]. vm_compute.
  intros H. repeat (destruct H as [H|H]; [discriminate H|]). exact H.
Qed.

Lemma pristine_started : pristine started.
Proof.
  apply pristine_run; [constructor|]. vm_compute.
  intros H. repeat (destruct H as [H|H]; [discriminate H|]). exact H.
Qed.


(** ** Rooms and the store *)

Lemma classify_update : classify (Some "update") = Update.
Proof. reflexivity. Qed.

Lemma ensure_room_present (k : string) (w : world) (r : room) :
  rooms w !! k = Some r -> ensure_room k w = w /\ the_room k w = r.
Proof. intros Hk. unfold ensure_room, the_room. by rewrite Hk. Qed.

Lemma ensure_room_absent (k : string) (w : world) :
  rooms w !! k = None -> inherited k = false ->
  ensure_room k w = set_room k empty_room w /\
  rooms (ensure_room k w) !! k = Some empty_room /\
  the_room k (ensure_room k w) = empty_room.
Proof.
  intros Hk Hown. unfold ensure_room, the_room. rewrite Hk, Hown. simpl.
  by rewrite lookup_insert_eq.
Qed.

Lemma ensure_room_builtin (k : string) (w : world) :
  rooms w !! k = None -> inherited k = true ->
  ensure_room k w = w.
Proof. intros Hk Hin. unfold ensure_room. by rewrite Hk, Hin. Qed.

(** After lines 203-205 the room is stored, except under the name of a
    builtin, where nothing was created. *)
Lemma ensure_room_cases (k : string) (w : world) :
  (∃ r, rooms (ensure_room k w) !! k = Some r ∧
        ((rooms w !! k = Some r ∧ ensure_room k w = w) ∨
         (rooms w !! k = None ∧ inherited k = false ∧ r = empty_room ∧
          ensure_room k w = set_room k empty_room w))) ∨
  (rooms (ensure_room k w) !! k = None ∧ rooms w !! k = None ∧
   inherited k = true ∧ ensure_room k w = w).
Proof.
  destruct (rooms w !! k) as [r|] eqn:Hk.
  - left. exists r. destruct (ensure_room_present _ _ _ Hk) as [-> _]. auto.
  - destruct (inherited k) eqn:Hin.
    + right. rewrite (ensure_room_builtin _ _ Hk Hin). auto.
    + left. exists empty_room.
      destruct (ensure_room_absent _ _ Hk Hin) as (Heq & Hlook & _).
      split; [done|]. right. auto.
Qed.

Lemma ensure_room_stored (k : string) (w : world) :
  inherited k = false -> is_Some (rooms (ensure_room k w) !! k).
Proof.
  intros Hown. destruct (ensure_room_cases k w) as [(r & -> & _)|(_ & _ & Hin & _)];
    [done|congruence].
Qed.

Lemma ensure_room_other (k k' : string) (w : world) :
  k ≠ k' -> rooms (ensure_room k w) !! k' = rooms w !! k'.
Proof.
  intros Hne. unfold ensure_room.
  destruct (rooms w !! k); [done|]. destruct (inherited k); [done|].
  simpl. by rewrite lookup_insert_ne.
Qed.

Lemma ensure_room_clients (k : string) (w : world) :
  clients (ensure_room k w) = clients w.
Proof.
  unfold ensure_room. destruct (rooms w !! k); [done|]. by destruct (inherited k).
Qed.

Lemma ensure_room_entropy (k : string) (w : world) :
  entropy (ensure_room k w) = entropy w.
Proof.
  unfold ensure_room. destruct (rooms w !! k); [done|]. by destruct (inherited k).
Qed.

(** No room is removed or changed by lines 203-205. *)
Lemma ensure_room_keeps (k k' : string) (w : world) (r : room) :
  rooms w !! k' = Some r -> rooms (ensure_room k w) !! k' = Some r.
Proof.
  intros Hr. destruct (decide (k = k')) as [->|Hne].
  - by destruct (ensure_room_present _ _ _ Hr) as [-> _].
  - by rewrite ensure_room_other.
Qed.

Lemma allReady_spec (ps : gmap string player) :
  allReady ps = true ↔ map_Forall (λ _ p, truthy (ready p) = true) ps.
Proof.
  unfold allReady. rewrite forallb_forall, map_Forall_to_list, Forall_forall.
  split.
  - intros H [k p] Hin. simpl. apply H. apply list_elem_of_In.
    apply list_elem_of_fmap. by exists (k, p).
  - intros H p Hin. apply list_elem_of_In, list_elem_of_fmap in Hin
      as [[k p'] [-> Hin]].
    by apply (H (k, p')).
Qed.

Lemma size_nonzero (ps : gmap string player) :
  negb (Nat.eqb (size ps) 0) = true ↔ ps ≠ ∅.
Proof.
  rewrite negb_true_iff, Nat.eqb_neq. by rewrite map_size_empty_iff.
Qed.

(** ** startGame *)

Lemma spawn_all_frame (zs : list Q) (os : list obstacle) (w : world) :
  let res := fold_left (fun acc z => spawnObstacle z acc) zs (os, w) in
  rooms res.2 = rooms w /\ clients res.2 = clients w /\
  length res.1 = (length os + length zs)%nat.
Proof.
  revert os w. induction zs as [|z zs IH]; intros os w; simpl.
  - repeat split; lia.
  - specialize (IH (os ++ [mkObstacle (uuid w) (random_lane (entropy w 0%nat)) (9 # 10) z])
                   (mkWorld (rooms w) (clients w) (fun n => entropy w (S n)) (S (uuid w)))).
    simpl in IH. destruct IH as (Hr & Hc & Hl). repeat split; try done.
    rewrite Hl, length_app. simpl. lia.
Qed.

Lemma startGame_lobby (rid : ident) (w : world) (r : room) :
  rooms w !! key_of rid = Some r -> running r = false ->
  ∃ os w1,
    startGame rid w =
      (set_room (key_of rid) (mkRoom (reset_player <$> players r) true 0 0 os) w1,
       [SetInterval rid]) /\
    rooms w1 = rooms w /\ clients w1 = clients w /\ length os = 8%nat.
Proof.
  intros Hk Hrun. unfold startGame. rewrite Hk, Hrun.
  destruct (spawn_all_frame spawn_depths [] w) as (Hr & Hc & Hl).
  destruct (fold_left _ spawn_depths ([], w)) as [os w1].
  exists os, w1. done.
Qed.

Lemma startGame_running (rid : ident) (w : world) (r : room) :
  rooms w !! key_of rid = Some r -> running r = true -> startGame rid w = (w, []).
Proof. intros Hk Hrun. unfold startGame. by rewrite Hk, Hrun. Qed.

Lemma startGame_clients (rid : ident) (w : world) :
  clients (startGame rid w).1 = clients w.
Proof.
  destruct (rooms w !! key_of rid) as [r|] eqn:Hk.
  - destruct (running r) eqn:Hrun.
    + by rewrite (startGame_running rid w r).
    + by destruct (startGame_lobby rid w r Hk Hrun) as (os & w1 & -> & _ & Hcl & _).
  - unfold startGame. by rewrite Hk.
Qed.

Lemma startGame_effects (rid : ident) (w : world) :
  Forall (λ eff, eff = SetInterval rid) (startGame rid w).2.
Proof.
  destruct (rooms w !! key_of rid) as [r|] eqn:Hk.
  - destruct (running r) eqn:Hrun.
    + rewrite (startGame_running rid w r) by done. constructor.
    + destruct (startGame_lobby rid w r Hk Hrun) as (os & w1 & -> & _).
      by repeat constructor.
  - unfold startGame. rewrite Hk. constructor.
Qed.

(** ** The start condition of [update] *)

Lemma on_message_update (c : nat) (rid pid : ident) (pl : option object) (w : world)
    (r : room) (ps : gmap string player) :
  rooms (ensure_room (key_of rid) w) !! key_of rid = Some r ->
  merge_player (key_of pid) pl (players r) = Some ps ->
  let k := key_of rid in
  let w1 := set_room k (set_players ps r) (ensure_room k w) in
  let e1 := broadcastToRoom rid (MsgState rid ps) w1 in
  on_message c (Some (mkMessage rid pid (Some "update") pl)) w =
    if (allReady ps && negb (running r) && negb (Nat.eqb (size ps) 0))%bool
    then ((startGame rid w1).1, e1 :: (startGame rid w1).2)
    else (w1, [e1]).
Proof.
  intros Hr Hps. unfold on_message. cbn [action roomId playerId payload].
  rewrite Hr, classify_update, Hps. cbv zeta.
  destruct (_ && _ && _)%bool; [|done].
  by destruct (startGame _ _).
Qed.



(** ** gameLoop *)

Lemma gameLoop_idle (rid : ident) (w : world) :
  idle (key_of rid) w -> gameLoop rid w = (w, []).
Proof.
  intros Hidle. unfold gameLoop.
  destruct (rooms w !! key_of rid) as [r|] eqn:Hk; [|done].
  by rewrite (Hidle r Hk).
Qed.

Lemma tick_room_running (r : room) (e : nat -> Q) :
  running (tick_room r e).1 = running r.
Proof. unfold tick_room. by destruct (step_obstacles _ _ _). Qed.

Lemma tick_room_players (r : room) (e : nat -> Q) :
  players (tick_room r e).1 = step_player (obstacles (tick_room r e).1) <$> players r.
Proof. unfold tick_room. by destruct (step_obstacles _ _ _). Qed.

Lemma tick_room_time (r : room) (e : nat -> Q) :
  room_t (tick_room r e).1 = room_t r + TICK_TIME / 1000.
Proof. unfold tick_room. by destruct (step_obstacles _ _ _). Qed.

(** A tick that finds a player alive publishes the snapshot. *)
Lemma gameLoop_publishes (rid : ident) (w : world) (r : room) :
  rooms w !! key_of rid = Some r -> running r = true -> playersAlive r ≠ 0%nat ->
  let r1 := (tick_room r (entropy w)).1 in
  let w1 := mkWorld (<[key_of rid := r1]> (rooms w)) (clients w)
              (tick_room r (entropy w)).2 (uuid w) in
  gameLoop rid w =
    (w1, [broadcastToRoom rid
            (MsgGameState rid (players r1) (obstacles r1) (Qfloor (score r1)) true) w1]).
Proof.
  intros Hk Hrun Halive. unfold gameLoop. rewrite Hk, Hrun.
  pose proof (tick_room_running r (entropy w)) as Hr1.
  destruct (tick_room r (entropy w)) as [r1 e1]. simpl in *.
  apply Nat.eqb_neq in Halive. rewrite Halive. simpl. by rewrite Hr1, Hrun.
Qed.

(** A tick that finds nobody alive in a non-empty room stops the round. *)
Lemma gameLoop_stops (rid : ident) (w : world) (r : room) :
  rooms w !! key_of rid = Some r -> running r = true ->
  playersAlive r = 0%nat -> players r ≠ ∅ ->
  let r1 := (tick_room r (entropy w)).1 in
  let w2 := mkWorld (<[key_of rid := set_running false r1]> (rooms w)) (clients w)
              (tick_room r (entropy w)).2 (uuid w) in
  gameLoop rid w =
    (w2, [ClearInterval rid; broadcastToRoom rid (MsgGameOver rid) w2]).
Proof.
  intros Hk Hrun Halive Hne. unfold gameLoop. rewrite Hk, Hrun.
  pose proof (tick_room_running r (entropy w)) as Hr1.
  pose proof (tick_room_players r (entropy w)) as Hps.
  destruct (tick_room r (entropy w)) as [r1 e1]. simpl in *.
  rewrite Halive. simpl.
  assert (negb (Nat.eqb (size (players r1)) 0) = true) as ->.
  { rewrite Hps, map_size_fmap. by apply size_nonzero. }
  unfold stopGame. simpl. rewrite lookup_insert_eq, Hr1, Hrun.
  unfold set_room, set_rooms. simpl. by rewrite insert_insert_eq.
Qed.

(** A tick of a running room without players only advances the room. *)
Lemma gameLoop_empty (rid : ident) (w : world) (r : room) :
  rooms w !! key_of rid = Some r -> running r = true -> players r = ∅ ->
  let r1 := (tick_room r (entropy w)).1 in
  let w1 := mkWorld (<[key_of rid := r1]> (rooms w)) (clients w)
              (tick_room r (entropy w)).2 (uuid w) in
  gameLoop rid w =
    (w1, [broadcastToRoom rid
            (MsgGameState rid (players r1) (obstacles r1) (Qfloor (score r1)) true) w1]).
Proof.
  intros Hk Hrun Hempty. unfold gameLoop. rewrite Hk, Hrun.
  pose proof (tick_room_running r (entropy w)) as Hr1.
  pose proof (tick_room_players r (entropy w)) as Hps.
  destruct (tick_room r (entropy w)) as [r1 e1]. simpl in *.
  assert (negb (Nat.eqb (size (players r1)) 0) = false) as ->.
  { rewrite Hps, Hempty, fmap_empty, map_size_empty. done. }
  rewrite andb_false_r. by rewrite Hr1, Hrun.
Qed.

Lemma playersAlive_zero (r : room) :
  playersAlive r = 0%nat ↔
  ∀ pk p, players r !! pk = Some p → truthy (alive p) = false.
Proof.
  unfold playersAlive, alive_players. rewrite map_size_empty_iff, map_empty.
  setoid_rewrite map_lookup_filter_None. simpl. split.
  - intros H pk p Hp. destruct (H pk) as [Hnone|Hfalse]; [congruence|].
    specialize (Hfalse p Hp). by destruct (truthy (alive p)).
  - intros H pk. destruct (players r !! pk) as [p|] eqn:Hp; [right|by left].
    intros p' [= <-] Ht. by rewrite (H pk p Hp) in Ht.
Qed.

(** ** Frames: which room a handler touches *)

Lemma idle_ensure_room (k k' : string) (w : world) :
  idle k w -> idle k (ensure_room k' w).
Proof.
  intros Hidle r. unfold ensure_room.
  destruct (rooms w !! k') eqn:Hk'; [apply Hidle|].
  destruct (inherited k'); [apply Hidle|].
  simpl. destruct (decide (k' = k)) as [->|Hne].
  - rewrite lookup_insert_eq. by intros [= <-].
  - rewrite lookup_insert_ne by done. apply Hidle.
Qed.

Lemma idle_set_players (k k' : string) (w : world) (r : room) (ps : gmap string player) :
  idle k w -> rooms w !! k' = Some r ->
  idle k (set_room k' (set_players ps r) w).
Proof.
  intros Hidle Hr r'. simpl. destruct (decide (k' = k)) as [->|Hne].
  - rewrite lookup_insert_eq. intros [= <-]. simpl. by apply Hidle.
  - rewrite lookup_insert_ne by done. apply Hidle.
Qed.

Lemma on_message_idle (k : string) (c : nat) (raw : option message) (w : world) :
  idle k w ->
  Forall (λ eff, ¬ is_gameState k eff) (on_message c raw w).2 ∧
  (idle k (on_message c raw w).1 ∨ Exists (is_start k) (on_message c raw w).2).
Proof.
  intros Hidle. destruct raw as [m|]; simpl.
  2:{ split; [|by left]. repeat constructor. simpl. tauto. }
  pose proof (idle_ensure_room k (key_of (roomId m)) w Hidle) as Hidle0.
  set (w0 := ensure_room (key_of (roomId m)) w) in *.
  destruct (rooms w0 !! key_of (roomId m)) as [r|] eqn:Hlook.
  2:{ destruct (classify (action m)); simpl;
        (split; [repeat constructor; simpl; tauto|by left]). }
  clearbody w0.
  destruct (classify (action m)) eqn:Hact.
  - destruct (payload m) as [o|]; simpl.
    + destruct (String.eqb _ "__proto__"); simpl.
      * split; [repeat constructor; simpl; tauto|]. by left.
      * split; [repeat constructor; simpl; tauto|]. left.
        by apply (idle_set_players k _ (bind_ws c (roomId m) (playerId m) w0)).
    + split; [repeat constructor; simpl; tauto|]. by left.
  - destruct (merge_player _ _ _) as [ps|]; simpl.
    2:{ split; [repeat constructor; simpl; tauto|by left]. }
    destruct (allReady ps && negb (running r) && negb (Nat.eqb (size ps) 0))%bool
      eqn:Hcond.
    + apply andb_true_iff in Hcond as [Hcond _].
      apply andb_true_iff in Hcond as [_ Hrun]. apply negb_true_iff in Hrun.
      destruct (startGame_lobby (roomId m)
                  (set_room (key_of (roomId m)) (set_players ps r) w0)
                  (set_players ps r)) as (os & w1 & Hst & Hrooms & _).
      { simpl. by rewrite lookup_insert_eq. }
      { done. }
      rewrite Hst. simpl. split; [repeat constructor; simpl; tauto|].
      destruct (decide (key_of (roomId m) = k)) as [Heq|Hne].
      * right. right. left. done.
      * left. intros r'. simpl. rewrite lookup_insert_ne by done. rewrite Hrooms.
        simpl. rewrite lookup_insert_ne by done. apply Hidle0.
    + simpl. split; [repeat constructor; simpl; tauto|]. left.
      by apply idle_set_players.
  - destruct (players r !! key_of (playerId m)) as [p|]; simpl.
    2:{ split; [constructor|by left]. }
    destruct (truthy (alive p)); simpl.
    2:{ split; [constructor|by left]. }
    destruct (payload m) as [o|]; simpl.
    + split; [constructor|]. left. by apply idle_set_players.
    + split; [repeat constructor; simpl; tauto|]. by left.
  - simpl. split; [constructor|by left].
Qed.

Lemma stopGame_cases (rid : ident) (w : world) :
  (stopGame rid w = (w, []) ∧ idle (key_of rid) w) ∨
  (∃ r, rooms w !! key_of rid = Some r ∧ running r = true ∧
        stopGame rid w =
          (set_room (key_of rid) (set_running false r) w,
           [ClearInterval rid;
            broadcastToRoom rid (MsgGameOver rid)
              (set_room (key_of rid) (set_running false r) w)])).
Proof.
  unfold stopGame, idle. destruct (rooms w !! key_of rid) as [r|] eqn:Hk.
  - destruct (running r) eqn:Hrun.
    + right. by exists r.
    + left. split; [done|]. by intros r' [= <-].
  - left. done.
Qed.

Lemma stopGame_frame (rid : ident) (w : world) (k : string) :
  k ≠ key_of rid -> rooms (stopGame rid w).1 !! k = rooms w !! k.
Proof.
  intros Hne. destruct (stopGame_cases rid w) as [[-> _]|(r & _ & _ & ->)]; [done|].
  simpl. by rewrite lookup_insert_ne.
Qed.

Lemma gameLoop_frame (rid : ident) (w : world) (k : string) :
  k ≠ key_of rid -> rooms (gameLoop rid w).1 !! k = rooms w !! k.
Proof.
  intros Hne. unfold gameLoop.
  destruct (rooms w !! key_of rid) as [r|]; [|done].
  destruct (running r); [|done].
  destruct (tick_room r (entropy w)) as [r1 e1].
  destruct (_ && _)%bool.
  - rewrite stopGame_frame by done. simpl. by rewrite lookup_insert_ne.
  - simpl. by rewrite lookup_insert_ne.
Qed.

Lemma gameLoop_effects (rid : ident) (w : world) (k : string) :
  k ≠ key_of rid ->
  Forall (λ eff, ¬ is_gameState k eff ∧ ¬ is_start k eff) (gameLoop rid w).2.
Proof.
  intros Hne. unfold gameLoop.
  destruct (rooms w !! key_of rid) as [r|]; [|constructor].
  destruct (running r); [|constructor].
  destruct (tick_room r (entropy w)) as [r1 e1].
  destruct (_ && _)%bool.
  - match goal with |- context [stopGame rid ?w1] =>
      destruct (stopGame_cases rid w1) as [[-> _]|(r' & _ & _ & ->)] end;
      repeat constructor; simpl; tauto.
  - repeat constructor; simpl; congruence.
Qed.

Lemma on_close_idle (k : string) (c : nat) (w : world) :
  idle k w ->
  Forall (λ eff, ¬ is_gameState k eff) (on_close c w).2 ∧ idle k (on_close c w).1.
Proof.
  intros Hidle. unfold on_close.
  destruct (clients w !! c) as [k0|]; [|by split; [constructor|]].
  destruct (_ && _)%bool; [|by split; [constructor|]].
  simpl. destruct (rooms w !! key_of (ws_roomId k0)) as [r|] eqn:Hr.
  2:{ destruct (inherited _); (split; [repeat constructor; simpl; tauto|done]). }
  set (ps := delete _ (players r)).
  set (w0 := mkWorld _ _ _ _).
  assert (idle k (set_room (key_of (ws_roomId k0)) (set_players ps r) w0)) as Hidle1.
  { by apply idle_set_players. }
  destruct (Nat.eqb (size ps) 0).
  - match goal with |- context [stopGame ?rid ?w1] =>
      destruct (stopGame_cases rid w1) as [[-> _]|(r' & Hr' & _ & ->)] end.
    + split; [constructor|]. intros r'. simpl.
      destruct (decide (key_of (ws_roomId k0) = k)) as [<-|Hne].
      * by rewrite lookup_delete_eq.
      * rewrite lookup_delete_ne by done. apply Hidle1.
    + split; [repeat constructor; simpl; tauto|]. intros r''. simpl.
      destruct (decide (key_of (ws_roomId k0) = k)) as [<-|Hne].
      * by rewrite lookup_delete_eq.
      * rewrite lookup_delete_ne by done. rewrite !lookup_insert_ne by done.
        apply Hidle.
  - split; [repeat constructor; simpl; tauto|]. done.
Qed.

Lemma handle_idle (k : string) (ev : event) (w : world) :
  idle k w ->
  Forall (λ eff, ¬ is_gameState k eff) (handle ev w).2 ∧
  (idle k (handle ev w).1 ∨ Exists (is_start k) (handle ev w).2).
Proof.
  intros Hidle. destruct ev as [c|c raw|c|rid]; simpl.
  - split; [constructor|]. left. unfold on_connection.
    by destruct (clients w !! c).
  - destruct (clients w !! c); [by apply on_message_idle|].
    split; [constructor|by left].
  - destruct (on_close_idle k c w Hidle). split; [done|by left].
  - destruct (decide (k = key_of rid)) as [->|Hne].
    + rewrite gameLoop_idle by done. split; [constructor|by left].
    + split.
      * eapply Forall_impl; [by apply gameLoop_effects|]. simpl. tauto.
      * left. intros r. rewrite gameLoop_frame by done. apply Hidle.
Qed.

(** From a state where the room is not running, a [gameState] snapshot of it
    is only ever sent after a new start. *)
Lemma gameState_needs_start (k : string) (evs : list event) (w : world) :
  idle k w ->
  ∀ pre eff post, (run evs w).2 = pre ++ eff :: post ->
    is_gameState k eff -> Exists (is_start k) pre.
Proof.
  revert w. induction evs as [|ev evs IH]; intros w Hidle pre eff post Hsplit Hgs.
  - simpl in Hsplit. by destruct pre.
  - simpl in Hsplit. destruct (handle_idle k ev w Hidle) as [Hnone Hnext].
    destruct (handle ev w) as [w1 e1]. specialize (IH w1).
    destruct (fatal e1).
    { simpl in *. subst e1. exfalso.
      rewrite Forall_app in Hnone. destruct Hnone as [_ Hnone].
      inversion Hnone; subst. tauto. }
    destruct (run evs w1) as [w2 e2]. simpl in *.
    apply List.app_eq_app in Hsplit as [l [[He1 Hl]|[Hpre He2]]].
    + destruct l as [|eff' l]; simpl in Hl.
      * rewrite app_nil_r in He1. subst e1.
        destruct Hnext as [Hidle1|Hstart]; [|done].
        specialize (IH Hidle1 [] eff post (eq_sym Hl) Hgs). inversion IH.
      * injection Hl as <- _. subst e1. exfalso.
        rewrite Forall_app in Hnone. destruct Hnone as [_ Hnone].
        inversion Hnone; subst. tauto.
    + subst pre. apply Exists_app.
      destruct Hnext as [Hidle1|Hstart]; [|by left]. right.
      by apply (IH Hidle1 l eff post).
Qed.

Lemma playersAlive_nonempty (r : room) : playersAlive r ≠ 0%nat -> players r ≠ ∅.
Proof.
  intros Halive Hempty. apply Halive. unfold playersAlive, alive_players.
  rewrite Hempty, map_filter_empty. apply map_size_empty.
Qed.

(** C2. When the last alive player of a running room dies in the collision
    step of tick k, tick k still publishes a [gameState] snapshot in which
    nobody is alive; tick k+1 clears the interval, publishes exactly one
    [gameOver] and no [gameState], and leaves the room not running; from
    then on, whatever events follow, a [gameState] of that room is only
    sent after a new start. *)
Theorem last_death_then_gameOver (rid : ident) (w : world) (r : room) :
  rooms w !! key_of rid = Some r → running r = true →
  playersAlive r ≠ 0%nat →
  (∀ r1, rooms (gameLoop rid w).1 !! key_of rid = Some r1 → playersAlive r1 = 0%nat) →
  let tk := gameLoop rid w in
  let tk1 := gameLoop rid tk.1 in
  ∃ r1 r2,
    rooms tk.1 !! key_of rid = Some r1 ∧
    tk.2 = [broadcastToRoom rid
              (MsgGameState rid (players r1) (obstacles r1) (Qfloor (score r1)) true)
              tk.1] ∧
    (∀ pk p, players r1 !! pk = Some p → truthy (alive p) = false) ∧
    tk1.2 = [ClearInterval rid; broadcastToRoom rid (MsgGameOver rid) tk1.1] ∧
    rooms tk1.1 !! key_of rid = Some r2 ∧ running r2 = false ∧
    (∀ n, Nat.iter n (fun w' => (gameLoop rid w').1) tk1.1 = tk1.1 ∧
          (gameLoop rid (Nat.iter n (fun w' => (gameLoop rid w').1) tk1.1)).2 = []) ∧
    (∀ evs pre eff post, (run evs tk1.1).2 = pre ++ eff :: post →
       is_gameState (key_of rid) eff → Exists (is_start (key_of rid)) pre).
Proof.
  intros Hk Hrun Halive Hdead tk tk1. subst tk1 tk.
  rewrite (gameLoop_publishes rid w r Hk Hrun Halive) in *. simpl in *.
  set (r1 := (tick_room r (entropy w)).1) in *.
  set (w1 := mkWorld _ _ _ _) in *.
  assert (rooms w1 !! key_of rid = Some r1) as Hk1.
  { subst w1. simpl. by rewrite lookup_insert_eq. }
  assert (running r1 = true) as Hrun1.
  { subst r1. by rewrite tick_room_running. }
  specialize (Hdead r1 Hk1).
  assert (players r1 ≠ ∅) as Hne1.
  { subst r1. rewrite tick_room_players. rewrite fmap_empty_iff.
    by apply playersAlive_nonempty. }
  rewrite (gameLoop_stops rid w1 r1 Hk1 Hrun1 Hdead Hne1). simpl.
  set (r2 := set_running false (tick_room r1 (entropy w1)).1).
  set (w2 := mkWorld _ _ _ _).
  assert (idle (key_of rid) w2) as Hidle.
  { intros r'. subst w2. simpl. rewrite lookup_insert_eq. by intros [= <-]. }
  exists r1, r2. repeat split; try done.
  - by apply playersAlive_zero.
  - subst w2. simpl. by rewrite lookup_insert_eq.
  - induction n as [|n IH]; [done|]. simpl. rewrite IH.
    by rewrite gameLoop_idle.
  - assert (Nat.iter n (fun w' => (gameLoop rid w').1) w2 = w2) as ->.
    { induction n as [|n IH]; [done|]. simpl. rewrite IH. by rewrite gameLoop_idle. }
    by rewrite gameLoop_idle.
  - intros evs pre eff post. by apply gameState_needs_start.
Qed.

Lemma last_death_then_gameOver_witness :
  rooms duel !! "R2" = Some (mkRoom {[ "A" := joined no_fields ]} true 0 0
                               [mkObstacle 0 (Fin 0) (9 # 10) (-1)]) ∧
  (gameLoop (Some "R2") (gameLoop (Some "R2") duel).1).2 =
    [ClearInterval (Some "R2"); Broadcast (MsgGameOver (Some "R2")) [0%nat]].
Proof.
  split; [reflexivity|].
  destruct (last_death_then_gameOver (Some "R2") duel
              (mkRoom {[ "A" := joined no_fields ]} true 0 0
                 [mkObstacle 0 (Fin 0) (9 # 10) (-1)]))
    as (r1 & r2 & _ & _ & _ & Hover & _).
  - reflexivity.
  - reflexivity.
  - vm_compute. discriminate.
  - intros r1 H1. vm_compute in H1. injection H1 as <-. vm_compute. reflexivity.
  - rewrite Hover. vm_compute. reflexivity.
Defined.

(** ** Room invariants preserved by every handler *)

Section RoomInvariant.
Variable P : room -> Prop.
Hypothesis P_empty : P empty_room.
Hypothesis P_players : ∀ r ps, P r -> P (set_players ps r).
Hypothesis P_running : ∀ r b, P r -> P (set_running b r).
Hypothesis P_start : ∀ r os, P r -> P (mkRoom (reset_player <$> players r) true 0 0 os).
Hypothesis P_tick : ∀ r e, P r -> P (tick_room r e).1.

Lemma every_room_insert (k : string) (r : room) (w : world) :
  all_rooms P w -> P r -> all_rooms P (set_room k r w).
Proof.
  intros Hw Hr k' r'. simpl. destruct (decide (k = k')) as [->|Hne].
  - rewrite lookup_insert_eq. by intros [= <-].
  - rewrite lookup_insert_ne by done. apply Hw.
Qed.

Lemma every_room_same_rooms (w w' : world) :
  rooms w' = rooms w -> all_rooms P w -> all_rooms P w'.
Proof. intros Heq Hw k r. rewrite Heq. apply Hw. Qed.

Lemma every_room_ensure (k : string) (w : world) :
  all_rooms P w -> all_rooms P (ensure_room k w).
Proof.
  intros Hw. unfold ensure_room. destruct (rooms w !! k); [done|].
  destruct (inherited k); [done|]. by apply every_room_insert.
Qed.

Lemma every_room_startGame (rid : ident) (w : world) :
  all_rooms P w -> all_rooms P (startGame rid w).1.
Proof.
  intros Hw. destruct (rooms w !! key_of rid) as [r|] eqn:Hk.
  - destruct (running r) eqn:Hrun.
    + by rewrite (startGame_running rid w r).
    + destruct (startGame_lobby rid w r Hk Hrun) as (os & w1 & -> & Hrooms & _).
      simpl. apply every_room_insert.
      * by apply (every_room_same_rooms w).
      * apply P_start. by apply (Hw (key_of rid)).
  - unfold startGame. by rewrite Hk.
Qed.

Lemma every_room_stopGame (rid : ident) (w : world) :
  all_rooms P w -> all_rooms P (stopGame rid w).1.
Proof.
  intros Hw. destruct (stopGame_cases rid w) as [[-> _]|(r & Hk & _ & ->)]; [done|].
  simpl. apply every_room_insert; [done|]. apply P_running. by apply (Hw (key_of rid)).
Qed.

Lemma every_room_gameLoop (rid : ident) (w : world) :
  all_rooms P w -> all_rooms P (gameLoop rid w).1.
Proof.
  intros Hw. unfold gameLoop.
  destruct (rooms w !! key_of rid) as [r|] eqn:Hk; [|done].
  destruct (running r); [|done].
  pose proof (P_tick r (entropy w) (Hw _ _ Hk)) as Htick.
  destruct (tick_room r (entropy w)) as [r1 e1]. simpl in Htick.
  assert (all_rooms P (mkWorld (<[key_of rid := r1]> (rooms w)) (clients w) e1 (uuid w)))
    as Hw1.
  { by apply (every_room_insert (key_of rid) r1 w). }
  destruct (_ && _)%bool; [|done]. by apply every_room_stopGame.
Qed.

Lemma every_room_on_message (c : nat) (raw : option message) (w : world) :
  all_rooms P w -> all_rooms P (on_message c raw w).1.
Proof.
  intros Hw. destruct raw as [m|]; [|done]. simpl.
  pose proof (every_room_ensure (key_of (roomId m)) w Hw) as Hw0.
  set (w0 := ensure_room (key_of (roomId m)) w) in *.
  destruct (rooms w0 !! key_of (roomId m)) as [r|] eqn:Hlook.
  2:{ by destruct (classify (action m)). }
  clearbody w0.
  pose proof (Hw0 _ _ Hlook) as Hr.
  destruct (classify (action m)).
  - destruct (payload m) as [o|]; simpl; [|done].
    destruct (String.eqb _ "__proto__"); [done|]. simpl.
    apply (every_room_insert _ _ (bind_ws c (roomId m) (playerId m) w0)); auto.
  - destruct (merge_player _ _ _) as [ps|]; [|done].
    assert (all_rooms P (set_room (key_of (roomId m)) (set_players ps r) w0)) as Hw1.
    { apply every_room_insert; auto. }
    destruct (_ && _ && _)%bool; [|done].
    pose proof (every_room_startGame (roomId m) _ Hw1) as Hst.
    by destruct (startGame _ _).
  - destruct (players r !! key_of (playerId m)) as [p|]; [|done].
    destruct (truthy (alive p)); [|done].
    destruct (payload m) as [o|]; [|done]. simpl.
    apply every_room_insert; auto.
  - done.
Qed.

Lemma every_room_on_close (c : nat) (w : world) :
  all_rooms P w -> all_rooms P (on_close c w).1.
Proof.
  intros Hw. unfold on_close.
  destruct (clients w !! c) as [k0|]; [|done].
  destruct (_ && _)%bool; [|done]. simpl.
  destruct (rooms w !! key_of (ws_roomId k0)) as [r|] eqn:Hr;
    [|by destruct (inherited _)].
  set (ps := delete _ (players r)).
  set (w0 := mkWorld _ _ _ _).
  assert (all_rooms P (set_room (key_of (ws_roomId k0)) (set_players ps r) w0)) as Hw1.
  { apply every_room_insert; [done|]. apply P_players. by apply (Hw _ _ Hr). }
  destruct (Nat.eqb (size ps) 0); [|done].
  pose proof (every_room_stopGame (ws_roomId k0) _ Hw1) as Hst.
  destruct (stopGame _ _) as [w2 e]. simpl in *.
  intros k r'. simpl. intros Hk. apply lookup_delete_Some in Hk as [_ Hk].
  by apply (Hst k).
Qed.

Lemma every_room_handle (ev : event) (w : world) :
  all_rooms P w -> all_rooms P (handle ev w).1.
Proof.
  intros Hw. destruct ev as [c|c raw|c|rid]; simpl.
  - unfold on_connection. by destruct (clients w !! c).
  - destruct (clients w !! c); [|done]. by apply every_room_on_message.
  - by apply every_room_on_close.
  - by apply every_room_gameLoop.
Qed.

Lemma every_room_reachable (w : world) : reachable w -> all_rooms P w.
Proof.
  induction 1 as [e|ev w _ IH].
  - intros k r. simpl. by rewrite lookup_empty.
  - by apply every_room_handle.
Qed.
End RoomInvariant.

Lemma tick_seconds_pos : 0 < TICK_TIME / 1000.
Proof. reflexivity. Qed.

Lemma reachable_time_nonneg (w : world) (k : string) (r : room) :
  reachable w -> rooms w !! k = Some r -> 0 <= room_t r.
Proof.
  intros Hreach. revert k r.
  apply (every_room_reachable (fun r => 0 <= room_t r)); try done.
  intros r e Hr. rewrite tick_room_time.
  pose proof tick_seconds_pos as Hdt. set (dt := TICK_TIME / 1000) in *. lra.
Qed.

(** ** Obstacles *)

Lemma scaled_floor_range (r : Q) :
  0 <= r -> r < 1 -> (0 <= Qfloor (r * LANE_X_length) < 3)%Z.
Proof.
  intros H0 H1. change LANE_X_length with (3 # 1). split.
  - rewrite <- (Qfloor_Z 0). apply Qfloor_resp_le.
    change (inject_Z 0) with 0. lra.
  - pose proof (Qfloor_le (r * (3 # 1))) as Hle.
    rewrite Zlt_Qlt. change (inject_Z 3) with (3 # 1). lra.
Qed.

Lemma random_lane_in_LANE_X (r : Q) :
  0 <= r -> r < 1 -> ∃ lane, lane ∈ LANE_X ∧ random_lane r = Fin lane.
Proof.
  intros H0 H1. unfold random_lane.
  pose proof (scaled_floor_range r H0 H1) as Hfloor.
  assert (Qfloor (r * LANE_X_length) = 0 ∨ Qfloor (r * LANE_X_length) = 1
          ∨ Qfloor (r * LANE_X_length) = 2)%Z as [H|[H|H]] by lia.
  - rewrite H. exists (-4). split; [|reflexivity]. apply list_elem_of_In. simpl. auto.
  - rewrite H. exists 0. split; [|reflexivity]. apply list_elem_of_In. simpl. auto.
  - rewrite H. exists 4. split; [|reflexivity]. apply list_elem_of_In. simpl. auto.
Qed.

(** The stream left after the obstacle loop is a suffix of the one it was
    given. *)
Lemma step_obstacles_entropy (speed : Q) (os : list obstacle) (e : nat -> Q) :
  ∃ c, ∀ n, (step_obstacles speed os e).2 n = e (c + n)%nat.
Proof.
  induction os as [|o os [c IH]]; simpl.
  - by exists 0%nat.
  - destruct (step_obstacles speed os e) as [rest e1]. simpl in IH.
    unfold step_obstacle. destruct (Qlt_le_dec 6 (o_z o + speed)); simpl.
    + exists (c + 2)%nat. intros n. rewrite IH. f_equal. lia.
    + by exists c.
Qed.

Lemma step_obstacles_length (speed : Q) (os : list obstacle) (e : nat -> Q) :
  length (step_obstacles speed os e).1 = length os.
Proof.
  induction os as [|o os IH]; simpl; [done|].
  destruct (step_obstacles speed os e) as [rest e1]. simpl in IH.
  destruct (step_obstacle speed o e1). simpl. by rewrite IH.
Qed.

(** What the loop does to the obstacle in slot [i]. *)
Lemma step_obstacles_lookup (speed : Q) (os : list obstacle) (e : nat -> Q)
    (i : nat) (o : obstacle) :
  os !! i = Some o ->
  ∃ o', (step_obstacles speed os e).1 !! i = Some o' ∧
        o_id o' = o_id o ∧ o_y o' = o_y o ∧
        ((6 < o_z o + speed ∧
          ∃ n, o_z o' = - (160 + e n * 80) ∧ o_x o' = random_lane (e (S n))) ∨
         (o_z o + speed <= 6 ∧ o_x o' = o_x o ∧ o_z o' = o_z o + speed)).
Proof.
  revert i. induction os as [|o0 os IH]; intros i Hi; [done|].
  simpl. pose proof (step_obstacles_entropy speed os e) as [c Hc].
  destruct (step_obstacles speed os e) as [rest e1]. simpl in *.
  destruct i as [|i]; simpl in Hi.
  - injection Hi as ->. unfold step_obstacle.
    destruct (Qlt_le_dec 6 (o_z o + speed)) as [Hlt|Hle]; simpl.
    + eexists. split; [done|]. simpl. repeat split. left. split; [done|].
      exists c. rewrite !Hc. split; [by rewrite Nat.add_0_r|].
      by rewrite Nat.add_1_r.
    + eexists. split; [done|]. simpl. repeat split. right. done.
  - destruct (IH i Hi) as (o' & Ho' & Hrest).
    destruct (step_obstacle speed o0 e1). simpl. by exists o'.
Qed.

Lemma tick_room_obstacles (r : room) (e : nat -> Q) :
  obstacles (tick_room r e).1 =
  (step_obstacles (speed_at (room_t r + TICK_TIME / 1000)) (obstacles r) e).1.
Proof. unfold tick_room. by destruct (step_obstacles _ _ _). Qed.

(** The room a tick of a running room leaves in the store: the ticked room,
    with [running] cleared when the round was stopped. *)
Lemma gameLoop_room (rid : ident) (w : world) (r : room) :
  rooms w !! key_of rid = Some r -> running r = true ->
  ∃ r', rooms (gameLoop rid w).1 !! key_of rid = Some r' ∧
        (r' = (tick_room r (entropy w)).1 ∨
         r' = set_running false (tick_room r (entropy w)).1).
Proof.
  intros Hk Hrun.
  destruct (decide (playersAlive r = 0%nat)) as [Hzero|Hpos].
  - destruct (decide (players r = ∅)) as [Hempty|Hne].
    + rewrite (gameLoop_empty rid w r Hk Hrun Hempty). simpl.
      rewrite lookup_insert_eq. eauto.
    + rewrite (gameLoop_stops rid w r Hk Hrun Hzero Hne). simpl.
      rewrite lookup_insert_eq. eauto.
  - rewrite (gameLoop_publishes rid w r Hk Hrun Hpos). simpl.
    rewrite lookup_insert_eq. eauto.
Qed.

Lemma reachable_run (evs : list event) (w : world) :
  reachable w -> reachable (run evs w).1.
Proof.
  revert w. induction evs as [|ev evs IH]; intros w Hw; [done|].
  simpl. pose proof (reach_step ev w Hw) as H1.
  destruct (handle ev w) as [w1 e1]. destruct (fatal e1); [done|].
  specialize (IH w1 H1). by destruct (run evs w1).
Qed.

(** The draws the obstacle loop has used: two for each recycled obstacle. *)
Lemma step_obstacles_draws (speed : Q) (os : list obstacle) (e : nat -> Q) (n : nat) :
  (step_obstacles speed os e).2 n =
    e (2 * length (List.filter
                     (fun o => if Qlt_le_dec 6 (o_z o + speed) then true else false)
                     os) + n)%nat.
Proof.
  revert n. induction os as [|o os IH]; intros n; [done|].
  cbn [step_obstacles List.filter].
  destruct (step_obstacles speed os e) as [rest e1]. cbn [snd] in IH.
  unfold step_obstacle. destruct (Qlt_le_dec 6 (o_z o + speed)); cbn [snd length].
  - rewrite IH. f_equal. lia.
  - apply IH.
Qed.

(** What the loop does to the obstacle in slot [i], and with which draws. *)
Lemma step_obstacles_recycle (speed : Q) (os : list obstacle) (e : nat -> Q)
    (i : nat) (o : obstacle) :
  os !! i = Some o ->
  ∃ o', (step_obstacles speed os e).1 !! i = Some o' ∧
        o_id o' = o_id o ∧ o_y o' = o_y o ∧
        ((6 < o_z o + speed ∧
          o_z o' = - (160 + e (2 * recycled_after speed os i)%nat * 80) ∧
          o_x o' = random_lane (e (S (2 * recycled_after speed os i)))) ∨
         (o_z o + speed <= 6 ∧ o_x o' = o_x o ∧ o_z o' = o_z o + speed)).
Proof.
  revert i. induction os as [|o0 os IH]; intros i Hi; [done|].
  cbn [step_obstacles]. pose proof (step_obstacles_draws speed os e) as Hd.
  destruct (step_obstacles speed os e) as [rest e1]. cbn [fst snd] in *.
  destruct i as [|i]; cbn [lookup] in Hi.
  - injection Hi as ->. unfold step_obstacle, recycled_after. cbn [drop].
    destruct (Qlt_le_dec 6 (o_z o + speed)) as [Hlt|Hle]; cbn [fst].
    + eexists. split; [done|]. cbn [o_id o_y o_z o_x]. do 2 (split; [done|]).
      left. split; [done|]. rewrite !Hd, Nat.add_0_r, Nat.add_1_r. done.
    + eexists. split; [done|]. cbn [o_id o_y o_z o_x]. do 2 (split; [done|]).
      right. done.
  - destruct (IH i Hi) as (o' & Ho' & Hrest).
    destruct (step_obstacle speed o0 e1). cbn [fst]. by exists o'.
Qed.

(** The lane a draw picks: lane [j] for the draws of the j-th third of the
    unit interval. *)
Lemma random_lane_spec (u : Q) :
  0 <= u -> u < 1 ->
  ∃ j lane, LANE_X !! j = Some lane ∧ random_lane u = Fin lane ∧
    inject_Z (Z.of_nat j) <= u * LANE_X_length ∧
    u * LANE_X_length < inject_Z (Z.of_nat j) + 1.
Proof.
  intros H0 H1. unfold random_lane.
  pose proof (scaled_floor_range u H0 H1) as Hfloor.
  pose proof (Qfloor_le (u * LANE_X_length)) as Hlo.
  pose proof (Qlt_floor (u * LANE_X_length)) as Hhi.
  rewrite inject_Z_plus in Hhi. change (inject_Z 1) with 1 in Hhi.
  assert (Qfloor (u * LANE_X_length) = 0 ∨ Qfloor (u * LANE_X_length) = 1
          ∨ Qfloor (u * LANE_X_length) = 2)%Z as [H|[H|H]] by lia;
    rewrite H in *.
  - exists 0%nat, (-4). done.
  - exists 1%nat, 0. done.
  - exists 2%nat, 4. done.
Qed.

(** C3. On a tick of a running room every obstacle keeps its slot; its [z]
    advances by the current speed, and when that exceeds 6 the obstacle is
    recycled with the next two draws of [Math.random], the slots behind it
    being served first: the first draw [u] gives [z = -(160 + 80 u)], a
    value in [-240, -160], the second draw [v] gives [x = LANE_X[j]] for the
    [j] with [j <= 3 v < j + 1], so each lane is picked on a third of the
    unit interval; otherwise [x] is kept and [z] does not decrease.  The
    clock of the room is not negative, as in every reachable state
    ([reachable_time_nonneg]). *)
Theorem obstacles_advance_or_recycle (rid : ident) (w : world) (r : room) :
  (∀ n, 0 <= entropy w n < 1) →
  rooms w !! key_of rid = Some r → running r = true → 0 <= room_t r →
  let speed := speed_at (room_t r + TICK_TIME / 1000) in
  ∃ r', rooms (gameLoop rid w).1 !! key_of rid = Some r' ∧
    length (obstacles r') = length (obstacles r) ∧
    ∀ i o, obstacles r !! i = Some o →
      ∃ o', obstacles r' !! i = Some o' ∧ o_id o' = o_id o ∧ o_y o' = o_y o ∧
        ((6 < o_z o + speed ∧
          let n := (2 * recycled_after speed (obstacles r) i)%nat in
          o_z o' = - (160 + entropy w n * 80) ∧
          -240 <= o_z o' ∧ o_z o' <= -160 ∧
          ∃ j lane, LANE_X !! j = Some lane ∧ o_x o' = Fin lane ∧
            inject_Z (Z.of_nat j) <= entropy w (S n) * LANE_X_length ∧
            entropy w (S n) * LANE_X_length < inject_Z (Z.of_nat j) + 1)
         ∨ (o_z o + speed <= 6 ∧ o_x o' = o_x o ∧
            o_z o' = o_z o + speed ∧ o_z o <= o_z o')).
Proof.
  intros Hrand Hk Hrun Ht speed.
  destruct (gameLoop_room rid w r Hk Hrun) as (r' & Hk' & Hr').
  assert (obstacles r' = (step_obstacles speed (obstacles r) (entropy w)).1) as Hobs.
  { destruct Hr' as [-> | ->]; simpl; by rewrite tick_room_obstacles. }
  exists r'. split; [done|]. rewrite Hobs. split.
  { apply step_obstacles_length. }
  intros i o Hi.
  destruct (step_obstacles_recycle speed (obstacles r) (entropy w) i o Hi)
    as (o' & Ho' & Hid & Hy & Hcase).
  exists o'. repeat split; try done.
  destruct Hcase as [(Hlt & Hz & Hx)|(Hle & Hx & Hz)]; [left|right].
  - split; [done|]. cbv zeta.
    set (n := (2 * recycled_after speed (obstacles r) i)%nat) in *.
    destruct (Hrand n) as [Hn0 Hn1]. destruct (Hrand (S n)) as [Hs0 Hs1].
    split; [done|]. split; [rewrite Hz; lra|]. split; [rewrite Hz; lra|].
    destruct (random_lane_spec (entropy w (S n)) Hs0 Hs1)
      as (j & lane & Hj & Hlane & Hlo & Hhi).
    exists j, lane. rewrite Hx. done.
  - repeat split; try done. rewrite Hz.
    assert (1 # 2 <= speed) as Hspeed.
    { apply speed_at_pos.
      pose proof tick_seconds_pos as Hdt. set (dt := TICK_TIME / 1000) in *. lra. }
    lra.
Qed.

Lemma obstacles_advance_or_recycle_witness :
  (∀ n, 0 <= entropy brink n < 1) ∧
  rooms brink !! "R2" = Some (the_room "R2" brink) ∧
  ∃ r' o',
    rooms (gameLoop (Some "R2") brink).1 !! "R2" = Some r' ∧
    obstacles r' !! 0%nat = Some o' ∧
    o_z o' = - (160 + (5 # 10) * 80) ∧
    ∃ j lane, LANE_X !! j = Some lane ∧ o_x o' = Fin lane ∧
      inject_Z (Z.of_nat j) <= (2 # 10) * LANE_X_length ∧
      (2 # 10) * LANE_X_length < inject_Z (Z.of_nat j) + 1.
Proof.
  assert (∀ n, 0 <= entropy brink n < 1) as Hrand.
  { intros n. do 4 (destruct n as [|n];
      [split; vm_compute; [intros H; discriminate H|reflexivity]|]).
    split; vm_compute; [intros H; discriminate H|reflexivity]. }
  assert (rooms brink !! "R2" = Some (the_room "R2" brink)) as Hr
    by (vm_compute; reflexivity).
  split; [exact Hrand|]. split; [exact Hr|].
  destruct (obstacles_advance_or_recycle (Some "R2") brink (the_room "R2" brink)
              Hrand Hr) as (r' & Hr' & _ & Hall).
  - reflexivity.
  - vm_compute. intros H; discriminate H.
  - destruct (Hall 0%nat (mkObstacle 0 (Fin 0) (9 # 10) (59 # 10)))
      as (o' & Ho' & _ & _ & [(_ & Hz & _ & _ & Hx)|(Hle & _)]).
    + reflexivity.
    + exists r', o'. split; [exact Hr'|]. split; [exact Ho'|].
      split; [exact Hz|exact Hx].
    + exfalso. apply Hle. vm_compute. reflexivity.
Defined.

(** ** The input case *)

Lemma apply_input_frame (v : value) (p : player) :
  apply_input v p = set_laneTarget (laneTarget (apply_input v p)) p.
Proof.
  unfold apply_input. destruct (is_string v "left"); [done|].
  destruct (is_string v "right"); [done|]. by destruct p.
Qed.

Lemma apply_input_range (v : value) (p : player) :
  in_lane_range (laneTarget p) -> in_lane_range (laneTarget (apply_input v p)).
Proof.
  unfold apply_input, in_lane_range. change LANE_X_length with (3 # 1).
  destruct (laneTarget p) as [q|] eqn:Hq; [|done]. intros [H0 H2].
  destruct (is_string v "left"); [|destruct (is_string v "right")]; simpl.
  - unfold qmax. destruct (Qlt_le_dec 0 (q - 1)); lra.
  - unfold qmin. destruct (Qlt_le_dec (q + 1) ((3 # 1) - 1)); lra.
  - rewrite Hq. lra.
Qed.

Lemma apply_input_valid (v : value) (p : player) :
  valid_lane (laneTarget p) -> valid_lane (laneTarget (apply_input v p)).
Proof.
  unfold apply_input, valid_lane. change LANE_X_length with (3 # 1).
  destruct (laneTarget p) as [q|] eqn:Hq; [|done]. intros Hv.
  destruct (is_string v "left"); [|destruct (is_string v "right")]; simpl.
  - unfold qmax. destruct (Qlt_le_dec 0 (q - 1)); lra.
  - unfold qmin. destruct (Qlt_le_dec (q + 1) ((3 # 1) - 1)); lra.
  - by rewrite Hq.
Qed.

(** Clamping at the two ends of the lane table. *)
Lemma apply_input_left_at_0 (p : player) (q : Q) :
  laneTarget p = Fin q -> q == 0 ->
  ∃ q', laneTarget (apply_input (VStr "left") p) = Fin q' ∧ q' == 0.
Proof.
  intros Hq H0. unfold apply_input. simpl. rewrite Hq. simpl.
  eexists. split; [done|]. unfold qmax. destruct (Qlt_le_dec 0 (q - 1)); lra.
Qed.

Lemma apply_input_right_at_end (p : player) (q : Q) :
  laneTarget p = Fin q -> q == LANE_X_length - 1 ->
  ∃ q', laneTarget (apply_input (VStr "right") p) = Fin q' ∧ q' == LANE_X_length - 1.
Proof.
  change LANE_X_length with (3 # 1).
  intros Hq H2. unfold apply_input. simpl. rewrite Hq. simpl.
  eexists. split; [done|]. change LANE_X_length with (3 # 1).
  unfold qmin. destruct (Qlt_le_dec (q + 1) ((3 # 1) - 1)); lra.
Qed.

(** What an [input] message does: nothing is sent, no room is started,
    stopped or removed, and at most one player, alive, goes through
    [apply_input]. *)
Lemma on_message_input (c : nat) (m : message) (w : world) :
  classify (action m) = Input ->
  Forall (λ eff, eff = ConsoleError) (on_message c (Some m) w).2 ∧
  clients (on_message c (Some m) w).1 = clients w ∧
  entropy (on_message c (Some m) w).1 = entropy w ∧
  ∀ k r, rooms w !! k = Some r ->
    ∃ r', rooms (on_message c (Some m) w).1 !! k = Some r' ∧
      running r' = running r ∧ obstacles r' = obstacles r ∧
      score r' = score r ∧ room_t r' = room_t r ∧
      ∀ pk p, players r !! pk = Some p ->
        ∃ p', players r' !! pk = Some p' ∧
          (p' = p ∨ (truthy (alive p) = true ∧ ∃ v, p' = apply_input v p)).
Proof.
  intros Hact. simpl. rewrite Hact.
  pose proof (ensure_room_clients (key_of (roomId m)) w) as Hcl.
  pose proof (ensure_room_entropy (key_of (roomId m)) w) as Hen.
  pose proof (λ k, ensure_room_keeps (key_of (roomId m)) k w) as Hkeep.
  set (w0 := ensure_room (key_of (roomId m)) w) in *.
  destruct (rooms w0 !! key_of (roomId m)) as [r0|] eqn:Hlook; clearbody w0.
  2:{ simpl. repeat split; try done; [by repeat constructor|].
      intros k r Hk. exists r. rewrite (Hkeep k r Hk). repeat split; try done.
      intros pk p Hp. exists p. split; [done|by left]. }
  assert (∀ k r, rooms w !! k = Some r ->
            ∃ r', rooms w0 !! k = Some r' ∧
              running r' = running r ∧ obstacles r' = obstacles r ∧
              score r' = score r ∧ room_t r' = room_t r ∧
              ∀ pk p, players r !! pk = Some p ->
                ∃ p', players r' !! pk = Some p' ∧
                  (p' = p ∨ (truthy (alive p) = true ∧ ∃ v, p' = apply_input v p)))
    as Hsame.
  { intros k r Hk. exists r. rewrite (Hkeep k r Hk). repeat split; try done.
    intros pk p Hp. exists p. split; [done|by left]. }
  destruct (players r0 !! key_of (playerId m)) as [p0|] eqn:Hp0; [|by repeat split].
  destruct (truthy (alive p0)) eqn:Halive; [|by repeat split].
  destruct (payload m) as [o|]; [|by repeat split; repeat constructor].
  simpl. repeat split; try done.
  intros k r Hk. destruct (decide (key_of (roomId m) = k)) as [<-|Hne].
  - rewrite lookup_insert_eq. eexists. split; [done|]. simpl.
    specialize (Hkeep _ _ Hk). rewrite Hlook in Hkeep. injection Hkeep as ->.
    repeat split. intros pk p Hp.
    destruct (decide (key_of (playerId m) = pk)) as [<-|Hnp].
    + rewrite lookup_insert_eq. eexists. split; [done|]. right.
      rewrite Hp0 in Hp. injection Hp as <-. split; [done|]. by eexists.
    + rewrite lookup_insert_ne by done. exists p. split; [done|by left].
  - rewrite lookup_insert_ne by done. by apply Hsame.
Qed.

Lemma on_message_input_alive (c : nat) (m : message) (o : object) (w : world)
    (r : room) (p : player) :
  classify (action m) = Input -> payload m = Some o ->
  rooms w !! key_of (roomId m) = Some r ->
  players r !! key_of (playerId m) = Some p -> truthy (alive p) = true ->
  ∃ r', rooms (on_message c (Some m) w).1 !! key_of (roomId m) = Some r' ∧
        players r' !! key_of (playerId m) =
          Some (apply_input (default VUndef (f_rest o !! "input")) p).
Proof.
  intros Hact Hpl Hr Hp Halive. simpl. rewrite Hact.
  destruct (ensure_room_present _ _ _ Hr) as [-> _].
  rewrite Hr, Hp, Halive, Hpl. simpl. rewrite lookup_insert_eq.
  eexists. split; [done|]. simpl. by rewrite lookup_insert_eq.
Qed.

Lemma run_cons (ev : event) (evs : list event) (w : world) :
  fatal (handle ev w).2 = false ->
  run (ev :: evs) w =
    ((run evs (handle ev w).1).1, (handle ev w).2 ++ (run evs (handle ev w).1).2).
Proof.
  cbn [run]. destruct (handle ev w) as [w1 e1]. cbn [fst snd]. intros ->.
  destruct (run evs w1) as [w2 e2]. reflexivity.
Qed.

Lemma run_fatal (ev : event) (evs : list event) (w : world) :
  fatal (handle ev w).2 = true -> run (ev :: evs) w = handle ev w.
Proof.
  cbn [run]. destruct (handle ev w) as [w1 e1]. cbn [fst snd]. by intros ->.
Qed.

(** The trace of one event is harmless when nothing in it is uncaught. *)
Lemma fatal_false (effs : list effect) :
  Forall (λ eff, eff ≠ Uncaught) effs -> fatal effs = false.
Proof.
  induction 1 as [|eff effs Heff _ IH]; [done|]. cbn [fatal existsb].
  fold (fatal effs). rewrite IH. by destruct eff.
Qed.


Lemma handle_input (ev : event) (w : world) :
  input_event ev ->
  Forall (λ eff, eff = ConsoleError) (handle ev w).2 ∧
  ∀ k r, rooms w !! k = Some r ->
    ∃ r', rooms (handle ev w).1 !! k = Some r' ∧
      ∀ pk p, players r !! pk = Some p ->
        ∃ p', players r' !! pk = Some p' ∧
          (p' = p ∨ (truthy (alive p) = true ∧ ∃ v, p' = apply_input v p)).
Proof.
  intros (c & m & -> & Hact). simpl. destruct (clients w !! c) as [k0|].
  - destruct (on_message_input c m w Hact) as (Heff & _ & _ & Hrooms).
    split; [done|]. intros k r Hr.
    destruct (Hrooms k r Hr) as (r' & Hr' & _ & _ & _ & _ & Hps).
    exists r'. split; [exact Hr'|exact Hps].
  - split; [constructor|]. intros k r Hr. exists r. split; [done|].
    intros pk p Hp. exists p. split; [done|by left].
Qed.

Lemma run_inputs (evs : list event) (w : world) :
  Forall input_event evs ->
  Forall (λ eff, eff = ConsoleError) (run evs w).2 ∧
  ∀ k r pk p, rooms w !! k = Some r -> players r !! pk = Some p ->
    ∃ r' p', rooms (run evs w).1 !! k = Some r' ∧ players r' !! pk = Some p' ∧
      p' = set_laneTarget (laneTarget p') p ∧
      (in_lane_range (laneTarget p) -> in_lane_range (laneTarget p')) ∧
      (valid_lane (laneTarget p) -> valid_lane (laneTarget p')).
Proof.
  intros Hevs. revert w. induction Hevs as [|ev evs Hev _ IH]; intros w.
  - simpl. split; [constructor|]. intros k r pk p Hr Hp. exists r, p.
    repeat split; try done. by destruct p.
  - destruct (handle_input ev w Hev) as [Heff Hrooms].
    rewrite run_cons.
    2:{ apply fatal_false. eapply Forall_impl; [exact Heff|]. by intros eff ->. }
    simpl.
    destruct (IH (handle ev w).1) as [Heff2 Hrooms2].
    split; [by apply Forall_app|].
    intros k r pk p Hr Hp.
    destruct (Hrooms k r Hr) as (r1 & Hr1 & Hps).
    destruct (Hps pk p Hp) as (p1 & Hp1 & Hstep).
    destruct (Hrooms2 k r1 pk p1 Hr1 Hp1)
      as (r2 & p2 & Hr2 & Hp2 & Hframe & Hrange & Hvalid).
    exists r2, p2. split; [done|]. split; [done|].
    destruct Hstep as [->|(_ & v & ->)]; [done|].
    repeat split.
    + rewrite Hframe. rewrite (apply_input_frame v p). by destruct p.
    + intros H. by apply Hrange, apply_input_range.
    + intros H. by apply Hvalid, apply_input_valid.
Qed.

(** C4. Whatever sequence of [input] messages is processed, nothing is
    broadcast, every player keeps all its fields but [laneTarget] (so
    [laneCurrent] and [x] are untouched), and a [laneTarget] within
    [0, LANE_X.length - 1] stays there (an index of [LANE_X] stays one);
    an alive player goes through [apply_input], where 'left' at 0 and
    'right' at [LANE_X.length - 1] leave the value where it is.  A player
    starts from index 1, at [join] and at every start of a round. *)
Theorem input_keeps_laneTarget_in_range (evs : list event) (w : world) :
  Forall input_event evs →
  Forall (λ eff, eff = ConsoleError) (run evs w).2 ∧
  (∀ k r pk p, rooms w !! k = Some r → players r !! pk = Some p →
     ∃ r' p', rooms (run evs w).1 !! k = Some r' ∧ players r' !! pk = Some p' ∧
       p' = set_laneTarget (laneTarget p') p ∧
       laneCurrent p' = laneCurrent p ∧ p_x p' = p_x p ∧
       (in_lane_range (laneTarget p) → in_lane_range (laneTarget p')) ∧
       (valid_lane (laneTarget p) → valid_lane (laneTarget p'))) ∧
  (∀ c m o r p,
     classify (action m) = Input → payload m = Some o →
     rooms w !! key_of (roomId m) = Some r →
     players r !! key_of (playerId m) = Some p → truthy (alive p) = true →
     ∃ r', rooms (on_message c (Some m) w).1 !! key_of (roomId m) = Some r' ∧
           players r' !! key_of (playerId m) =
             Some (apply_input (default VUndef (f_rest o !! "input")) p)) ∧
  (∀ p q, laneTarget p = Fin q → q == 0 →
     ∃ q', laneTarget (apply_input (VStr "left") p) = Fin q' ∧ q' == 0) ∧
  (∀ p q, laneTarget p = Fin q → q == LANE_X_length - 1 →
     ∃ q', laneTarget (apply_input (VStr "right") p) = Fin q'
           ∧ q' == LANE_X_length - 1) ∧
  (∀ o p, valid_lane (laneTarget (joined o)) ∧
          valid_lane (laneTarget (reset_player p))).
Proof.
  intros Hevs. destruct (run_inputs evs w Hevs) as [Heff Hrooms].
  split; [done|]. split; [|split; [|split; [|split]]].
  5:{ intros o p. split; simpl; lra. }
  - intros k r pk p Hr Hp.
    destruct (Hrooms k r pk p Hr Hp) as (r' & p' & Hr' & Hp' & Hframe & Hrange & Hvalid).
    exists r', p'. repeat split; try done; by rewrite Hframe.
  - intros c m o r p. apply on_message_input_alive.
  - apply apply_input_left_at_0.
  - apply apply_input_right_at_end.
Qed.

Lemma input_keeps_laneTarget_in_range_witness :
  Forall input_event
    [Message 0 (msg "R1" "A" "input" (Some (input_fields "left")));
     Message 0 (msg "R1" "A" "input" (Some (input_fields "left")))] ∧
  Forall (λ eff, eff = ConsoleError)
    (run [Message 0 (msg "R1" "A" "input" (Some (input_fields "left")));
          Message 0 (msg "R1" "A" "input" (Some (input_fields "left")))] started).2.
Proof.
  assert (Forall input_event
    [Message 0 (msg "R1" "A" "input" (Some (input_fields "left")));
     Message 0 (msg "R1" "A" "input" (Some (input_fields "left")))]) as Hevs.
  { repeat constructor; eexists _, _; (split; [reflexivity|reflexivity]). }
  split; [exact Hevs|].
  exact (proj1 (input_keeps_laneTarget_in_range _ started Hevs)).
Defined.

Example two_lefts_clamp :
  (λ r, laneTarget <$> players r !! "A") <$>
    rooms (run [Message 0 (msg "R1" "A" "input" (Some (input_fields "left")));
                Message 0 (msg "R1" "A" "input" (Some (input_fields "left")))]
             started).1 !! "R1"
  = Some (Some (Fin 0)).
Proof. vm_compute. reflexivity. Qed.

(** ** Dead players *)

Lemma step_player_dead (os : list obstacle) (p : player) :
  truthy (alive p) = false -> step_player os p = p.
Proof. intros Hdead. unfold step_player. by rewrite Hdead. Qed.







(** A tick maps one function over the records; it is the identity on the
    dead. *)
Lemma gameLoop_player_at (rid : ident) (w : world) (k pk : string) :
  ∃ f, player_at k pk (gameLoop rid w).1 = f <$> player_at k pk w ∧
       ∀ p, truthy (alive p) = false -> f p = p.
Proof.
  unfold player_at. destruct (decide (k = key_of rid)) as [->|Hne].
  - destruct (rooms w !! key_of rid) as [r|] eqn:Hr.
    + destruct (running r) eqn:Hrun.
      * destruct (gameLoop_room rid w r Hr Hrun) as (r' & -> & Hcase).
        exists (step_player (obstacles (tick_room r (entropy w)).1)).
        split; [|by intros p; apply step_player_dead]. simpl.
        assert (players r' = players (tick_room r (entropy w)).1) as ->.
        { by destruct Hcase as [-> | ->]. }
        by rewrite tick_room_players, lookup_fmap.
      * exists id. split; [|done]. rewrite gameLoop_idle.
        -- simpl. rewrite Hr. simpl. by rewrite option_fmap_id.
        -- intros r'. rewrite Hr. by intros [= <-].
    + exists id. split; [|done]. rewrite gameLoop_idle; [simpl; by rewrite Hr|].
      intros r'. by rewrite Hr.
  - exists id. split; [|done]. rewrite gameLoop_frame by done.
    by rewrite option_fmap_id.
Qed.








(** ** The join case *)

Lemma on_message_join (c : nat) (m : message) (o : object) (w : world) (r : room) :
  classify (action m) = Join -> payload m = Some o ->
  rooms (ensure_room (key_of (roomId m)) w) !! key_of (roomId m) = Some r ->
  key_of (playerId m) ≠ "__proto__" ->
  let k := key_of (roomId m) in
  let w0 := ensure_room k w in
  let ps := <[key_of (playerId m) := joined o]> (players r) in
  let w2 := set_room k (set_players ps r) (bind_ws c (roomId m) (playerId m) w0) in
  on_message c (Some m) w =
    (w2, [broadcastToRoom (roomId m) (MsgState (roomId m) ps) w2]).
Proof.
  intros Hact Hpl Hr Hpk. simpl. rewrite Hr, Hact, Hpl.
  by rewrite (proj2 (String.eqb_neq _ _) Hpk).
Qed.

Lemma playersAlive_of_alive (r : room) (pk : string) (p : player) :
  players r !! pk = Some p -> truthy (alive p) = true -> playersAlive r ≠ 0%nat.
Proof.
  intros Hp Halive Hzero. rewrite playersAlive_zero in Hzero.
  specialize (Hzero pk p Hp). congruence.
Qed.



(** ** Unvalidated [update] payloads *)

(** C9. An [update] sent during the round overwrites [laneTarget] with 5;
    on the next tick [LANE_X[5]] is [undefined], and the smoothing step
    leaves [NaN] in [laneCurrent] and [x] of a player that is still alive. *)
Theorem update_breaks_lane_lookup :
  array_get LANE_X (Fin 5) = None ∧
  (λ r, (λ p, (truthy (alive p), laneTarget p, laneCurrent p, p_x p))
          <$> players r !! "A") <$>
    rooms (run [Message 0 (msg "R1" "A" "update" (Some (laneTarget_fields 5)));
                Tick (Some "R1")] started).1 !! "R1"
  = Some (Some (true, Fin 5, NaN, NaN)).
Proof. split; vm_compute; reflexivity. Qed.

(** ** Delivery scope *)

(** In the current revision a message without [roomId] is published to the
    sockets that never joined: their [roomId] is [undefined] as well. *)
Example missing_roomId_reaches_unbound_socket :
  (on_message 0 (Some (mkMessage None (Some "A") (Some "update") None))
     (on_connection 0 (initial half))).2
  = [Broadcast (MsgState None ∅) [0%nat]].
Proof. vm_compute. reflexivity. Qed.

(** C8. In the first revision the state of room "R1" is sent to every open
    socket: socket 1, which never sent a message, receives it as well. *)
Theorem first_revision_sends_to_every_socket :
  In (FirstDocument.Send 1 (Some "R1") {[ "A" := FirstDocument.joined no_fields ]})
    (FirstDocument.on_message (msg "R1" "A" "join" (Some no_fields))
       (FirstDocument.mkWorld ∅ {[ 0%nat := true; 1%nat := true ]})).2.
Proof. vm_compute. auto. Qed.

(** ** Room lifecycle in the store *)

Lemma on_close_rooms (c : nat) (w : world) (k0 : conn) (r : room) :
  clients w !! c = Some k0 ->
  ident_truthy (ws_roomId k0) = true -> ident_truthy (ws_playerId k0) = true ->
  rooms w !! key_of (ws_roomId k0) = Some r ->
  let ps := delete (key_of (ws_playerId k0)) (players r) in
  rooms (on_close c w).1 =
    if Nat.eqb (size ps) 0 then delete (key_of (ws_roomId k0)) (rooms w)
    else <[key_of (ws_roomId k0) := set_players ps r]> (rooms w).
Proof.
  intros Hc Hrid Hpid Hr ps. unfold on_close. rewrite Hc, Hrid, Hpid. simpl.
  rewrite Hr. fold ps. destruct (Nat.eqb (size ps) 0); [|done].
  match goal with |- context [stopGame ?rid ?w1] =>
    destruct (stopGame_cases rid w1) as [[-> _]|(r' & _ & _ & ->)] end; simpl.
  - by rewrite delete_insert_eq.
  - by rewrite !delete_insert_eq.
Qed.

(** No message removes a room or a player. *)
Lemma on_message_keeps_players (c : nat) (raw : option message) (w : world)
    (k : string) (r : room) :
  rooms w !! k = Some r ->
  ∃ r', rooms (on_message c raw w).1 !! k = Some r' ∧
        ∀ pk, is_Some (players r !! pk) -> is_Some (players r' !! pk).
Proof.
  intros Hr. destruct raw as [m|]; [|by exists r]. simpl.
  pose proof (ensure_room_keeps (key_of (roomId m)) k w r Hr) as Hkeep.
  set (w0 := ensure_room (key_of (roomId m)) w) in *.
  destruct (rooms w0 !! key_of (roomId m)) as [r0|] eqn:Hlook; clearbody w0.
  2:{ destruct (classify (action m)); by exists r. }
  assert (∀ ps, (∀ pk, is_Some (players r0 !! pk) -> is_Some (ps !! pk)) ->
            ∀ w1, rooms w1 = rooms w0 ->
            ∃ r', rooms (set_room (key_of (roomId m)) (set_players ps r0) w1) !! k = Some r' ∧
                  ∀ pk, is_Some (players r !! pk) -> is_Some (players r' !! pk)) as Hset.
  { intros ps Hps w1 Hw1. simpl. rewrite Hw1.
    destruct (decide (key_of (roomId m) = k)) as [<-|Hne].
    - rewrite lookup_insert_eq. eexists. split; [done|]. simpl.
      rewrite Hlook in Hkeep. injection Hkeep as ->. done.
    - rewrite lookup_insert_ne by done. by exists r. }
  assert (∀ pk0 p0 pk, is_Some (players r0 !! pk) ->
            is_Some (<[pk0 := p0]> (players r0) !! pk)) as Hins.
  { intros pk0 p0 pk Hpk. destruct (decide (pk0 = pk)) as [->|Hne].
    - by rewrite lookup_insert_eq.
    - by rewrite lookup_insert_ne. }
  destruct (classify (action m)).
  - destruct (payload m) as [o|]; simpl; [|by exists r].
    destruct (String.eqb _ "__proto__"); [by exists r|].
    apply (Hset _ (Hins _ _) (bind_ws c (roomId m) (playerId m) w0)). done.
  - destruct (merge_player _ _ _) as [ps|] eqn:Hmerge; [|by exists r].
    assert (∀ pk, is_Some (players r0 !! pk) -> is_Some (ps !! pk)) as Hps.
    { revert Hmerge. unfold merge_player.
      destruct (players r0 !! key_of (playerId m)).
      - intros [= <-]. destruct (payload m); [|done]. apply Hins.
      - destruct (_ && _)%bool; [done|]. by intros [= <-]. }
    destruct (_ && _ && _)%bool eqn:Hcond; [|by apply (Hset ps Hps w0)].
    apply andb_true_iff in Hcond as [Hcond _].
    apply andb_true_iff in Hcond as [_ Hrun]. apply negb_true_iff in Hrun.
    destruct (startGame_lobby (roomId m)
                (set_room (key_of (roomId m)) (set_players ps r0) w0)
                (set_players ps r0)) as (os & w1 & Hst & Hrooms & _).
    { simpl. by rewrite lookup_insert_eq. }
    { done. }
    rewrite Hst. simpl. rewrite Hrooms. simpl.
    destruct (decide (key_of (roomId m) = k)) as [<-|Hne].
    + rewrite lookup_insert_eq. eexists. split; [done|]. simpl.
      rewrite Hlook in Hkeep. injection Hkeep as ->.
      intros pk Hpk. rewrite lookup_fmap. apply fmap_is_Some. by apply Hps.
    + rewrite !lookup_insert_ne by done. by exists r.
  - destruct (players r0 !! key_of (playerId m)) as [p|]; [|by exists r].
    destruct (truthy (alive p)); [|by exists r].
    destruct (payload m) as [o|]; [|by exists r]. simpl.
    by apply (Hset _ (Hins _ _) w0).
  - by exists r.
Qed.

(** C6, as the code has it. A decoded message whose [roomId] does not name
    a builtin of [Object.prototype] leaves its room in the store, created
    empty when it was absent, and only a [join] with a payload puts a player
    into it; under the name of a builtin no room is created.  An
    unrecognized action does nothing else.  No message removes a room or a
    player.  When a socket bound to a truthy [(roomId, playerId)] closes,
    its room stays in the store only with a non-empty roster, and it is
    removed by the same handler run when the departing player was the last
    one.  The state is one in which no prototype has been written. *)
Theorem rooms_created_on_reference_removed_on_last_close (w : world) :
  pristine w →
  (∀ c m, inherited (key_of (roomId m)) = false →
     ∃ r',
     rooms (on_message c (Some m) w).1 !! key_of (roomId m) = Some r' ∧
     (rooms w !! key_of (roomId m) = None →
      players r' = ∅ ∨
      (classify (action m) = Join ∧
       ∃ o, payload m = Some o ∧
            players r' = {[ key_of (playerId m) := joined o ]}))) ∧
  (∀ c m, inherited (key_of (roomId m)) = true →
     rooms w !! key_of (roomId m) = None →
     rooms (on_message c (Some m) w).1 = rooms w) ∧
  (∀ c m, classify (action m) = Other →
     on_message c (Some m) w = (ensure_room (key_of (roomId m)) w, [])) ∧
  (∀ c raw k r, rooms w !! k = Some r →
     ∃ r', rooms (on_message c raw w).1 !! k = Some r' ∧
           ∀ pk, is_Some (players r !! pk) → is_Some (players r' !! pk)) ∧
  (∀ c k0,
     clients w !! c = Some k0 →
     ident_truthy (ws_roomId k0) = true → ident_truthy (ws_playerId k0) = true →
     (∀ r', rooms (on_close c w).1 !! key_of (ws_roomId k0) = Some r' →
            players r' ≠ ∅) ∧
     (∀ r, rooms w !! key_of (ws_roomId k0) = Some r →
           delete (key_of (ws_playerId k0)) (players r) = ∅ →
           rooms (on_close c w).1 !! key_of (ws_roomId k0) = None) ∧
     (∀ r, rooms w !! key_of (ws_roomId k0) = Some r →
           delete (key_of (ws_playerId k0)) (players r) ≠ ∅ →
           ∃ r', rooms (on_close c w).1 !! key_of (ws_roomId k0) = Some r' ∧
                 players r' = delete (key_of (ws_playerId k0)) (players r)) ∧
     (∀ k, k ≠ key_of (ws_roomId k0) →
           rooms (on_close c w).1 !! k = rooms w !! k)).
Proof.
  intros _. split; [|split; [|split; [|split]]].
  - intros c m Hown. simpl.
    destruct (ensure_room_cases (key_of (roomId m)) w)
      as [(r0 & Hlook & Hcase)|(_ & _ & Hin & _)]; [|congruence].
    assert (rooms w !! key_of (roomId m) = None → players r0 = ∅) as Hfresh.
    { intros Hnone. destruct Hcase as [[Hr _]|(_ & _ & -> & _)]; [congruence|done]. }
    clear Hcase.
    set (w0 := ensure_room (key_of (roomId m)) w) in *. rewrite Hlook.
    clearbody w0.
    destruct (classify (action m)) eqn:Hact.
    + destruct (payload m) as [o|] eqn:Hpl; simpl.
      * destruct (String.eqb _ "__proto__"); simpl.
        -- exists r0. split; [done|]. intros Hnone. left. auto.
        -- rewrite lookup_insert_eq. eexists. split; [done|]. intros Hnone. right.
           split; [done|]. exists o. split; [done|]. simpl.
           by rewrite (Hfresh Hnone).
      * exists r0. split; [done|]. intros Hnone. left. auto.
    + destruct (merge_player _ _ _) as [ps|] eqn:Hmerge.
      2:{ exists r0. split; [done|]. intros Hnone. left. auto. }
      assert (rooms w !! key_of (roomId m) = None -> ps = ∅) as Hps.
      { intros Hnone. revert Hmerge. unfold merge_player.
        rewrite (Hfresh Hnone), lookup_empty.
        destruct (_ && _)%bool; [done|]. by intros [= <-]. }
      destruct (_ && _ && _)%bool eqn:Hcond.
      * apply andb_true_iff in Hcond as [Hcond Hsize].
        apply andb_true_iff in Hcond as [_ Hrun]. apply negb_true_iff in Hrun.
        destruct (startGame_lobby (roomId m)
                    (set_room (key_of (roomId m)) (set_players ps r0) w0)
                    (set_players ps r0)) as (os & w1 & Hst & _).
        { simpl. by rewrite lookup_insert_eq. }
        { done. }
        rewrite Hst. simpl. rewrite lookup_insert_eq. eexists. split; [done|].
        intros Hnone. left. simpl. rewrite (Hps Hnone). apply fmap_empty.
      * simpl. rewrite lookup_insert_eq. eexists. split; [done|].
        intros Hnone. left. simpl. by apply Hps.
    + destruct (players r0 !! key_of (playerId m)) as [p|] eqn:Hp.
      2:{ exists r0. split; [done|]. intros; left; auto. }
      destruct (truthy (alive p)).
      2:{ exists r0. split; [done|]. intros; left; auto. }
      destruct (payload m) as [o|].
      2:{ exists r0. split; [done|]. intros; left; auto. }
      simpl. rewrite lookup_insert_eq. eexists. split; [done|].
      intros Hnone. exfalso. rewrite (Hfresh Hnone) in Hp.
      by rewrite lookup_empty in Hp.
    + exists r0. split; [done|]. intros Hnone. left. auto.
  - intros c m Hin Hnone. simpl.
    rewrite (ensure_room_builtin _ _ Hnone Hin), Hnone.
    by destruct (classify (action m)).
  - intros c m Hact. simpl. rewrite Hact.
    by destruct (rooms (ensure_room _ w) !! _).
  - intros c raw k r. apply on_message_keeps_players.
  - intros c k0 Hc Hrid Hpid.
    destruct (rooms w !! key_of (ws_roomId k0)) as [r|] eqn:Hr.
    + pose proof (on_close_rooms c w k0 r Hc Hrid Hpid Hr) as Hrooms.
      simpl in Hrooms. rewrite Hrooms.
      destruct (Nat.eqb (size (delete (key_of (ws_playerId k0)) (players r))) 0)
        eqn:Hsize.
      * apply Nat.eqb_eq, map_size_empty_iff in Hsize. repeat split.
        -- intros r'. by rewrite lookup_delete_eq.
        -- intros r1 [= <-] _. by rewrite lookup_delete_eq.
        -- intros r1 [= <-] Hne. done.
        -- intros k Hne. by rewrite lookup_delete_ne.
      * apply Nat.eqb_neq in Hsize. rewrite map_size_empty_iff in Hsize.
        repeat split.
        -- intros r'. rewrite lookup_insert_eq. by intros [= <-].
        -- intros r1 [= <-] Hempty. done.
        -- intros r1 [= <-] _. rewrite lookup_insert_eq. by eexists.
        -- intros k Hne. by rewrite lookup_insert_ne.
    + assert (rooms (on_close c w).1 = rooms w) as ->.
      { unfold on_close. rewrite Hc, Hrid, Hpid. simpl. rewrite Hr.
        by destruct (inherited _). }
      rewrite Hr. repeat split; try done.
Qed.

Lemma rooms_created_on_reference_removed_on_last_close_witness :
  pristine lobby ∧
  clients lobby !! 0%nat = Some (mkConn true (Some "R1") (Some "A")) ∧
  rooms lobby !! "R1" = Some (the_room "R1" lobby) ∧
  rooms (on_close 0 lobby).1 !! "R1" = None.
Proof.
  assert (clients lobby !! 0%nat = Some (mkConn true (Some "R1") (Some "A"))) as Hc
    by (vm_compute; reflexivity).
  assert (rooms lobby !! "R1" = Some (the_room "R1" lobby)) as Hr
    by (vm_compute; reflexivity).
  split; [exact pristine_lobby|]. split; [exact Hc|]. split; [exact Hr|].
  destruct (rooms_created_on_reference_removed_on_last_close lobby pristine_lobby)
    as (_ & _ & _ & _ & Hclose).
  destruct (Hclose 0%nat _ Hc) as (_ & Hlast & _).
  - reflexivity.
  - reflexivity.
  - apply (Hlast _ Hr). vm_compute. reflexivity.
Defined.

(** C6, as stated, fails: an unrecognized action naming a new room leaves a
    room without players in the store. *)
Lemma unrecognized_action_leaves_empty_room :
  let w := on_connection 0 (initial half) in
  let res := on_message 0 (Some (mkMessage (Some "R9") (Some "A") (Some "ping") None)) w in
  rooms w !! "R9" = None ∧ res.2 = [] ∧
  rooms res.1 !! "R9" = Some empty_room ∧ players empty_room = ∅.
Proof. repeat split; vm_compute; reflexivity. Qed.

(** ** Messages whose handling throws *)

Lemma bind_ws_other (c c' : nat) (rid pid : ident) (w : world) :
  c' ≠ c -> clients (bind_ws c rid pid w) !! c' = clients w !! c'.
Proof. intros Hne. simpl. by rewrite lookup_alter_ne. Qed.

(** C7, as the code has it. When the handler ends in its [catch] (the error
    is logged), nothing is broadcast and no player entry is created or
    changed.  An undecodable message, and an [input] whose payload is
    missing, leave the whole state as it was; a [join] whose payload is
    missing has by then created its room, empty and not running, if it was
    absent, and bound the sending socket to [(roomId, playerId)].  The same
    holds when [roomId] names a builtin of [Object.prototype]: the [join],
    with or without payload, has bound the socket, the [update] and the
    [input] have changed nothing, and no room was created.  No other room
    and no other socket changes.  No prototype has been written before, and
    a handler that writes to one is not followed: it has no [catch] here. *)
Theorem malformed_message_is_contained (c : nat) (raw : option message) (w : world) :
  pristine w →
  In ConsoleError (on_message c raw w).2 →
  (on_message c raw w).2 = [ConsoleError] ∧
  ((raw = None ∧ (on_message c raw w).1 = w) ∨
   (∃ m, raw = Some m ∧
      ((payload m = None ∧ classify (action m) = Join ∧
        (on_message c raw w).1 =
          bind_ws c (roomId m) (playerId m) (ensure_room (key_of (roomId m)) w)) ∨
       (payload m = None ∧ classify (action m) = Input ∧
        (on_message c raw w).1 = w) ∨
       (rooms w !! key_of (roomId m) = None ∧
        inherited (key_of (roomId m)) = true ∧
        ((classify (action m) = Join ∧
          (on_message c raw w).1 = bind_ws c (roomId m) (playerId m) w) ∨
         ((classify (action m) = Update ∨ classify (action m) = Input) ∧
          (on_message c raw w).1 = w)))))) ∧
  (∀ k r, rooms w !! k = Some r → rooms (on_message c raw w).1 !! k = Some r) ∧
  (∀ k r', rooms (on_message c raw w).1 !! k = Some r' → rooms w !! k = None →
     r' = empty_room) ∧
  (∀ c', c' ≠ c → clients (on_message c raw w).1 !! c' = clients w !! c') ∧
  entropy (on_message c raw w).1 = entropy w.
Proof.
  intros _ Hthrow.
  assert ((on_message c raw w).2 = [ConsoleError] ∧
    ((raw = None ∧ (on_message c raw w).1 = w) ∨
     (∃ m, raw = Some m ∧
        ((payload m = None ∧ classify (action m) = Join ∧
          (on_message c raw w).1 =
            bind_ws c (roomId m) (playerId m) (ensure_room (key_of (roomId m)) w)) ∨
         (payload m = None ∧ classify (action m) = Input ∧
          (on_message c raw w).1 = w) ∨
         (rooms w !! key_of (roomId m) = None ∧
          inherited (key_of (roomId m)) = true ∧
          ((classify (action m) = Join ∧
            (on_message c raw w).1 = bind_ws c (roomId m) (playerId m) w) ∨
           ((classify (action m) = Update ∨ classify (action m) = Input) ∧
            (on_message c raw w).1 = w))))))) as [Heff Hcase].
  { destruct raw as [m|]; [|split; [done|by left]].
    revert Hthrow. simpl.
    destruct (ensure_room_cases (key_of (roomId m)) w)
      as [(r & Hlook & Hcase)|(Hlook & Hnone & Hin & Heq)]; rewrite Hlook.
    2:{ rewrite Heq. destruct (classify (action m)) eqn:Hact; simpl.
        - intros _. split; [done|]. right. exists m. split; [done|].
          right. right. auto.
        - intros _. split; [done|]. right. exists m. split; [done|].
          right. right. auto 6.
        - intros _. split; [done|]. right. exists m. split; [done|].
          right. right. auto 6.
        - by intros []. }
    destruct (classify (action m)) eqn:Hact.
    - destruct (payload m) as [o|] eqn:Hpl; simpl.
      + destruct (String.eqb _ "__proto__"); simpl.
        * intros [H|[]]. discriminate H.
        * intros [H|[]]. discriminate H.
      + intros _. split; [done|]. right. exists m. split; [done|]. left. done.
    - destruct (merge_player _ _ _) as [ps|]; simpl.
      2:{ intros [H|[]]. discriminate H. }
      destruct (_ && _ && _)%bool.
      + pose proof (startGame_effects (roomId m)
                      (set_room (key_of (roomId m)) (set_players ps r)
                         (ensure_room (key_of (roomId m)) w))) as Hst.
        destruct (startGame _ _) as [w2 e2]. simpl in *.
        intros [H|Hin]; [discriminate H|]. exfalso.
        rewrite Forall_forall in Hst.
        specialize (Hst _ (proj2 (list_elem_of_In _ _) Hin)). discriminate Hst.
      + simpl. intros [H|[]]. discriminate H.
    - destruct (players r !! key_of (playerId m)) as [p|] eqn:Hp; [|by intros []].
      destruct (truthy (alive p)); [|by intros []].
      destruct (payload m) as [o|] eqn:Hpl; [by intros []|].
      intros _. split; [done|]. right. exists m. split; [done|].
      right. left. split; [done|]. split; [done|]. simpl.
      destruct Hcase as [[_ ->]|(Hnone & _ & -> & _)]; [done|].
      exfalso. simpl in Hp. by rewrite lookup_empty in Hp.
    - by intros []. }
  split; [done|]. split; [done|].
  assert (∀ m, (∀ k r, rooms w !! k = Some r →
                 rooms (bind_ws c (roomId m) (playerId m)
                          (ensure_room (key_of (roomId m)) w)) !! k = Some r) ∧
               (∀ k r', rooms (bind_ws c (roomId m) (playerId m)
                          (ensure_room (key_of (roomId m)) w)) !! k = Some r' →
                  rooms w !! k = None → r' = empty_room) ∧
               (∀ c', c' ≠ c →
                  clients (bind_ws c (roomId m) (playerId m)
                             (ensure_room (key_of (roomId m)) w)) !! c'
                  = clients w !! c') ∧
               entropy (bind_ws c (roomId m) (playerId m)
                          (ensure_room (key_of (roomId m)) w)) = entropy w) as Hbind.
  { intros m. repeat split.
    - intros k r Hr. simpl. by apply ensure_room_keeps.
    - intros k r'. simpl. intros Hr' Hnone.
      destruct (ensure_room_cases (key_of (roomId m)) w)
        as [(r & Hlook & [[_ Heq]|(_ & _ & -> & Heq)])|(_ & _ & _ & Heq)];
        rewrite Heq in Hr'; [congruence| |congruence].
      simpl in Hr'. destruct (decide (key_of (roomId m) = k)) as [<-|Hne].
      + rewrite lookup_insert_eq in Hr'. by injection Hr' as <-.
      + rewrite lookup_insert_ne in Hr' by done. congruence.
    - intros c' Hne. rewrite bind_ws_other by done. by rewrite ensure_room_clients.
    - simpl. apply ensure_room_entropy. }
  destruct Hcase as [[-> ->]|(m & -> & [(Hpl & Hact & ->)|[(Hpl & Hact & ->)|
    (Hnone & Hin & [(Hact & ->)|(Hact & ->)])]])].
  - repeat split; try done. intros k r' H1 H2. congruence.
  - apply Hbind.
  - repeat split; try done. intros k r' H1 H2. congruence.
  - pose proof (Hbind m) as Hm. rewrite (ensure_room_builtin _ _ Hnone Hin) in Hm.
    exact Hm.
  - repeat split; try done. intros k r' H1 H2. congruence.
Qed.

Lemma malformed_message_is_contained_witness :
  pristine (on_connection 0 (initial half)) ∧
  In ConsoleError
    (on_message 0 (Some (mkMessage (Some "R1") (Some "A") (Some "join") None))
       (on_connection 0 (initial half))).2 ∧
  (on_message 0 (Some (mkMessage (Some "R1") (Some "A") (Some "join") None))
     (on_connection 0 (initial half))).2 = [ConsoleError].
Proof.
  assert (In ConsoleError
    (on_message 0 (Some (mkMessage (Some "R1") (Some "A") (Some "join") None))
       (on_connection 0 (initial half))).2) as Hthrow.
  { left. reflexivity. }
  split; [exact pristine_connected|]. split; [exact Hthrow|].
  exact (proj1 (malformed_message_is_contained _ _ _ pristine_connected Hthrow)).
Defined.

(** C7, as stated, fails: a [join] without payload is caught, yet the room
    has been created and the socket bound. *)
Lemma join_without_payload_changes_state :
  let w := on_connection 0 (initial half) in
  let res := on_message 0 (Some (mkMessage (Some "R1") (Some "A") (Some "join") None)) w in
  res.2 = [ConsoleError] ∧
  rooms w !! "R1" = None ∧ rooms res.1 !! "R1" = Some empty_room ∧
  clients w !! 0%nat = Some (mkConn true None None) ∧
  clients res.1 !! 0%nat = Some (mkConn true (Some "R1") (Some "A")).
Proof. repeat split; vm_compute; reflexivity. Qed.

(** ** Names inherited from [Object.prototype] *)

Lemma own_keys_set_room (k : string) (r r' : room) (w : world) :
  own_keys w -> rooms w !! k = Some r -> own_keys (set_room k r' w).
Proof.
  intros Hw Hr k' r''. simpl. destruct (decide (k = k')) as [<-|Hne].
  - intros _. by apply (Hw k r).
  - rewrite lookup_insert_ne by done. apply Hw.
Qed.

Lemma own_keys_same_rooms (w w' : world) :
  rooms w' = rooms w -> own_keys w -> own_keys w'.
Proof. intros Heq Hw k r. rewrite Heq. apply Hw. Qed.

Lemma own_keys_ensure (k : string) (w : world) :
  own_keys w -> own_keys (ensure_room k w).
Proof.
  intros Hw. unfold ensure_room. destruct (rooms w !! k); [done|].
  destruct (inherited k) eqn:Hin; [done|].
  intros k' r'. simpl. destruct (decide (k = k')) as [<-|Hne].
  - done.
  - rewrite lookup_insert_ne by done. apply Hw.
Qed.

Lemma own_keys_startGame (rid : ident) (w : world) :
  own_keys w -> own_keys (startGame rid w).1.
Proof.
  intros Hw. destruct (rooms w !! key_of rid) as [r|] eqn:Hk.
  - destruct (running r) eqn:Hrun.
    + by rewrite (startGame_running rid w r).
    + destruct (startGame_lobby rid w r Hk Hrun) as (os & w1 & -> & Hrooms & _).
      simpl. apply (own_keys_set_room _ r).
      * by apply (own_keys_same_rooms w).
      * by rewrite Hrooms.
  - unfold startGame. by rewrite Hk.
Qed.

Lemma own_keys_stopGame (rid : ident) (w : world) :
  own_keys w -> own_keys (stopGame rid w).1.
Proof.
  intros Hw. destruct (stopGame_cases rid w) as [[-> _]|(r & Hk & _ & ->)]; [done|].
  simpl. by apply (own_keys_set_room _ r).
Qed.

Lemma own_keys_gameLoop (rid : ident) (w : world) :
  own_keys w -> own_keys (gameLoop rid w).1.
Proof.
  intros Hw. unfold gameLoop.
  destruct (rooms w !! key_of rid) as [r|] eqn:Hk; [|done].
  destruct (running r); [|done].
  destruct (tick_room r (entropy w)) as [r1 e1].
  assert (own_keys (mkWorld (<[key_of rid := r1]> (rooms w)) (clients w) e1 (uuid w)))
    as Hw1.
  { by apply (own_keys_set_room (key_of rid) r r1
                (mkWorld (rooms w) (clients w) e1 (uuid w))). }
  destruct (_ && _)%bool; [|done]. by apply own_keys_stopGame.
Qed.

Lemma own_keys_on_message (c : nat) (raw : option message) (w : world) :
  own_keys w -> own_keys (on_message c raw w).1.
Proof.
  intros Hw. destruct raw as [m|]; [|done]. simpl.
  pose proof (own_keys_ensure (key_of (roomId m)) w Hw) as Hw0.
  set (w0 := ensure_room (key_of (roomId m)) w) in *.
  destruct (rooms w0 !! key_of (roomId m)) as [r|] eqn:Hlook; clearbody w0.
  2:{ by destruct (classify (action m)). }
  destruct (classify (action m)).
  - destruct (payload m) as [o|]; simpl; [|done].
    destruct (String.eqb _ "__proto__"); [done|]. simpl.
    by apply (own_keys_set_room _ r _ (bind_ws c (roomId m) (playerId m) w0)).
  - destruct (merge_player _ _ _) as [ps|]; [|done].
    assert (own_keys (set_room (key_of (roomId m)) (set_players ps r) w0)) as Hw1.
    { by apply (own_keys_set_room _ r). }
    destruct (_ && _ && _)%bool; [|done].
    pose proof (own_keys_startGame (roomId m) _ Hw1) as Hst.
    by destruct (startGame _ _).
  - destruct (players r !! key_of (playerId m)) as [p|]; [|done].
    destruct (truthy (alive p)); [|done].
    destruct (payload m) as [o|]; [|done]. simpl.
    by apply (own_keys_set_room _ r).
  - done.
Qed.

Lemma own_keys_on_close (c : nat) (w : world) :
  own_keys w -> own_keys (on_close c w).1.
Proof.
  intros Hw. unfold on_close.
  destruct (clients w !! c) as [k0|]; [|done].
  destruct (_ && _)%bool; [|done]. simpl.
  destruct (rooms w !! key_of (ws_roomId k0)) as [r|] eqn:Hr;
    [|by destruct (inherited _)].
  set (ps := delete _ (players r)).
  set (w0 := mkWorld _ _ _ _).
  assert (own_keys (set_room (key_of (ws_roomId k0)) (set_players ps r) w0)) as Hw1.
  { by apply (own_keys_set_room _ r). }
  destruct (Nat.eqb (size ps) 0); [|done].
  pose proof (own_keys_stopGame (ws_roomId k0) _ Hw1) as Hst.
  destruct (stopGame _ _) as [w2 e]. simpl in *.
  intros k r'. simpl. intros Hk. apply lookup_delete_Some in Hk as [_ Hk].
  by apply (Hst k r').
Qed.

(** Line 204 is the only place that adds a key to [rooms], and it is guarded
    by [!rooms[roomId]]. *)
Lemma stored_keys_are_own (w : world) : reachable w -> own_keys w.
Proof.
  induction 1 as [e|ev w _ IH].
  - intros k r. simpl. by rewrite lookup_empty.
  - destruct ev as [c|c raw|c|rid]; simpl.
    + unfold on_connection. by destruct (clients w !! c).
    + destruct (clients w !! c); [|done]. by apply own_keys_on_message.
    + by apply own_keys_on_close.
    + by apply own_keys_gameLoop.
Qed.

Lemma inherited_truthy (i : ident) : inherited (key_of i) = true -> ident_truthy i = true.
Proof. destruct i as [s|]; [|done]. simpl. by destruct (String.eqb_spec s ""); subst. Qed.

(** X9. In a state where no prototype has been written, a [roomId] that
    names a builtin of [Object.prototype] names no stored room: the handler
    finds the builtin where it expects the room, creates nothing, and every
    [join], [update] or [input] throws on [room.players] and is logged; the
    [join] has bound the socket by then.  When a socket bound that way, with
    a truthy [playerId], closes, the close handler throws outside any [try]:
    the exception is uncaught and no later event is handled. *)
Theorem builtin_room_id_ends_the_process
    (c : nat) (m : message) (w : world) (k0 : conn) (evs : list event) :
  pristine w → clients w !! c = Some k0 →
  inherited (key_of (roomId m)) = true →
  (classify (action m) = Other → on_message c (Some m) w = (w, [])) ∧
  (classify (action m) ≠ Other →
   (on_message c (Some m) w).2 = [ConsoleError] ∧
   rooms (on_message c (Some m) w).1 = rooms w) ∧
  (classify (action m) = Join → ident_truthy (playerId m) = true →
   on_message c (Some m) w = (bind_ws c (roomId m) (playerId m) w, [ConsoleError]) ∧
   (on_close c (bind_ws c (roomId m) (playerId m) w)).2 = [Uncaught] ∧
   rooms (on_close c (bind_ws c (roomId m) (playerId m) w)).1 = rooms w ∧
   (run (Message c (Some m) :: Close c :: evs) w).2 = [ConsoleError; Uncaught]).
Proof.
  intros Hw Hc Hin.
  assert (rooms w !! key_of (roomId m) = None) as Hnone.
  { destruct (rooms w !! key_of (roomId m)) as [r|] eqn:Hr; [|done].
    pose proof (stored_keys_are_own w (pristine_reachable w Hw) _ _ Hr). congruence. }
  assert (on_message c (Some m) w =
            match classify (action m) with
            | Join => (bind_ws c (roomId m) (playerId m) w, [ConsoleError])
            | Update | Input => (w, [ConsoleError])
            | Other => (w, [])
            end) as Hmsg.
  { simpl. rewrite (ensure_room_builtin _ _ Hnone Hin), Hnone. done. }
  split; [|split].
  - intros Hact. by rewrite Hmsg, Hact.
  - intros Hact. rewrite Hmsg. by destruct (classify (action m)).
  - intros Hact Hpid. rewrite Hmsg, Hact.
    assert (on_close c (bind_ws c (roomId m) (playerId m) w) =
              (mkWorld (rooms w) (delete c (alter (fun k => mkConn (ws_open k) (roomId m)
                                                     (playerId m)) c (clients w)))
                 (entropy w) (uuid w), [Uncaught])) as Hclose.
    { unfold on_close. simpl. rewrite lookup_alter_eq, Hc. simpl.
      rewrite (inherited_truthy _ Hin), Hpid. simpl. by rewrite Hnone, Hin. }
    split; [done|]. rewrite Hclose. split; [done|]. split; [done|].
    cbn [run handle]. rewrite Hc, Hmsg, Hact. cbn [fatal existsb].
    rewrite Hclose. done.
Qed.

Lemma builtin_room_id_ends_the_process_witness :
  pristine (on_connection 0 (initial half)) ∧
  clients (on_connection 0 (initial half)) !! 0%nat = Some (mkConn true None None) ∧
  inherited "constructor" = true ∧
  (run [Message 0 (msg "constructor" "A" "join" (Some no_fields)); Close 0;
        Connect 1; Message 1 (msg "R1" "B" "join" (Some no_fields))]
     (on_connection 0 (initial half))).2
  = [ConsoleError; Uncaught].
Proof.
  assert (clients (on_connection 0 (initial half)) !! 0%nat
          = Some (mkConn true None None)) as Hc by (vm_compute; reflexivity).
  split; [exact pristine_connected|]. split; [exact Hc|]. split; [reflexivity|].
  destruct (builtin_room_id_ends_the_process 0
              (mkMessage (Some "constructor") (Some "A") (Some "join") (Some no_fields))
              (on_connection 0 (initial half)) _
              [Connect 1; Message 1 (msg "R1" "B" "join" (Some no_fields))]
              pristine_connected Hc)
    as (_ & _ & Hjoin).
  - reflexivity.
  - destruct Hjoin as (_ & _ & _ & Hrun); [reflexivity|reflexivity|].
    exact Hrun.
Defined.

(** ** Delivery scope of the current revision *)

Lemma stopGame_scoped (rid : ident) (w : world) :
  Forall (scoped (clients (stopGame rid w).1)) (stopGame rid w).2.
Proof.
  destruct (stopGame_cases rid w) as [[-> _]|(r & _ & _ & ->)];
    repeat constructor.
Qed.

Lemma gameLoop_scoped (rid : ident) (w : world) :
  Forall (scoped (clients (gameLoop rid w).1)) (gameLoop rid w).2.
Proof.
  unfold gameLoop. destruct (rooms w !! key_of rid) as [r|]; [|constructor].
  destruct (running r); [|constructor].
  destruct (tick_room r (entropy w)) as [r1 e1].
  destruct (_ && _)%bool; [apply stopGame_scoped|]. by repeat constructor.
Qed.

Lemma on_message_scoped (c : nat) (raw : option message) (w : world) :
  Forall (scoped (clients (on_message c raw w).1)) (on_message c raw w).2.
Proof.
  destruct raw as [m|]; [|by repeat constructor]. simpl.
  set (w0 := ensure_room (key_of (roomId m)) w).
  destruct (rooms w0 !! key_of (roomId m)) as [r|].
  2:{ destruct (classify (action m)); by repeat constructor. }
  destruct (classify (action m)).
  - destruct (payload m); [|by repeat constructor].
    destruct (String.eqb _ "__proto__"); by repeat constructor.
  - destruct (merge_player _ _ _) as [ps|]; [|by repeat constructor].
    destruct (_ && _ && _)%bool; [|by repeat constructor].
    pose proof (startGame_clients (roomId m)
                  (set_room (key_of (roomId m)) (set_players ps r) w0)) as Hcl.
    pose proof (startGame_effects (roomId m)
                  (set_room (key_of (roomId m)) (set_players ps r) w0)) as Heff.
    destruct (startGame _ _) as [w2 e2]. simpl in *. constructor.
    + simpl. by rewrite Hcl.
    + eapply Forall_impl; [exact Heff|]. by intros eff ->.
  - destruct (players r !! key_of (playerId m)) as [p|]; [|constructor].
    destruct (truthy (alive p)); [|constructor].
    destruct (payload m); by repeat constructor.
  - constructor.
Qed.

Lemma on_close_scoped (c : nat) (w : world) :
  Forall (scoped (clients (on_close c w).1)) (on_close c w).2.
Proof.
  unfold on_close. destruct (clients w !! c) as [k0|]; [|constructor].
  destruct (_ && _)%bool; [|constructor]. simpl.
  destruct (rooms w !! key_of (ws_roomId k0)) as [r|];
    [|destruct (inherited _); by repeat constructor].
  destruct (Nat.eqb _ 0); [|by repeat constructor].
  match goal with |- context [stopGame ?rid ?w1] =>
    pose proof (stopGame_scoped rid w1) as Hst; destruct (stopGame rid w1) end.
  done.
Qed.

(** X1. In the current revision every message a handler or a tick publishes
    goes to exactly the open sockets whose [roomId] is the room the message
    is about, as the registry stands when the handler is done. *)
Theorem broadcasts_reach_the_room_only
    (ev : event) (w : world) (data : outmsg) (recips : list nat) (c : nat) :
  In (Broadcast data recips) (handle ev w).2 →
  (c ∈ recips ↔
   ∃ k, clients (handle ev w).1 !! c = Some k ∧ ws_open k = true ∧
        ws_roomId k = room_of data).
Proof.
  intros Hin.
  assert (Forall (scoped (clients (handle ev w).1)) (handle ev w).2) as Hall.
  { destruct ev as [c0|c0 raw|c0|rid]; simpl.
    - constructor.
    - destruct (clients w !! c0); [apply on_message_scoped|constructor].
    - apply on_close_scoped.
    - apply gameLoop_scoped. }
  rewrite Forall_forall in Hall.
  specialize (Hall _ (proj2 (list_elem_of_In _ _) Hin)). simpl in Hall.
  rewrite Hall. apply recipients_spec.
Qed.

Lemma broadcasts_reach_the_room_only_witness :
  In (Broadcast (MsgGameOver (Some "R2")) [0%nat])
     (handle (Tick (Some "R2")) (gameLoop (Some "R2") duel).1).2 ∧
  (0%nat ∈ [0%nat] ↔
   ∃ k, clients (handle (Tick (Some "R2")) (gameLoop (Some "R2") duel).1).1 !! 0%nat
          = Some k ∧
        ws_open k = true ∧ ws_roomId k = Some "R2").
Proof.
  assert (In (Broadcast (MsgGameOver (Some "R2")) [0%nat])
            (handle (Tick (Some "R2")) (gameLoop (Some "R2") duel).1).2) as Hin.
  { vm_compute. auto. }
  split; [exact Hin|].
  exact (broadcasts_reach_the_room_only _ _ _ _ 0%nat Hin).
Defined.

(** ** The tick handle *)

Lemma intervals_app (k : string) (e1 e2 : list effect) :
  intervals k (e1 ++ e2) = (intervals k e1 + intervals k e2)%Z.
Proof.
  unfold intervals. induction e1 as [|eff e1 IH]; simpl; [done|].
  rewrite IH. lia.
Qed.

Lemma running_at_insert (k k' : string) (r : room) (w : world) :
  running_at k (set_room k' r w) =
    if decide (k' = k) then (if running r then 1 else 0)%Z else running_at k w.
Proof.
  unfold running_at. simpl. destruct (decide (k' = k)) as [->|Hne].
  - by rewrite lookup_insert_eq.
  - by rewrite lookup_insert_ne.
Qed.

Lemma running_at_same_rooms (k : string) (w w' : world) :
  rooms w' = rooms w -> running_at k w' = running_at k w.
Proof. unfold running_at. by intros ->. Qed.

Lemma running_at_lookup (k : string) (w : world) (r : room) :
  rooms w !! k = Some r -> running_at k w = (if running r then 1 else 0)%Z.
Proof. unfold running_at. by intros ->. Qed.

Lemma running_at_set_players (k k' : string) (w : world) (r : room)
    (ps : gmap string player) :
  rooms w !! k' = Some r ->
  running_at k (set_room k' (set_players ps r) w) = running_at k w.
Proof.
  intros Hr. rewrite running_at_insert. destruct (decide (k' = k)) as [<-|]; [|done].
  by rewrite (running_at_lookup _ _ _ Hr).
Qed.

Lemma running_at_ensure_room (k k' : string) (w : world) :
  running_at k (ensure_room k' w) = running_at k w.
Proof.
  unfold ensure_room. destruct (rooms w !! k') eqn:Hk'; [done|].
  destruct (inherited k'); [done|].
  rewrite running_at_insert. destruct (decide (k' = k)) as [<-|]; [|done].
  unfold running_at. by rewrite Hk'.
Qed.

Lemma startGame_intervals (k : string) (rid : ident) (w : world) :
  intervals k (startGame rid w).2 =
    (running_at k (startGame rid w).1 - running_at k w)%Z.
Proof.
  destruct (rooms w !! key_of rid) as [r|] eqn:Hk.
  - destruct (running r) eqn:Hrun.
    + rewrite (startGame_running rid w r) by done. simpl. lia.
    + destruct (startGame_lobby rid w r Hk Hrun) as (os & w1 & -> & Hrooms & _).
      simpl. rewrite running_at_insert. simpl.
      destruct (decide (key_of rid = k)) as [<-|Hne].
      * rewrite (running_at_lookup _ _ _ Hk), Hrun. lia.
      * rewrite (running_at_same_rooms k w w1) by done. lia.
  - unfold startGame. rewrite Hk. simpl. lia.
Qed.

Lemma stopGame_intervals (k : string) (rid : ident) (w : world) :
  intervals k (stopGame rid w).2 =
    (running_at k (stopGame rid w).1 - running_at k w)%Z.
Proof.
  destruct (stopGame_cases rid w) as [[-> _]|(r & Hk & Hrun & ->)]; simpl; [lia|].
  rewrite running_at_insert. simpl.
  destruct (decide (key_of rid = k)) as [<-|Hne]; [|lia].
  rewrite (running_at_lookup _ _ _ Hk), Hrun. lia.
Qed.

Lemma gameLoop_intervals (k : string) (rid : ident) (w : world) :
  intervals k (gameLoop rid w).2 =
    (running_at k (gameLoop rid w).1 - running_at k w)%Z.
Proof.
  unfold gameLoop. destruct (rooms w !! key_of rid) as [r|] eqn:Hk; [|simpl; lia].
  destruct (running r) eqn:Hrun; [|simpl; lia].
  pose proof (tick_room_running r (entropy w)) as Hr1.
  destruct (tick_room r (entropy w)) as [r1 e1]. simpl in Hr1.
  set (w1 := mkWorld _ _ _ _).
  assert (running_at k w1 = running_at k w) as Hw1.
  { change w1 with (set_room (key_of rid) r1
                      (mkWorld (rooms w) (clients w) e1 (uuid w))).
    rewrite running_at_insert. destruct (decide (key_of rid = k)) as [<-|]; [|done].
    by rewrite (running_at_lookup _ _ _ Hk), Hr1. }
  destruct (_ && _)%bool.
  - rewrite stopGame_intervals. lia.
  - simpl. lia.
Qed.

Lemma on_message_intervals (k : string) (c : nat) (raw : option message) (w : world) :
  intervals k (on_message c raw w).2 =
    (running_at k (on_message c raw w).1 - running_at k w)%Z.
Proof.
  destruct raw as [m|]; [|simpl; lia]. simpl.
  pose proof (running_at_ensure_room k (key_of (roomId m)) w) as Hw0.
  set (w0 := ensure_room (key_of (roomId m)) w) in *.
  destruct (rooms w0 !! key_of (roomId m)) as [r|] eqn:Hlook;
    clearbody w0; rewrite <- Hw0.
  2:{ destruct (classify (action m)); simpl; unfold running_at; simpl; lia. }
  destruct (classify (action m)).
  - destruct (payload m) as [o|]; simpl.
    + destruct (String.eqb _ "__proto__"); simpl.
      * unfold running_at. simpl. lia.
      * rewrite (running_at_set_players k _ (bind_ws c (roomId m) (playerId m) w0))
          by done.
        unfold running_at. simpl. lia.
    + unfold running_at. simpl. lia.
  - destruct (merge_player _ _ _) as [ps|]; [|simpl; lia].
    pose proof (running_at_set_players k _ w0 r ps Hlook) as Hw1.
    destruct (_ && _ && _)%bool.
    + pose proof (startGame_intervals k (roomId m)
                    (set_room (key_of (roomId m)) (set_players ps r) w0)) as Hst.
      destruct (startGame _ _) as [w2 e2]. simpl in *. lia.
    + simpl. lia.
  - destruct (players r !! key_of (playerId m)) as [p|]; [|simpl; lia].
    destruct (truthy (alive p)); [|simpl; lia].
    destruct (payload m) as [o|]; simpl; [|lia].
    rewrite running_at_set_players by done. lia.
  - simpl. lia.
Qed.

Lemma on_close_intervals (k : string) (c : nat) (w : world) :
  intervals k (on_close c w).2 =
    (running_at k (on_close c w).1 - running_at k w)%Z.
Proof.
  unfold on_close. destruct (clients w !! c) as [k0|]; [|simpl; lia].
  destruct (_ && _)%bool; [|simpl; unfold running_at; simpl; lia]. simpl.
  destruct (rooms w !! key_of (ws_roomId k0)) as [r|] eqn:Hr.
  2:{ destruct (inherited _); simpl; unfold running_at; simpl; lia. }
  set (ps := delete _ (players r)).
  set (w0 := mkWorld _ _ _ _).
  assert (running_at k w0 = running_at k w) as Hw0 by done.
  pose proof (running_at_set_players k _ w0 r ps Hr) as Hw1.
  destruct (Nat.eqb (size ps) 0); [|simpl; lia].
  destruct (stopGame_cases (ws_roomId k0)
              (set_room (key_of (ws_roomId k0)) (set_players ps r) w0))
    as [[Hst Hidle]|(r' & Hr' & Hrun' & Hst)]; rewrite Hst; simpl.
  - unfold running_at at 1. simpl.
    destruct (decide (key_of (ws_roomId k0) = k)) as [<-|Hne].
    + rewrite lookup_delete_eq.
      assert (running r = false) as Hrun.
      { apply (Hidle (set_players ps r)). simpl. by rewrite lookup_insert_eq. }
      rewrite (running_at_lookup _ w r Hr), Hrun. lia.
    + rewrite lookup_delete_ne, lookup_insert_ne by done.
      unfold running_at. lia.
  - simpl in Hr'. rewrite lookup_insert_eq in Hr'. injection Hr' as <-.
    simpl in Hrun'. unfold running_at at 1. simpl.
    destruct (decide (key_of (ws_roomId k0) = k)) as [<-|Hne].
    + rewrite lookup_delete_eq.
      rewrite (running_at_lookup _ w r Hr), Hrun'. lia.
    + rewrite lookup_delete_ne, !lookup_insert_ne by done.
      unfold running_at. lia.
Qed.

Lemma handle_intervals (k : string) (ev : event) (w : world) :
  intervals k (handle ev w).2 =
    (running_at k (handle ev w).1 - running_at k w)%Z.
Proof.
  destruct ev as [c|c raw|c|rid]; simpl.
  - unfold on_connection, running_at. destruct (clients w !! c); simpl; lia.
  - destruct (clients w !! c); [apply on_message_intervals|simpl; lia].
  - apply on_close_intervals.
  - apply gameLoop_intervals.
Qed.

Lemma run_intervals (k : string) (evs : list event) (w : world) :
  intervals k (run evs w).2 = (running_at k (run evs w).1 - running_at k w)%Z.
Proof.
  revert w. induction evs as [|ev evs IH]; intros w; [simpl; lia|].
  destruct (fatal (handle ev w).2) eqn:Hfatal.
  - rewrite run_fatal by done. apply handle_intervals.
  - rewrite run_cons by done. simpl.
    rewrite intervals_app, IH, handle_intervals. lia.
Qed.

(** X2. Along every run from the empty store that the embedding follows
    (no handler writes to a prototype), the number of intervals scheduled
    and not yet cleared for a room is 1 while the room is in the store and
    running, and 0 otherwise: no tick is orphaned, none is missing. *)
Theorem interval_scheduled_iff_running (k : string) (evs : list event) (e : nat -> Q) :
  ¬ In PrototypeWrite (run evs (initial e)).2 →
  intervals k (run evs (initial e)).2 = running_at k (run evs (initial e)).1 ∧
  (0 <= intervals k (run evs (initial e)).2 <= 1)%Z.
Proof.
  intros _. rewrite run_intervals.
  assert (running_at k (initial e) = 0%Z) as -> by done.
  split; [lia|]. unfold running_at.
  destruct (rooms _ !! k) as [r|]; [destruct (running r)|]; lia.
Qed.

Lemma interval_scheduled_iff_running_witness :
  existsb (λ eff, match eff with PrototypeWrite => true | _ => false end)
    (run [Connect 0; Message 0 (msg "R1" "A" "join" (Some no_fields));
          Message 0 (msg "R1" "A" "update" (Some ready_fields))]
       (initial half)).2 = false ∧
  intervals "R1"
    (run [Connect 0; Message 0 (msg "R1" "A" "join" (Some no_fields));
          Message 0 (msg "R1" "A" "update" (Some ready_fields))]
       (initial half)).2 = 1%Z.
Proof.
  split; [vm_compute; reflexivity|].
  destruct (interval_scheduled_iff_running "R1"
              [Connect 0; Message 0 (msg "R1" "A" "join" (Some no_fields));
               Message 0 (msg "R1" "A" "update" (Some ready_fields))] half)
    as [Heq _].
  - vm_compute. intros H. repeat (destruct H as [H|H]; [discriminate H|]). exact H.
  - rewrite Heq. vm_compute. reflexivity.
Defined.

(** ** The speed ramp *)

(** X3. The speed of a tick starts from 0.5, never decreases with the
    elapsed time, never exceeds 4, and is 4 from t = 3.5 / 0.12 on. *)
Theorem speed_ramp (t t' : Q) :
  0 <= t → t <= t' →
  1 # 2 <= speed_at t ∧ speed_at t <= speed_at t' ∧ speed_at t' <= 4 ∧
  (175 # 6 <= t → speed_at t == 4) ∧
  (t < 175 # 6 → speed_at t == (1 # 2) + t * (12 # 100)).
Proof.
  intros H0 Hle. unfold speed_at, qmin.
  destruct (Qlt_le_dec (t * (12 # 100)) (7 # 2));
    destruct (Qlt_le_dec (t' * (12 # 100)) (7 # 2));
    repeat split; intros; lra.
Qed.

Lemma speed_ramp_witness :
  0 <= 30 ∧ 30 <= 60 ∧ speed_at 30 == 4.
Proof.
  assert (0 <= 30) as H0 by (vm_compute; intros H; discriminate H).
  assert (30 <= 60) as H1 by (vm_compute; intros H; discriminate H).
  split; [exact H0|]. split; [exact H1|].
  destruct (speed_ramp 30 60 H0 H1) as (_ & _ & _ & Hsat & _).
  apply Hsat. vm_compute. intros H; discriminate H.
Defined.

(** ** What startGame seeds *)

Lemma spawn_all_spec (zs : list Q) (os : list obstacle) (w : world) :
  (fold_left (fun acc z => spawnObstacle z acc) zs (os, w)).1 =
    os ++ imap (λ i z, mkObstacle (uuid w + i) (random_lane (entropy w i)) (9 # 10) z) zs.
Proof.
  revert os w. induction zs as [|z zs IH]; intros os w; simpl.
  - by rewrite app_nil_r.
  - rewrite IH. simpl. rewrite <- app_assoc. simpl. rewrite Nat.add_0_r.
    do 2 f_equal. apply imap_ext. intros i z' _. simpl.
    f_equal. lia.
Qed.

Lemma spawn_depths_lookup (i : nat) (z : Q) :
  spawn_depths !! i = Some z → z = - inject_Z (Z.of_nat (S i)) * 20 ∧ (i < 8)%nat.
Proof.
  do 8 (destruct i as [|i]; [intros [= <-]; split; [reflexivity|lia]|]).
  intros H. discriminate H.
Qed.

(** X4. [startGame] on a room that is not running: the room runs with
    [score] and [t] at 0, every player is reset ([alive], centre lane, spawn
    position) and keeps its [ready] flag, and the pool holds eight obstacles,
    the i-th at depth [-20 * i] in a lane of [LANE_X]; one interval is
    scheduled. *)
Theorem startGame_seeds_the_round (rid : ident) (w : world) (r : room) :
  rooms w !! key_of rid = Some r → running r = false →
  (∀ n, 0 <= entropy w n < 1) →
  (startGame rid w).2 = [SetInterval rid] ∧
  ∃ r', rooms (startGame rid w).1 !! key_of rid = Some r' ∧
    running r' = true ∧ score r' = 0 ∧ room_t r' = 0 ∧
    players r' = reset_player <$> players r ∧
    (∀ pk p', players r' !! pk = Some p' →
       alive p' = VBool true ∧ p_x p' = Fin 0 ∧ laneTarget p' = Fin 1 ∧
       laneCurrent p' = Fin 0 ∧
       ∃ p, players r !! pk = Some p ∧ ready p' = ready p) ∧
    length (obstacles r') = 8%nat ∧
    (∀ i o, obstacles r' !! i = Some o →
       o_z o = - inject_Z (Z.of_nat (S i)) * 20 ∧ o_y o = 9 # 10 ∧
       ∃ lane, lane ∈ LANE_X ∧ o_x o = Fin lane).
Proof.
  intros Hk Hrun Hrand. unfold startGame. rewrite Hk, Hrun.
  pose proof (spawn_all_spec spawn_depths [] w) as Hos.
  destruct (fold_left _ spawn_depths ([], w)) as [os w1]. cbn [fst app] in Hos.
  split; [done|]. simpl. rewrite lookup_insert_eq. eexists. split; [done|].
  simpl. do 4 (split; [done|]). split; [|split].
  - intros pk p' Hp'. apply lookup_fmap_Some in Hp' as (p & <- & Hp).
    simpl. repeat split. by exists p.
  - rewrite Hos, length_imap. done.
  - intros i o Ho. rewrite Hos in Ho.
    apply list_lookup_imap_Some in Ho as (z & Hz & ->). simpl.
    destruct (spawn_depths_lookup i z Hz) as [-> _]. do 2 (split; [done|]).
    destruct (Hrand i). by apply random_lane_in_LANE_X.
Qed.

Lemma startGame_seeds_the_round_witness :
  rooms lobby !! "R1" = Some (the_room "R1" lobby) ∧
  (startGame (Some "R1") lobby).2 = [SetInterval (Some "R1")].
Proof.
  assert (rooms lobby !! "R1" = Some (the_room "R1" lobby)) as Hr
    by (vm_compute; reflexivity).
  split; [exact Hr|].
  refine (proj1 (startGame_seeds_the_round (Some "R1") lobby (the_room "R1" lobby)
                   Hr _ _)).
  - vm_compute. reflexivity.
  - intros n. split; vm_compute; [intros H; discriminate H|reflexivity].
Defined.

(** ** Forgetting a room *)

(** X5. When the socket of the last player of a room closes, the room leaves
    the store, and the next message that names the room finds a fresh one:
    no players, not running, no obstacles.  The key of a stored room never
    names a builtin of [Object.prototype] ([stored_keys_are_own]). *)
Theorem last_disconnect_forgets_room
    (c : nat) (w : world) (k0 : conn) (r : room) (c' : nat) (m : message) :
  clients w !! c = Some k0 →
  ident_truthy (ws_roomId k0) = true → ident_truthy (ws_playerId k0) = true →
  rooms w !! key_of (ws_roomId k0) = Some r →
  inherited (key_of (ws_roomId k0)) = false →
  delete (key_of (ws_playerId k0)) (players r) = ∅ →
  key_of (roomId m) = key_of (ws_roomId k0) →
  rooms (on_close c w).1 !! key_of (ws_roomId k0) = None ∧
  the_room (key_of (roomId m)) (ensure_room (key_of (roomId m)) (on_close c w).1)
    = empty_room ∧
  (payload m = None ∨ classify (action m) ≠ Join →
   rooms (on_message c' (Some m) (on_close c w).1).1 !! key_of (roomId m)
     = Some empty_room).
Proof.
  intros Hc Hrid Hpid Hr Hown Hlast Hkey.
  assert (rooms (on_close c w).1 !! key_of (roomId m) = None) as Hnone.
  { rewrite Hkey. pose proof (on_close_rooms c w k0 r Hc Hrid Hpid Hr) as Hrooms.
    simpl in Hrooms. rewrite Hrooms, Hlast, map_size_empty. simpl.
    by rewrite lookup_delete_eq. }
  split; [by rewrite <- Hkey|].
  rewrite <- Hkey in Hown.
  destruct (ensure_room_absent _ _ Hnone Hown) as (Hens & Hw0 & Hthe).
  split; [done|]. intros Hcase. simpl. rewrite Hw0.
  set (w0 := ensure_room (key_of (roomId m)) (on_close c w).1) in *.
  destruct (classify (action m)) eqn:Hact.
  - destruct Hcase as [-> | Hne]; [done|congruence].
  - unfold merge_player. simpl. rewrite lookup_empty.
    destruct (_ && _)%bool; [done|]. simpl.
    rewrite map_size_empty, andb_false_r. simpl. by rewrite lookup_insert_eq.
  - simpl. by rewrite lookup_empty.
  - done.
Qed.

Lemma last_disconnect_forgets_room_witness :
  clients lobby !! 0%nat = Some (mkConn true (Some "R1") (Some "A")) ∧
  rooms (on_close 0 lobby).1 !! "R1" = None.
Proof.
  assert (clients lobby !! 0%nat = Some (mkConn true (Some "R1") (Some "A"))) as Hc
    by (vm_compute; reflexivity).
  assert (rooms lobby !! "R1" = Some (the_room "R1" lobby)) as Hr
    by (vm_compute; reflexivity).
  split; [exact Hc|].
  refine (proj1 (last_disconnect_forgets_room 0 lobby _ (the_room "R1" lobby) 0
                   (mkMessage (Some "R1") (Some "B") (Some "ping") None)
                   Hc _ _ Hr _ _ _)).
  - reflexivity.
  - reflexivity.
  - reflexivity.
  - vm_compute. reflexivity.
  - reflexivity.
Defined.

(** ** A round from lobby to first tick *)

(** A worked round.  Players "A" and "B" join room "R1" and both turn
    ready: one interval is scheduled, eight obstacles are seeded, and the
    first tick publishes a [gameState] with [running] true and a displayed
    score of 0, while the accumulated score is already positive. *)
Theorem two_players_ready_start_once :
  let evs := [Connect 0; Connect 1;
              Message 0 (msg "R1" "A" "join" (Some no_fields));
              Message 1 (msg "R1" "B" "join" (Some no_fields));
              Message 0 (msg "R1" "A" "update" (Some ready_fields));
              Message 1 (msg "R1" "B" "update" (Some ready_fields));
              Tick (Some "R1")] in
  let res := run evs (initial half) in
  intervals "R1" res.2 = 1%Z ∧
  List.filter (λ eff, match eff with SetInterval _ => true | _ => false end) res.2
    = [SetInterval (Some "R1")] ∧
  (λ r, (running r, length (obstacles r), Qfloor (score r))) <$> rooms res.1 !! "R1"
    = Some (true, 8%nat, 0%Z) ∧
  (∃ r, rooms res.1 !! "R1" = Some r ∧ 0 < score r) ∧
  ∃ ps os recips,
    last res.2 = Some (Broadcast (MsgGameState (Some "R1") ps os 0 true) recips) ∧
    0%nat ∈ recips ∧ 1%nat ∈ recips.
Proof.
  cbv zeta. split; [vm_compute; reflexivity|]. split; [vm_compute; reflexivity|].
  split; [vm_compute; reflexivity|]. split.
  - eexists. split; [vm_compute; reflexivity|]. vm_compute. reflexivity.
  - eexists _, _, _. split; [vm_compute; reflexivity|].
    split; apply list_elem_of_In; simpl; auto.
Qed.

(** ** Score and elapsed time *)

Lemma tick_seconds : TICK_TIME / 1000 == 1 # 60.
Proof. reflexivity. Qed.

Lemma speed_at_upper (t : Q) : speed_at t <= 4.
Proof. unfold speed_at, qmin. destruct (Qlt_le_dec (t * (12 # 100)) (7 # 2)); lra. Qed.

Lemma tick_room_score (r : room) (e : nat -> Q) :
  score (tick_room r e).1 =
    score r + speed_at (room_t r + TICK_TIME / 1000) * (TICK_TIME / 1000) * 10.
Proof. unfold tick_room. by destruct (step_obstacles _ _ _). Qed.

Lemma score_paced_tick (r : room) (e : nat -> Q) :
  score_paced r -> score_paced (tick_room r e).1.
Proof.
  intros (Ht & Hlo & Hhi). unfold score_paced.
  rewrite tick_room_time, tick_room_score.
  assert (1 # 2 <= speed_at (room_t r + TICK_TIME / 1000)) as Hs.
  { apply speed_at_pos. rewrite tick_seconds. lra. }
  pose proof (speed_at_upper (room_t r + TICK_TIME / 1000)) as Hs'.
  set (s := speed_at _) in *. rewrite !tick_seconds. repeat split; lra.
Qed.

(** X6. In every reachable state the clock of a room is non-negative and
    its score lies between 5 and 40 times the elapsed seconds, so the
    displayed score, its floor, is never negative. *)
Theorem score_keeps_pace_with_time (w : world) (k : string) (r : room) :
  reachable w → rooms w !! k = Some r →
  0 <= room_t r ∧ 5 * room_t r <= score r ∧ score r <= 40 * room_t r ∧
  (0 <= Qfloor (score r))%Z.
Proof.
  intros Hreach Hr.
  assert (score_paced r) as (Ht & Hlo & Hhi).
  { revert k r Hr. apply (every_room_reachable score_paced).
    - unfold score_paced. cbn [room_t score empty_room]. repeat split; lra.
    - by intros r ps.
    - by intros r b.
    - intros r os _. unfold score_paced. cbn [room_t score]. repeat split; lra.
    - apply score_paced_tick.
    - exact Hreach. }
  repeat split; try done.
  rewrite <- (Qfloor_Z 0). apply Qfloor_resp_le. change (inject_Z 0) with 0. lra.
Qed.

Lemma score_keeps_pace_with_time_witness :
  reachable started ∧
  ∃ r, rooms (handle (Tick (Some "R1")) started).1 !! "R1" = Some r ∧
       5 * room_t r <= score r.
Proof.
  assert (reachable started) as Hstarted.
  { apply reachable_run. constructor. }
  pose proof (reach_step (Tick (Some "R1")) started Hstarted) as Hreach.
  split; [exact Hstarted|].
  pose (r := the_room "R1" (handle (Tick (Some "R1")) started).1).
  assert (rooms (handle (Tick (Some "R1")) started).1 !! "R1" = Some r) as Hr
    by (vm_compute; reflexivity).
  exists r. split; [exact Hr|].
  exact (proj1 (proj2 (score_keeps_pace_with_time _ "R1" r Hreach Hr))).
Defined.

(** ** The obstacle field *)

Lemma spawn_all_entropy (zs : list Q) (os : list obstacle) (w : world) (n : nat) :
  entropy (fold_left (fun acc z => spawnObstacle z acc) zs (os, w)).2 n =
    entropy w (length zs + n)%nat.
Proof.
  revert os w. induction zs as [|z zs IH]; intros os w; simpl; [done|].
  by rewrite IH.
Qed.

Lemma unit_draws_suffix (e e' : nat -> Q) (c : nat) :
  (∀ n, e' n = e (c + n)%nat) -> unit_draws e -> unit_draws e'.
Proof. intros Heq He n. rewrite Heq. apply He. Qed.

Lemma in_field_spawned (e : nat -> Q) (u i : nat) (z : Q) :
  unit_draws e -> spawn_depths !! i = Some z ->
  in_field (mkObstacle (u + i) (random_lane (e i)) (9 # 10) z).
Proof.
  intros He Hz. destruct (spawn_depths_lookup i z Hz) as [-> Hi].
  unfold in_field. simpl.
  assert (1 <= inject_Z (Z.of_nat (S i)) ∧ inject_Z (Z.of_nat (S i)) <= 8) as [H1 H8].
  { split; [change 1 with (inject_Z 1)|change 8 with (inject_Z 8)];
      rewrite <- Zle_Qle; lia. }
  split; [lra|]. split; [lra|]. split; [done|].
  destruct (He i). by apply random_lane_in_LANE_X.
Qed.

Lemma field_ok_tick (r : room) (e : nat -> Q) :
  unit_draws e -> field_ok r -> field_ok (tick_room r e).1.
Proof.
  intros He (Ht & Hlen & Hall). unfold field_ok, pool_ok.
  rewrite tick_room_time, tick_room_obstacles.
  set (speed := speed_at (room_t r + TICK_TIME / 1000)).
  assert (1 # 2 <= speed) as Hspeed.
  { apply speed_at_pos. rewrite tick_seconds. lra. }
  split; [rewrite tick_seconds; lra|]. split.
  - destruct Hlen as [Hnil|Hlen].
    + left. rewrite Hnil. done.
    + right. by rewrite step_obstacles_length.
  - apply Forall_lookup. intros i o' Ho'.
    assert (i < length (obstacles r))%nat as Hi.
    { rewrite <- (step_obstacles_length speed (obstacles r) e).
      by apply lookup_lt_Some in Ho'. }
    apply lookup_lt_is_Some in Hi as [o Ho].
    destruct (step_obstacles_lookup speed (obstacles r) e i o Ho)
      as (o'' & Ho'' & _ & Hy & Hcase).
    rewrite Ho' in Ho''. injection Ho'' as <-.
    rewrite Forall_lookup in Hall. destruct (Hall i o Ho) as (Hlo & Hhi & Hy0 & Hx0).
    unfold in_field. rewrite Hy.
    destruct Hcase as [(_ & n & Hz & Hx)|(Hle & Hx & Hz)].
    + rewrite Hz, Hx. destruct (He n) as [Hn0 Hn1]. destruct (He (S n)) as [Hs0 Hs1].
      split; [lra|]. split; [lra|]. split; [done|].
      by apply random_lane_in_LANE_X.
    + rewrite Hz, Hx. split; [lra|]. done.
Qed.

Lemma field_ok_startGame (rid : ident) (w : world) :
  unit_draws (entropy w) -> all_rooms field_ok w ->
  unit_draws (entropy (startGame rid w).1) ∧ all_rooms field_ok (startGame rid w).1.
Proof.
  intros He Hw. unfold startGame.
  destruct (rooms w !! key_of rid) as [r|] eqn:Hk; [|done].
  destruct (running r); [done|].
  pose proof (spawn_all_spec spawn_depths [] w) as Hos.
  pose proof (spawn_all_entropy spawn_depths [] w) as Hen.
  destruct (spawn_all_frame spawn_depths [] w) as (Hrooms & _ & _).
  destruct (fold_left _ spawn_depths ([], w)) as [os w1]. cbn [fst snd app] in *.
  split.
  - simpl. by apply (unit_draws_suffix (entropy w) _ (length spawn_depths)).
  - apply every_room_insert; [intros k r'; rewrite Hrooms; apply Hw|].
    split; [simpl; lra|]. split; simpl.
    + right. rewrite Hos, length_imap. done.
    + rewrite Hos. apply Forall_lookup. intros i o Ho.
      apply list_lookup_imap_Some in Ho as (z & Hz & ->).
      by apply in_field_spawned.
Qed.

Lemma field_ok_on_message (c : nat) (raw : option message) (w : world) :
  unit_draws (entropy w) -> all_rooms field_ok w ->
  unit_draws (entropy (on_message c raw w).1) ∧
  all_rooms field_ok (on_message c raw w).1.
Proof.
  intros He Hw. destruct raw as [m|]; [|done]. simpl.
  assert (all_rooms field_ok (ensure_room (key_of (roomId m)) w)) as Hw0.
  { apply every_room_ensure; [|done]. split; [simpl; lra|].
    split; [by left|constructor]. }
  pose proof (ensure_room_entropy (key_of (roomId m)) w) as Hen.
  set (w0 := ensure_room (key_of (roomId m)) w) in *.
  destruct (rooms w0 !! key_of (roomId m)) as [r|] eqn:Hlook;
    clearbody w0; rewrite <- Hen in He.
  2:{ by destruct (classify (action m)). }
  pose proof (Hw0 _ _ Hlook) as Hr.
  destruct (classify (action m)).
  - destruct (payload m) as [o|]; simpl; [|done].
    destruct (String.eqb _ "__proto__"); [done|]. split; [done|].
    by apply (every_room_insert _ _ _ (bind_ws c (roomId m) (playerId m) w0)).
  - destruct (merge_player _ _ _) as [ps|]; [|done].
    assert (all_rooms field_ok (set_room (key_of (roomId m)) (set_players ps r) w0))
      as Hw1 by (by apply every_room_insert).
    destruct (_ && _ && _)%bool; [|done].
    pose proof (field_ok_startGame (roomId m)
                  (set_room (key_of (roomId m)) (set_players ps r) w0) He Hw1) as Hst.
    by destruct (startGame _ _).
  - destruct (players r !! key_of (playerId m)) as [p|]; [|done].
    destruct (truthy (alive p)); [|done].
    destruct (payload m) as [o|]; [|done]. simpl. split; [done|].
    by apply every_room_insert.
  - done.
Qed.

Lemma field_ok_gameLoop (rid : ident) (w : world) :
  unit_draws (entropy w) -> all_rooms field_ok w ->
  unit_draws (entropy (gameLoop rid w).1) ∧ all_rooms field_ok (gameLoop rid w).1.
Proof.
  intros He Hw. unfold gameLoop.
  destruct (rooms w !! key_of rid) as [r|] eqn:Hk; [|done].
  destruct (running r); [|done].
  pose proof (field_ok_tick r (entropy w) He (Hw _ _ Hk)) as Htick.
  assert (unit_draws (tick_room r (entropy w)).2) as He1.
  { unfold tick_room.
    destruct (step_obstacles_entropy (speed_at (room_t r + TICK_TIME / 1000))
                (obstacles r) (entropy w)) as [c Hc].
    destruct (step_obstacles _ _ _) as [os e1]. simpl in *.
    by apply (unit_draws_suffix (entropy w) _ c). }
  destruct (tick_room r (entropy w)) as [r1 e1]. simpl in *.
  set (w1 := mkWorld _ _ _ _).
  assert (all_rooms field_ok w1) as Hw1.
  { by apply (every_room_insert field_ok (key_of rid) r1
                (mkWorld (rooms w) (clients w) e1 (uuid w))). }
  destruct (_ && _)%bool; [|done].
  destruct (stopGame_cases rid w1) as [[-> _]|(r' & Hr' & _ & ->)]; [done|].
  split; [done|]. apply every_room_insert; [done|]. by apply (Hw1 _ _ Hr').
Qed.

Lemma field_ok_on_close (c : nat) (w : world) :
  unit_draws (entropy w) -> all_rooms field_ok w ->
  unit_draws (entropy (on_close c w).1) ∧ all_rooms field_ok (on_close c w).1.
Proof.
  intros He Hw. split.
  - unfold on_close. destruct (clients w !! c) as [k0|]; [|done].
    destruct (_ && _)%bool; [|done]. simpl.
    destruct (rooms w !! _) as [r|]; [|by destruct (inherited _)].
    destruct (Nat.eqb _ 0); [|done].
    match goal with |- context [stopGame ?rid ?w1] =>
      destruct (stopGame_cases rid w1) as [[-> _]|(r' & _ & _ & ->)] end; done.
  - apply every_room_on_close; [by intros r ps|by intros r b|done].
Qed.

Lemma field_ok_run (evs : list event) (w : world) :
  unit_draws (entropy w) -> all_rooms field_ok w ->
  unit_draws (entropy (run evs w).1) ∧ all_rooms field_ok (run evs w).1.
Proof.
  revert w. induction evs as [|ev evs IH]; intros w He Hw; [done|].
  assert (unit_draws (entropy (handle ev w).1) ∧ all_rooms field_ok (handle ev w).1)
    as [He1 Hw1].
  { destruct ev as [c|c raw|c|rid]; simpl.
    - unfold on_connection. by destruct (clients w !! c).
    - destruct (clients w !! c); [|done]. by apply field_ok_on_message.
    - by apply field_ok_on_close.
    - by apply field_ok_gameLoop. }
  destruct (fatal (handle ev w).2) eqn:Hfatal.
  - by rewrite run_fatal.
  - rewrite run_cons by done. simpl. by apply IH.
Qed.

(** X7. Along every run from the empty store whose random draws lie in
    [0, 1), the pool of a room is empty (no round yet) or holds exactly
    eight obstacles, and every obstacle is inside the field: its [x] is a
    lane of [LANE_X], its [y] is 0.9 and its [z] lies between -240 and 6. *)
Theorem obstacles_stay_in_the_field
    (evs : list event) (e : nat -> Q) (k : string) (r : room) :
  unit_draws e → rooms (run evs (initial e)).1 !! k = Some r →
  (obstacles r = [] ∨ length (obstacles r) = 8%nat) ∧
  ∀ o, o ∈ obstacles r →
    -240 <= o_z o ∧ o_z o <= 6 ∧ o_y o = 9 # 10 ∧
    ∃ lane, lane ∈ LANE_X ∧ o_x o = Fin lane.
Proof.
  intros He Hr.
  destruct (field_ok_run evs (initial e)) as [_ Hall]; [done| |].
  { intros k' r'. simpl. by rewrite lookup_empty. }
  destruct (Hall k r Hr) as (_ & Hlen & Hfield). split; [done|].
  intros o Ho. rewrite Forall_forall in Hfield. by apply Hfield.
Qed.

Lemma obstacles_stay_in_the_field_witness :
  unit_draws half ∧
  (obstacles (the_room "R1" started) = [] ∨
   length (obstacles (the_room "R1" started)) = 8%nat).
Proof.
  assert (unit_draws half) as He.
  { intros n. split; vm_compute; [intros H; discriminate H|reflexivity]. }
  split; [exact He|].
  refine (proj1 (obstacles_stay_in_the_field
                   [Connect 0; Message 0 (msg "R1" "A" "join" (Some no_fields));
                    Message 0 (msg "R1" "A" "update" (Some ready_fields))]
                   half "R1" (the_room "R1" started) He _)).
  vm_compute. reflexivity.
Defined.

(** ** What a tick does to the players *)

Lemma step_player_frame (os : list obstacle) (p : player) :
  nickname (step_player os p) = nickname p ∧ color (step_player os p) = color p ∧
  ready (step_player os p) = ready p ∧ laneTarget (step_player os p) = laneTarget p ∧
  p_y (step_player os p) = p_y p ∧ p_z (step_player os p) = p_z p ∧
  extra (step_player os p) = extra p ∧
  (truthy (alive (step_player os p)) = true → truthy (alive p) = true) ∧
  (truthy (alive p) = true →
   p_x (step_player os p) = laneCurrent (step_player os p) ∧
   laneCurrent (step_player os p) = laneCurrent (smooth p)).
Proof.
  unfold step_player. destruct (truthy (alive p)) eqn:Halive.
  - destruct (existsb _ os); simpl; repeat split; done.
  - repeat split; try done. by rewrite Halive.
Qed.

(** X8. A tick neither creates nor removes a room or a player, and of a
    player it writes only [x], [laneCurrent] and [alive]: nickname, color,
    [ready], [laneTarget], [y] and [z] are kept, a dead player is left as it
    is (never revived), and a player that was alive ends with [x] equal to
    the smoothed [laneCurrent]. *)
Theorem tick_moves_players_only (rid : ident) (w : world) (k : string) :
  (rooms (gameLoop rid w).1 !! k = None ↔ rooms w !! k = None) ∧
  ∀ r r', rooms w !! k = Some r → rooms (gameLoop rid w).1 !! k = Some r' →
    (∀ pk, players r' !! pk = None ↔ players r !! pk = None) ∧
    ∀ pk p, players r !! pk = Some p →
      ∃ p', players r' !! pk = Some p' ∧
        nickname p' = nickname p ∧ color p' = color p ∧ ready p' = ready p ∧
        laneTarget p' = laneTarget p ∧ p_y p' = p_y p ∧ p_z p' = p_z p ∧
        extra p' = extra p ∧
        (truthy (alive p') = true → truthy (alive p) = true) ∧
        (truthy (alive p) = false → p' = p) ∧
        (k = key_of rid → running r = true → truthy (alive p) = true →
         p_x p' = laneCurrent p' ∧ laneCurrent p' = laneCurrent (smooth p)).
Proof.
  assert (∀ r, rooms w !! k = Some r →
            ∃ r', rooms (gameLoop rid w).1 !! k = Some r' ∧
                  ((players r' = players r ∧ (k = key_of rid → running r = false)) ∨
                   ∃ os, players r' = step_player os <$> players r)) as Hstep.
  { intros r Hr. destruct (decide (k = key_of rid)) as [->|Hne].
    - destruct (running r) eqn:Hrun.
      + destruct (gameLoop_room rid w r Hr Hrun) as (r' & Hr' & Hcase).
        exists r'. split; [done|]. right. eexists.
        destruct Hcase as [-> | ->]; simpl; apply tick_room_players.
      + rewrite gameLoop_idle; [exists r; by split; [|left]|].
        intros r0. rewrite Hr. by intros [= <-].
    - exists r. rewrite gameLoop_frame by done. split; [done|]. left. done. }
  split.
  - split; intros Hnone.
    + destruct (rooms w !! k) as [r|] eqn:Hr; [|done].
      destruct (Hstep r eq_refl) as (r' & Hr' & _). congruence.
    + destruct (decide (k = key_of rid)) as [->|Hne].
      * rewrite gameLoop_idle; [done|]. intros r. by rewrite Hnone.
      * by rewrite gameLoop_frame.
  - intros r r' Hr Hr'. destruct (Hstep r Hr) as (r0 & Hr0 & Hcase).
    rewrite Hr' in Hr0. injection Hr0 as <-.
    destruct Hcase as [[-> Hidle] | [os ->]].
    + split; [done|]. intros pk p Hp. exists p. do 10 (split; [done|]).
      intros Hk Hrun. rewrite (Hidle Hk) in Hrun. discriminate Hrun.
    + split.
      * intros pk. rewrite lookup_fmap. apply fmap_None.
      * intros pk p Hp. exists (step_player os p). rewrite lookup_fmap, Hp.
        split; [done|]. pose proof (step_player_frame os p) as Hf.
        do 7 (split; [apply Hf|]). split; [apply Hf|].
        split; [by apply step_player_dead|]. intros _ _. apply Hf.
Qed.

(** ** Collisions *)

Lemma hits_needs_lane (p : player) (o : obstacle) (x lane : Q) :
  p_x p = Fin x -> o_x o = Fin lane -> hits p o = true ->
  Qabs (lane - x) < 16 # 10.
Proof.
  intros Hx Hlane. unfold hits. rewrite Hx, Hlane. cbn [nsub nabs nlt].
  destruct (Qlt_le_dec (Qabs (lane - x)) OBSTACLE_BOUNDS); [done|].
  intros H. discriminate H.
Qed.

Lemma hits_needs_depth (p : player) (o : obstacle) (z : Q) :
  p_z p = Fin z -> hits p o = true -> Qabs (o_z o - z) < 16 # 10.
Proof.
  intros Hz. unfold hits. rewrite Hz. cbn [nsub nabs nlt].
  destruct (Qlt_le_dec (Qabs (o_z o - z)) OBSTACLE_BOUNDS); [done|].
  rewrite andb_false_r. intros H. discriminate H.
Qed.

Lemma hits_NaN (p : player) (o : obstacle) : p_x p = NaN -> hits p o = false.
Proof. intros Hx. unfold hits. rewrite Hx. by destruct (o_x o). Qed.

Lemma survives_iff (os : list obstacle) (p : player) :
  truthy (alive p) = true ->
  (truthy (alive (step_player os p)) = true ↔
   ∀ o, o ∈ os → hits (smooth p) o = false).
Proof.
  intros Halive. unfold step_player. rewrite Halive.
  destruct (existsb (hits (smooth p)) os) eqn:Hex; simpl.
  - split; [intros H; discriminate H|]. intros Hnone.
    apply existsb_exists in Hex as (o & Hin & Hhit).
    apply list_elem_of_In in Hin. rewrite (Hnone o Hin) in Hhit. discriminate Hhit.
  - split; [|done]. intros _ o Hin.
    destruct (hits (smooth p) o) eqn:Hhit; [|done].
    assert (existsb (hits (smooth p)) os = true) as Hex'.
    { apply existsb_exists. exists o. split; [by apply list_elem_of_In|done]. }
    congruence.
Qed.

(** X10. An obstacle can only hit a player whose smoothed [x] is less than
    1.6 away from the obstacle's lane.  So an alive player survives the
    tick, whatever the depths of the obstacles, when its [x] after smoothing
    is [NaN] or at least 1.6 away from every lane that holds an obstacle:
    halfway between two lanes nothing can hit. *)
Theorem no_hit_away_from_lanes (os : list obstacle) (p : player) :
  truthy (alive p) = true →
  (∀ o, o ∈ os → ∃ lane, o_x o = Fin lane ∧
      (p_x (smooth p) = NaN ∨
       ∃ x, p_x (smooth p) = Fin x ∧ 16 # 10 <= Qabs (lane - x))) →
  truthy (alive (step_player os p)) = true.
Proof.
  intros Halive Hfar. apply survives_iff; [done|]. intros o Hin.
  destruct (Hfar o Hin) as (lane & Hlane & [Hnan|(x & Hx & Hdist)]).
  - by apply hits_NaN.
  - destruct (hits (smooth p) o) eqn:Hhit; [|done].
    pose proof (hits_needs_lane _ _ _ _ Hx Hlane Hhit). lra.
Qed.

Lemma no_hit_away_from_lanes_witness :
  truthy (alive drifting) = true ∧
  truthy (alive (step_player wall drifting)) = true.
Proof.
  split; [reflexivity|].
  apply (no_hit_away_from_lanes wall drifting); [reflexivity|].
  intros o Ho. apply list_elem_of_In in Ho.
  destruct Ho as [<-|[<-|[<-|[]]]]; eexists; (split; [reflexivity|]);
    right; eexists; (split; [reflexivity|]); vm_compute; intros H; discriminate H.
Defined.

Lemma step_obstacles_origin (speed : Q) (os : list obstacle) (e : nat -> Q)
    (o' : obstacle) :
  o' ∈ (step_obstacles speed os e).1 ->
  ∃ o, o ∈ os ∧
    ((6 < o_z o + speed) ∨ (o_z o + speed <= 6 ∧ o_z o' = o_z o + speed)).
Proof.
  intros Hin. apply list_elem_of_lookup in Hin as [i Hi].
  assert (i < length os)%nat as Hlt.
  { rewrite <- (step_obstacles_length speed os e). by apply lookup_lt_Some in Hi. }
  apply lookup_lt_is_Some in Hlt as [o Ho].
  destruct (step_obstacles_lookup speed os e i o Ho) as (o'' & Ho'' & _ & _ & Hcase).
  rewrite Hi in Ho''. injection Ho'' as <-.
  exists o. split; [by apply list_elem_of_lookup; exists i|].
  destruct Hcase as [(Hlt & _)|(Hle & _ & Hz)]; [by left|by right].
Qed.

(** X11. The collision test only sees positions after the move.  When every
    obstacle is still behind the hit box before the tick (z at most -1.6)
    and the speed of the tick carries each of them to z at least 1.6, the
    player at z = 0 is alive after the tick although obstacles crossed its
    plane, in its own lane or not; the speed ramp reaches such speeds
    (above 3.2). *)
Theorem fast_obstacle_passes_through
    (rid : ident) (w : world) (r : room) (pk : string) (p : player) :
  rooms w !! key_of rid = Some r → running r = true →
  players r !! pk = Some p → truthy (alive p) = true → p_z p = Fin 0 →
  (∀ o, o ∈ obstacles r →
     o_z o <= - (16 # 10) ∧
     (16 # 10) - speed_at (room_t r + TICK_TIME / 1000) <= o_z o) →
  ∃ r' p', rooms (gameLoop rid w).1 !! key_of rid = Some r' ∧ running r' = true ∧
    players r' !! pk = Some p' ∧ truthy (alive p') = true ∧
    length (obstacles r') = length (obstacles r) ∧
    ∀ o', o' ∈ obstacles r' → 16 # 10 <= o_z o'.
Proof.
  intros Hr Hrun Hp Halive Hz Hbehind.
  assert (playersAlive r ≠ 0%nat) as Hcount by (by apply (playersAlive_of_alive r pk p)).
  rewrite (gameLoop_publishes rid w r Hr Hrun Hcount). simpl.
  rewrite lookup_insert_eq.
  set (r' := (tick_room r (entropy w)).1).
  set (s := speed_at (room_t r + TICK_TIME / 1000)) in *.
  pose proof (speed_at_upper (room_t r + TICK_TIME / 1000)) as Hs. fold s in Hs.
  assert (∀ o', o' ∈ obstacles r' → 16 # 10 <= o_z o') as Hfront.
  { intros o' Ho'. subst r'. rewrite tick_room_obstacles in Ho'. fold s in Ho'.
    destruct (step_obstacles_origin s _ _ o' Ho') as (o & Ho & Hcase).
    destruct (Hbehind o Ho) as [Hlo Hhi].
    destruct Hcase as [Hrec|(_ & ->)]; lra. }
  exists r', (step_player (obstacles r') p). split; [done|].
  split; [subst r'; by rewrite tick_room_running|].
  split; [subst r'; by rewrite tick_room_players, lookup_fmap, Hp|].
  split.
  - apply survives_iff; [done|]. intros o' Ho'.
    destruct (hits (smooth p) o') eqn:Hhit; [|done].
    assert (p_z (smooth p) = Fin 0) as Hz' by done.
    pose proof (hits_needs_depth _ _ _ Hz' Hhit) as Hd.
    pose proof (Hfront o' Ho').
    revert Hd. apply (Qabs_case (o_z o' - 0)); intros; lra.
  - split; [|done]. subst r'. rewrite tick_room_obstacles. apply step_obstacles_length.
Qed.

Lemma fast_obstacle_passes_through_witness :
  rooms full_speed !! "R2" = Some (the_room "R2" full_speed) ∧
  ∃ r' p', rooms (gameLoop (Some "R2") full_speed).1 !! "R2" = Some r' ∧
           players r' !! "A" = Some p' ∧ truthy (alive p') = true.
Proof.
  assert (rooms full_speed !! "R2" = Some (the_room "R2" full_speed)) as Hr
    by (vm_compute; reflexivity).
  split; [exact Hr|].
  destruct (fast_obstacle_passes_through (Some "R2") full_speed
              (the_room "R2" full_speed) "A" (joined no_fields) Hr)
    as (r' & p' & Hr' & _ & Hp' & Halive' & _).
  - reflexivity.
  - reflexivity.
  - reflexivity.
  - reflexivity.
  - intros o Ho. apply list_elem_of_In in Ho. destruct Ho as [<-|[]].
    split; vm_compute; intros H; discriminate H.
  - exists r', p'. split; [exact Hr'|]. split; [exact Hp'|exact Halive'].
Defined.

(** X12. The collision test of a player does not depend on the order of the
    obstacle pool: the loop stops at the first hit, and any hit gives the
    same result. *)
Theorem collision_ignores_pool_order (os os' : list obstacle) (p : player) :
  os ≡ₚ os' → step_player os p = step_player os' p.
Proof.
  intros Hperm. unfold step_player.
  assert (existsb (hits (smooth p)) os = existsb (hits (smooth p)) os') as ->; [|done].
  apply eq_true_iff_eq. rewrite !existsb_exists. split.
  - intros (o & Hin & Hhit). exists o. split; [|done].
    by apply (Permutation_in _ Hperm).
  - intros (o & Hin & Hhit). exists o. split; [|done].
    by apply (Permutation_in _ (Permutation_sym Hperm)).
Qed.

Lemma collision_ignores_pool_order_witness :
  wall ≡ₚ rev wall ∧ step_player wall drifting = step_player (rev wall) drifting.
Proof.
  assert (wall ≡ₚ rev wall) as Hperm by apply Permutation_rev.
  split; [exact Hperm|].
  exact (collision_ignores_pool_order wall (rev wall) drifting Hperm).
Defined.

(** ** Rounds in sequence *)

Lemma on_message_update_no_payload (c : nat) (rid pid : ident) (w : world) (r : room) :
  rooms w !! key_of rid = Some r ->
  on_message c (Some (mkMessage rid pid (Some "update") None)) w =
    if (allReady (players r) && negb (running r)
        && negb (Nat.eqb (size (players r)) 0))%bool
    then ((startGame rid w).1,
          broadcastToRoom rid (MsgState rid (players r)) w :: (startGame rid w).2)
    else (w, [broadcastToRoom rid (MsgState rid (players r)) w]).
Proof.
  intros Hr. destruct (ensure_room_present _ _ _ Hr) as [Heq _].
  rewrite (on_message_update c rid pid None w r (players r)).
  2:{ by rewrite Heq. }
  2:{ unfold merge_player. destruct (players r !! key_of pid); [done|].
      by rewrite andb_false_r. }
  rewrite Heq.
  assert (set_room (key_of rid) (set_players (players r) r) w = w) as ->.
  { destruct w as [rs cs e u], r as [ps run sc t os]. unfold set_room, set_rooms.
    simpl in *. f_equal. by apply insert_id. }
  done.
Qed.

(** X13. Nothing clears the [ready] flags: the start of a round and its
    ticks keep them.  So when the tick that finds everybody dead has ended a
    round in which all were ready, an [update] message without payload for
    the room, from any socket and for any player id, known or not, starts a
    new round with everybody alive again. *)
Theorem any_update_restarts_a_finished_round
    (c : nat) (rid pid : ident) (w : world) (r : room) :
  rooms w !! key_of rid = Some r → running r = true →
  players r ≠ ∅ → playersAlive r = 0%nat →
  (∀ pk p, players r !! pk = Some p → truthy (ready p) = true) →
  let over := gameLoop rid w in
  let again := on_message c (Some (mkMessage rid pid (Some "update") None)) over.1 in
  (∃ r1, rooms over.1 !! key_of rid = Some r1 ∧ running r1 = false ∧
         ∀ pk p, players r1 !! pk = Some p → truthy (ready p) = true) ∧
  In (SetInterval rid) again.2 ∧
  ∃ r2, rooms again.1 !! key_of rid = Some r2 ∧ running r2 = true ∧
        score r2 = 0 ∧ room_t r2 = 0 ∧
        (∀ pk, players r2 !! pk = None ↔ players r !! pk = None) ∧
        ∀ pk p, players r2 !! pk = Some p →
          alive p = VBool true ∧ truthy (ready p) = true.
Proof.
  intros Hr Hrun Hne Hdead Hready over again. subst again over.
  rewrite (gameLoop_stops rid w r Hr Hrun Hdead Hne). cbn [fst snd].
  set (r1 := set_running false (tick_room r (entropy w)).1).
  set (w1 := mkWorld _ _ _ _).
  assert (rooms w1 !! key_of rid = Some r1) as Hr1.
  { subst w1. simpl. by rewrite lookup_insert_eq. }
  assert (players r1 = step_player (obstacles r1) <$> players r) as Hps.
  { subst r1. simpl. apply tick_room_players. }
  assert (running r1 = false) as Hrun1 by done.
  clearbody r1 w1.
  assert (∀ pk p, players r1 !! pk = Some p → truthy (ready p) = true) as Hready1.
  { intros pk p. rewrite Hps, lookup_fmap. intros Hp.
    apply fmap_Some in Hp as (p0 & Hp0 & ->).
    destruct (step_player_frame (obstacles r1) p0) as (_ & _ & -> & _).
    by apply (Hready pk). }
  split; [exists r1; done|].
  rewrite (on_message_update_no_payload c rid pid w1 r1 Hr1).
  assert (allReady (players r1) = true) as ->.
  { apply allReady_spec. intros pk p Hp. by apply (Hready1 pk). }
  assert (negb (Nat.eqb (size (players r1)) 0) = true) as ->.
  { apply size_nonzero. rewrite Hps. by rewrite fmap_empty_iff. }
  rewrite Hrun1. simpl.
  destruct (startGame_lobby rid w1 r1 Hr1 Hrun1) as (os & w2 & -> & _).
  simpl. split; [by right; left|].
  rewrite lookup_insert_eq. eexists. split; [done|]. simpl.
  do 3 (split; [done|]). split.
  - intros pk. rewrite Hps, !lookup_fmap, !fmap_None. done.
  - intros pk p Hp. apply lookup_fmap_Some in Hp as (p1 & <- & Hp1).
    split; [done|]. simpl. by apply (Hready1 pk).
Qed.

Lemma any_update_restarts_a_finished_round_witness :
  rooms all_dead !! "R2" = Some (the_room "R2" all_dead) ∧
  In (SetInterval (Some "R2"))
     (on_message 7 (Some (mkMessage (Some "R2") (Some "nobody") (Some "update") None))
        (gameLoop (Some "R2") all_dead).1).2.
Proof.
  assert (rooms all_dead !! "R2" = Some (the_room "R2" all_dead)) as Hr
    by (vm_compute; reflexivity).
  split; [exact Hr|].
  refine (proj1 (proj2 (any_update_restarts_a_finished_round 7 (Some "R2")
                          (Some "nobody") all_dead (the_room "R2" all_dead)
                          Hr _ _ _ _))).
  - reflexivity.
  - intros H. vm_compute in H. discriminate H.
  - vm_compute. reflexivity.
  - intros pk p Hp.
    assert (players (the_room "R2" all_dead) =
              {[ "A" := mkPlayer VUndef VUndef (VBool true) (VBool false)
                          (Fin 0) (Fin 1) (Fin 0) (Fin 1) (Fin 0) ∅ ]}) as Hps
      by (vm_compute; reflexivity).
    rewrite Hps in Hp. apply lookup_singleton_Some in Hp as [_ <-]. reflexivity.
Defined.

(** X14. [startGame] and [stopGame] are idempotent: a second call right
    after the first changes nothing and has no effect, so a room never gets
    a second interval nor a second [gameOver]; and after [stopGame] a tick
    that still fires does nothing. *)
Theorem start_and_stop_are_idempotent (rid : ident) (w : world) :
  startGame rid (startGame rid w).1 = ((startGame rid w).1, []) ∧
  stopGame rid (stopGame rid w).1 = ((stopGame rid w).1, []) ∧
  gameLoop rid (stopGame rid w).1 = ((stopGame rid w).1, []).
Proof.
  split; [|split].
  - destruct (rooms w !! key_of rid) as [r|] eqn:Hk.
    + destruct (running r) eqn:Hrun.
      * rewrite (startGame_running rid w r Hk Hrun). simpl.
        by apply (startGame_running rid w r).
      * destruct (startGame_lobby rid w r Hk Hrun) as (os & w1 & -> & _). simpl.
        eapply startGame_running; [simpl; by rewrite lookup_insert_eq|done].
    + unfold startGame at 2 3. rewrite Hk. simpl. unfold startGame. by rewrite Hk.
  - destruct (stopGame_cases rid w) as [[Heq Hidle]|(r & Hk & Hrun & Heq)];
      rewrite Heq; simpl.
    + by rewrite Heq.
    + unfold stopGame. simpl. by rewrite lookup_insert_eq.
  - apply gameLoop_idle.
    destruct (stopGame_cases rid w) as [[Heq Hidle]|(r & Hk & Hrun & Heq)];
      rewrite Heq; simpl; [done|].
    intros r'. simpl. rewrite lookup_insert_eq. by intros [= <-].
Qed.

(** ** Closing a socket *)

Lemma recipients_delete (rid : ident) (cs : gmap nat conn) (c c' : nat) :
  c' ∈ recipients rid (delete c cs) ↔ c' ≠ c ∧ c' ∈ recipients rid cs.
Proof.
  rewrite !recipients_spec. split.
  - intros (k & Hk & Hopen & Hrid). apply lookup_delete_Some in Hk as [Hne Hk].
    split; [done|]. by exists k.
  - intros (Hne & k & Hk & Hopen & Hrid). exists k.
    split; [by apply lookup_delete_Some|done].
Qed.

(** X15. When a socket bound to a truthy [(roomId, playerId)] closes and its
    room is in the store: if other players remain, the room keeps its round
    ([running], obstacles, score, clock) and exactly one roster without the
    leaver is published; if none remains, a running round is stopped with one
    [gameOver] and nothing is sent otherwise.  The closed socket is gone
    from the registry and is never among the recipients; the other sockets
    keep their bindings. *)
Theorem close_of_a_bound_socket (c : nat) (w : world) (k0 : conn) (r : room) :
  clients w !! c = Some k0 →
  ident_truthy (ws_roomId k0) = true → ident_truthy (ws_playerId k0) = true →
  rooms w !! key_of (ws_roomId k0) = Some r →
  let rid := ws_roomId k0 in
  let ps := delete (key_of (ws_playerId k0)) (players r) in
  clients (on_close c w).1 = delete c (clients w) ∧
  (∀ data recips, In (Broadcast data recips) (on_close c w).2 →
     room_of data = rid ∧
     ∀ c', c' ∈ recips ↔ c' ≠ c ∧ c' ∈ recipients rid (clients w)) ∧
  (ps ≠ ∅ →
     rooms (on_close c w).1 !! key_of rid =
       Some (mkRoom ps (running r) (score r) (room_t r) (obstacles r)) ∧
     ∃ recips, (on_close c w).2 = [Broadcast (MsgState rid ps) recips]) ∧
  (ps = ∅ →
     rooms (on_close c w).1 !! key_of rid = None ∧
     ∃ recips,
       (on_close c w).2 =
         if running r then [ClearInterval rid; Broadcast (MsgGameOver rid) recips]
         else []).
Proof.
  intros Hc Hrid Hpid Hr rid ps.
  assert (∃ effs,
            on_close c w =
              (mkWorld (if Nat.eqb (size ps) 0 then delete (key_of rid) (rooms w)
                        else <[key_of rid := set_players ps r]> (rooms w))
                 (delete c (clients w)) (entropy w) (uuid w), effs) ∧
            effs =
              if Nat.eqb (size ps) 0 then
                if running r then
                  [ClearInterval rid;
                   Broadcast (MsgGameOver rid) (recipients rid (delete c (clients w)))]
                else []
              else [Broadcast (MsgState rid ps) (recipients rid (delete c (clients w)))])
    as (effs & Heq & Heffs).
  { unfold on_close. rewrite Hc, Hrid, Hpid. simpl. rewrite Hr. fold ps. fold rid.
    destruct (Nat.eqb (size ps) 0); [|by eexists].
    unfold stopGame. simpl. rewrite lookup_insert_eq. simpl.
    destruct (running r); simpl.
    - eexists. split; [|done]. unfold set_rooms. simpl. by rewrite !delete_insert_eq.
    - eexists. split; [|done]. unfold set_rooms. simpl. by rewrite delete_insert_eq. }
  rewrite Heq. simpl. split; [done|]. split; [|split].
  - intros data recips Hin. rewrite Heffs in Hin.
    destruct (Nat.eqb (size ps) 0).
    + destruct (running r); [|done].
      destruct Hin as [H|[H|[]]]; [discriminate H|]. injection H as <- <-.
      split; [done|]. intros c'. apply recipients_delete.
    + destruct Hin as [H|[]]. injection H as <- <-.
      split; [done|]. intros c'. apply recipients_delete.
  - intros Hne. apply size_nonzero in Hne. apply negb_true_iff in Hne.
    rewrite Heffs, Hne. rewrite lookup_insert_eq. split; [done|]. by eexists.
  - intros Hempty. rewrite Heffs, Hempty, map_size_empty. simpl.
    rewrite lookup_delete_eq. split; [done|]. by eexists.
Qed.

Lemma close_of_a_bound_socket_witness :
  clients lobby !! 0%nat = Some (mkConn true (Some "R1") (Some "A")) ∧
  clients (on_close 0 lobby).1 = delete 0%nat (clients lobby).
Proof.
  assert (clients lobby !! 0%nat = Some (mkConn true (Some "R1") (Some "A"))) as Hc
    by (vm_compute; reflexivity).
  assert (rooms lobby !! "R1" = Some (the_room "R1" lobby)) as Hr
    by (vm_compute; reflexivity).
  split; [exact Hc|].
  refine (proj1 (close_of_a_bound_socket 0 lobby _ (the_room "R1" lobby) Hc _ _ Hr)).
  - reflexivity.
  - reflexivity.
Defined.

(** ** Bindings *)

Lemma stopGame_clients (rid : ident) (w : world) :
  clients (stopGame rid w).1 = clients w.
Proof. by destruct (stopGame_cases rid w) as [[-> _]|(r & _ & _ & ->)]. Qed.

Lemma gameLoop_clients (rid : ident) (w : world) :
  clients (gameLoop rid w).1 = clients w.
Proof.
  unfold gameLoop. destruct (rooms w !! key_of rid) as [r|]; [|done].
  destruct (running r); [|done].
  destruct (tick_room r (entropy w)) as [r1 e1].
  destruct (_ && _)%bool; [|done]. by rewrite stopGame_clients.
Qed.

Lemma on_message_clients (c : nat) (raw : option message) (w : world) :
  clients (on_message c raw w).1 =
    match raw with
    | Some m =>
        match classify (action m) with
        | Join => alter (fun k => mkConn (ws_open k) (roomId m) (playerId m)) c (clients w)
        | _ => clients w
        end
    | None => clients w
    end.
Proof.
  destruct raw as [m|]; [|done]. simpl.
  pose proof (ensure_room_clients (key_of (roomId m)) w) as Hcl.
  set (w0 := ensure_room (key_of (roomId m)) w) in *.
  destruct (rooms w0 !! key_of (roomId m)) as [r|].
  2:{ destruct (classify (action m)); simpl; by rewrite Hcl. }
  destruct (classify (action m)).
  - destruct (payload m); simpl; [|by rewrite Hcl].
    destruct (String.eqb _ "__proto__"); simpl; by rewrite Hcl.
  - destruct (merge_player _ _ _) as [ps|]; [|done].
    destruct (_ && _ && _)%bool; [|done].
    pose proof (startGame_clients (roomId m)
                  (set_room (key_of (roomId m)) (set_players ps r) w0)) as Hst.
    destruct (startGame _ _) as [w2 e2]. simpl in *. by rewrite Hst.
  - destruct (players r !! key_of (playerId m)) as [p|]; [|done].
    destruct (truthy (alive p)); [|done]. by destruct (payload m).
  - done.
Qed.

(** X16. The binding of a connected socket is written by its own [join]
    messages only, whether the [join] succeeds or throws: every other event,
    and the messages and closes of other sockets, leave [(roomId, playerId)]
    and the open state of the socket as they were.  A [join] with a payload
    from an open socket, for a [roomId] that names no builtin of
    [Object.prototype] and a [playerId] other than "__proto__", publishes
    one roster, and the sender is among its recipients.  No prototype has
    been written before. *)
Theorem binding_follows_own_join (ev : event) (w : world) (c : nat) (k : conn) :
  pristine w → clients w !! c = Some k → ev ≠ Close c →
  ∃ k', clients (handle ev w).1 !! c = Some k' ∧ ws_open k' = ws_open k ∧
    ((∃ m, ev = Message c (Some m) ∧ classify (action m) = Join ∧
           ws_roomId k' = roomId m ∧ ws_playerId k' = playerId m ∧
           (∀ o, payload m = Some o → ws_open k = true →
              inherited (key_of (roomId m)) = false →
              key_of (playerId m) ≠ "__proto__" →
              ∃ ps recips,
                (handle ev w).2 = [Broadcast (MsgState (roomId m) ps) recips] ∧
                c ∈ recips)) ∨
     ((∀ m, ev = Message c (Some m) → classify (action m) ≠ Join) ∧ k' = k)).
Proof.
  intros _ Hc Hev. destruct ev as [c0|c0 raw|c0|rid]; simpl.
  - exists k. unfold on_connection. destruct (clients w !! c0) eqn:Hc0.
    + split; [done|]. split; [done|]. right. split; [by intros m [=]|done].
    + simpl. rewrite lookup_insert_ne by congruence.
      split; [done|]. split; [done|]. right. split; [by intros m [=]|done].
  - destruct (clients w !! c0) as [k0|] eqn:Hc0.
    2:{ exists k. split; [done|]. split; [done|]. right. split; [|done].
        intros m [= -> _]. congruence. }
    rewrite on_message_clients.
    destruct raw as [m|].
    2:{ exists k. split; [done|]. split; [done|]. right. split; [by intros m [=]|done]. }
    destruct (classify (action m)) eqn:Hact.
    2,3,4: exists k; split; [done|]; split; [done|]; right;
      split; [intros m' [= _ <-]; congruence|done].
    destruct (decide (c0 = c)) as [->|Hne].
    + rewrite lookup_alter_eq, Hc. simpl. eexists. split; [done|]. split; [done|].
      left. exists m. do 4 (split; [done|]). intros o Hpl Hopen Hown Hproto.
      destruct (ensure_room_stored (key_of (roomId m)) w Hown) as [r Hr].
      rewrite Hr, Hact, Hpl, (proj2 (String.eqb_neq _ _) Hproto). simpl.
      eexists _, _. split; [done|].
      apply recipients_spec. simpl. rewrite lookup_alter_eq.
      rewrite ensure_room_clients, Hc. simpl. eexists. split; [done|]. done.
    + rewrite lookup_alter_ne by done. exists k. split; [done|]. split; [done|].
      right. split; [|done]. intros m' [= -> _]. done.
  - exists k. split; [|split; [done|right; split; [by intros m [=]|done]]].
    assert (c0 ≠ c) as Hne by congruence.
    unfold on_close. destruct (clients w !! c0) as [k0|]; [|done].
    destruct (_ && _)%bool; [|by simpl; rewrite lookup_delete_ne].
    simpl. destruct (rooms w !! _) as [r|];
      [|destruct (inherited _); by simpl; rewrite lookup_delete_ne].
    destruct (Nat.eqb _ 0); [|by simpl; rewrite lookup_delete_ne].
    match goal with |- context [stopGame ?rid ?w1] =>
      pose proof (stopGame_clients rid w1) as Hst; destruct (stopGame rid w1) end.
    simpl in *. rewrite Hst. by rewrite lookup_delete_ne.
  - exists k. rewrite gameLoop_clients.
    split; [done|]. split; [done|]. right. split; [by intros m [=]|done].
Qed.

Lemma binding_follows_own_join_witness :
  pristine started ∧
  clients started !! 0%nat = Some (mkConn true (Some "R1") (Some "A")) ∧
  ∃ k', clients (handle (Message 0 (msg "R3" "B" "join" (Some no_fields)))
                   started).1 !! 0%nat = Some k' ∧
        ws_open k' = true ∧ ws_roomId k' = Some "R3" ∧ ws_playerId k' = Some "B".
Proof.
  assert (clients started !! 0%nat = Some (mkConn true (Some "R1") (Some "A"))) as Hc
    by (vm_compute; reflexivity).
  split; [exact pristine_started|]. split; [exact Hc|].
  destruct (binding_follows_own_join
              (Message 0 (msg "R3" "B" "join" (Some no_fields))) started 0 _
              pristine_started Hc)
    as (k' & Hk' & Hopen & [(m & Hm & _ & Hrid & Hpid & _)|[Hother _]]).
  - intros H. discriminate H.
  - exists k'. injection Hm as <-. split; [exact Hk'|].
    split; [exact Hopen|]. split; [exact Hrid|exact Hpid].
  - exfalso. apply (Hother _ eq_refl). reflexivity.
Defined.

Lemma ident_truthy_key (i : ident) : ident_truthy i = true -> key_of i ≠ "".
Proof.
  destruct i as [s|]; [|done]. simpl. intros H.
  apply negb_true_iff in H. by apply String.eqb_neq.
Qed.

(** A record under an empty-string room or player id survives every event. *)
Lemma handle_keeps_unnamed (ev : event) (w : world) (k pk : string) :
  k = "" ∨ pk = "" ->
  is_Some (player_at k pk w) -> is_Some (player_at k pk (handle ev w).1).
Proof.
  intros Hempty Hw. destruct ev as [c|c raw|c|rid]; simpl.
  - unfold on_connection. by destruct (clients w !! c).
  - destruct (clients w !! c); [|done]. unfold player_at in *.
    destruct (rooms w !! k) as [r|] eqn:Hr; [|by destruct Hw].
    destruct (on_message_keeps_players c raw w k r Hr) as (r' & -> & Hkeep).
    simpl in *. by apply Hkeep.
  - unfold on_close. destruct (clients w !! c) as [k0|] eqn:Hc; [|done].
    destruct (ident_truthy (ws_roomId k0)) eqn:Hrid; [|done].
    destruct (ident_truthy (ws_playerId k0)) eqn:Hpid; [|done]. simpl.
    destruct (rooms w !! key_of (ws_roomId k0)) as [r|] eqn:Hr.
    2:{ by destruct (inherited _). }
    pose proof (on_close_rooms c w k0 r Hc Hrid Hpid Hr) as Hrooms.
    unfold on_close in Hrooms. rewrite Hc, Hrid, Hpid in Hrooms. simpl in Hrooms.
    rewrite Hr in Hrooms. unfold player_at in *. rewrite Hrooms. clear Hrooms.
    apply ident_truthy_key in Hrid, Hpid.
    destruct (decide (key_of (ws_roomId k0) = k)) as [Hk|Hne].
    + subst k. rewrite Hr in Hw. simpl in Hw.
      destruct Hempty as [Hk|Hpk]; [congruence|]. subst pk.
      assert (is_Some (delete (key_of (ws_playerId k0)) (players r) !! "")) as Hstay.
      { by rewrite lookup_delete_ne. }
      destruct (Nat.eqb _ 0) eqn:Hsize.
      * apply Nat.eqb_eq, map_size_empty_iff in Hsize. rewrite Hsize in Hstay.
        rewrite lookup_empty in Hstay. by destruct Hstay.
      * by rewrite lookup_insert_eq.
    + destruct (Nat.eqb _ 0).
      * by rewrite lookup_delete_ne.
      * by rewrite lookup_insert_ne.
  - destruct (gameLoop_player_at rid w k pk) as (f & -> & _).
    by apply fmap_is_Some.
Qed.

Lemma run_keeps_unnamed (evs : list event) (w : world) (k pk : string) :
  k = "" ∨ pk = "" ->
  is_Some (player_at k pk w) -> is_Some (player_at k pk (run evs w).1).
Proof.
  intros Hempty. revert w. induction evs as [|ev evs IH]; intros w Hw; [done|].
  pose proof (handle_keeps_unnamed ev w k pk Hempty Hw) as H1.
  destruct (fatal (handle ev w).2) eqn:Hfatal.
  - by rewrite run_fatal.
  - rewrite run_cons by done. simpl. by apply IH.
Qed.

(** X17. The close handler cleans up only when both ids of the binding are
    truthy.  A player that joined without [roomId] or [playerId] (stored
    under "undefined"), or with the empty string for one of them, is
    therefore not removed when its own socket closes: that close sends
    nothing and leaves every room, the player included, in the store.  With
    the empty string as room or player id no close names the record at all:
    whatever events follow, a record stays stored under these ids.  (Under
    "undefined" a later socket that joins with that string as its id and
    closes does remove it.)  The [join] is one that stores a player: no
    prototype has been written before, its [roomId] names no builtin of
    [Object.prototype], its [playerId] is not "__proto__". *)
Theorem join_with_falsy_id_is_never_cleaned_up
    (c : nat) (m : message) (o : object) (w : world) (k0 : conn) :
  pristine w → clients w !! c = Some k0 →
  classify (action m) = Join → payload m = Some o →
  (ident_truthy (roomId m) && ident_truthy (playerId m))%bool = false →
  inherited (key_of (roomId m)) = false → key_of (playerId m) ≠ "__proto__" →
  let joined_w := (on_message c (Some m) w).1 in
  (on_close c joined_w).2 = [] ∧
  rooms (on_close c joined_w).1 = rooms joined_w ∧
  clients (on_close c joined_w).1 !! c = None ∧
  player_at (key_of (roomId m)) (key_of (playerId m)) (on_close c joined_w).1
    = Some (joined o) ∧
  (roomId m = Some "" ∨ playerId m = Some "" →
   ∀ evs, ¬ In PrototypeWrite (run evs joined_w).2 →
     is_Some (player_at (key_of (roomId m)) (key_of (playerId m))
                (run evs joined_w).1)).
Proof.
  intros _ Hc Hact Hpl Hfalsy Hown Hproto joined_w.
  assert (clients joined_w !! c = Some (mkConn (ws_open k0) (roomId m) (playerId m)))
    as Hc'.
  { subst joined_w. rewrite on_message_clients, Hact, lookup_alter_eq, Hc. done. }
  assert (player_at (key_of (roomId m)) (key_of (playerId m)) joined_w
          = Some (joined o)) as Hroom.
  { subst joined_w. destruct (ensure_room_stored _ w Hown) as [r Hr].
    rewrite (on_message_join c m o w r Hact Hpl Hr Hproto). unfold player_at. simpl.
    rewrite lookup_insert_eq. simpl. by rewrite lookup_insert_eq. }
  split; [|split; [|split; [|split]]].
  - unfold on_close. rewrite Hc'. simpl. by rewrite Hfalsy.
  - unfold on_close. rewrite Hc'. simpl. by rewrite Hfalsy.
  - unfold on_close. rewrite Hc'. simpl. rewrite Hfalsy. simpl.
    by rewrite lookup_delete_eq.
  - unfold on_close. rewrite Hc'. simpl. by rewrite Hfalsy.
  - intros Hempty evs _. apply run_keeps_unnamed.
    + destruct Hempty as [-> | ->]; auto.
    + by rewrite Hroom.
Qed.

Lemma join_with_falsy_id_is_never_cleaned_up_witness :
  pristine (on_connection 0 (initial half)) ∧
  clients (on_connection 0 (initial half)) !! 0%nat = Some (mkConn true None None) ∧
  is_Some (player_at "R1" ""
    (run [Close 0; Connect 1; Message 1 (msg "R1" "B" "join" (Some no_fields)); Close 1]
       (on_message 0 (msg "R1" "" "join" (Some no_fields))
          (on_connection 0 (initial half))).1).1).
Proof.
  assert (clients (on_connection 0 (initial half)) !! 0%nat
          = Some (mkConn true None None)) as Hc by (vm_compute; reflexivity).
  split; [exact pristine_connected|]. split; [exact Hc|].
  refine (proj2 (proj2 (proj2 (proj2 (join_with_falsy_id_is_never_cleaned_up 0
            (mkMessage (Some "R1") (Some "") (Some "join") (Some no_fields))
            no_fields (on_connection 0 (initial half)) _ pristine_connected
            Hc _ _ _ _ _)))) _ _ _).
  - reflexivity.
  - reflexivity.
  - reflexivity.
  - reflexivity.
  - intros H. discriminate H.
  - right. reflexivity.
  - vm_compute. intros H. repeat (destruct H as [H|H]; [discriminate H|]). exact H.
Defined.

(** ** Messages that name an absent player *)

(** X18. In a stored room, an [update] or an [input] that names a player
    absent from the roster never throws and never creates that player, with
    or without payload: the [input] sends nothing and changes nothing, even
    when the id names a builtin of [Object.prototype]; the [update]
    publishes the roster, which is unchanged.  For the [update] either the
    id names no builtin, or the payload has no property to copy onto it.
    No prototype has been written before. *)
Theorem absent_player_is_ignored (c : nat) (m : message) (w : world) (r : room) :
  pristine w →
  rooms (ensure_room (key_of (roomId m)) w) !! key_of (roomId m) = Some r →
  players r !! key_of (playerId m) = None →
  classify (action m) = Input ∨
  (classify (action m) = Update ∧
   (inherited (key_of (playerId m)) && has_properties (payload m))%bool = false) →
  ¬ In ConsoleError (on_message c (Some m) w).2 ∧
  ¬ In PrototypeWrite (on_message c (Some m) w).2 ∧
  (∃ r', rooms (on_message c (Some m) w).1 !! key_of (roomId m) = Some r' ∧
         players r' !! key_of (playerId m) = None ∧
         ∀ pk, players r' !! pk = None ↔ players r !! pk = None) ∧
  (classify (action m) = Input →
     on_message c (Some m) w = (ensure_room (key_of (roomId m)) w, [])) ∧
  (classify (action m) = Update →
     ∃ recips, hd_error (on_message c (Some m) w).2
                 = Some (Broadcast (MsgState (roomId m) (players r)) recips)).
Proof.
  intros _ Hlook Habsent Hact. simpl. rewrite Hlook.
  set (w0 := ensure_room (key_of (roomId m)) w) in *.
  destruct Hact as [Hact|[Hact Hsafe]]; rewrite Hact.
  - rewrite Habsent. simpl. split; [|split; [|split; [|split]]].
    + by intros [].
    + by intros [].
    + exists r. done.
    + done.
    + intros H. discriminate H.
  - assert (merge_player (key_of (playerId m)) (payload m) (players r)
            = Some (players r)) as ->.
    { unfold merge_player. by rewrite Habsent, Hsafe. }
    destruct (_ && _ && _)%bool eqn:Hcond.
    + apply andb_true_iff in Hcond as [Hcond _].
      apply andb_true_iff in Hcond as [_ Hrun]. apply negb_true_iff in Hrun.
      destruct (startGame_lobby (roomId m)
                  (set_room (key_of (roomId m)) (set_players (players r) r) w0)
                  (set_players (players r) r)) as (os & w1 & Hst & _).
      { simpl. by rewrite lookup_insert_eq. }
      { done. }
      rewrite Hst. simpl. split; [|split; [|split; [|split]]].
      * intros [H|[H|[]]]; discriminate H.
      * intros [H|[H|[]]]; discriminate H.
      * rewrite lookup_insert_eq. eexists. split; [done|]. simpl. split.
        -- rewrite lookup_fmap, Habsent. done.
        -- intros pk. by rewrite lookup_fmap, fmap_None.
      * intros H. discriminate H.
      * intros _. by eexists.
    + simpl. split; [|split; [|split; [|split]]].
      * intros [H|[]]. discriminate H.
      * intros [H|[]]. discriminate H.
      * rewrite lookup_insert_eq. eexists. split; [done|]. simpl. done.
      * intros H. discriminate H.
      * intros _. by eexists.
Qed.

Lemma absent_player_is_ignored_witness :
  pristine started ∧
  rooms (ensure_room "R1" started) !! "R1" = Some (the_room "R1" started) ∧
  players (the_room "R1" started) !! "constructor" = None ∧
  on_message 0 (Some (mkMessage (Some "R1") (Some "constructor") (Some "input")
                        (Some (input_fields "left")))) started
    = (ensure_room "R1" started, []).
Proof.
  assert (rooms (ensure_room "R1" started) !! "R1" = Some (the_room "R1" started))
    as Hr by (vm_compute; reflexivity).
  assert (players (the_room "R1" started) !! "constructor" = None) as Habs
    by (vm_compute; reflexivity).
  split; [exact pristine_started|]. split; [exact Hr|]. split; [exact Habs|].
  refine (proj1 (proj2 (proj2 (proj2 (absent_player_is_ignored 0
            (mkMessage (Some "R1") (Some "constructor") (Some "input")
               (Some (input_fields "left"))) started _ pristine_started
            Hr Habs _)))) _).
  - left. reflexivity.
  - reflexivity.
Defined.

(** ** The first revision as a whole *)

Lemma first_on_message_keeps (raw : option message) (w : FirstDocument.world)
    (k pk : string) (p : FirstDocument.player) :
  FirstDocument.player_at k pk w = Some p →
  ∃ p', FirstDocument.player_at k pk (FirstDocument.on_message raw w).1 = Some p' ∧
    ((∀ m, raw = Some m → key_of (roomId m) = k → key_of (playerId m) = pk →
           action m ≠ Some "join" ∧ action m ≠ Some "update") → p' = p).
Proof.
  unfold FirstDocument.player_at. intros Hp.
  destruct (FirstDocument.rooms w !! k) as [ps|] eqn:Hk; [|discriminate Hp].
  simpl in Hp.
  destruct raw as [m|]; [|exists p; simpl; rewrite Hk; done].
  unfold FirstDocument.on_message, FirstDocument.publish.
  set (km := key_of (roomId m)). set (pkm := key_of (playerId m)).
  set (rs := match FirstDocument.rooms w !! km with
             | Some _ => FirstDocument.rooms w
             | None => if inherited km then FirstDocument.rooms w
                       else <[km := ∅]> (FirstDocument.rooms w)
             end).
  assert (rs !! k = Some ps) as Hrsk.
  { subst rs. destruct (FirstDocument.rooms w !! km) eqn:E; [done|].
    destruct (inherited km); [done|]. rewrite lookup_insert_ne; [done|].
    intros Heq. rewrite Heq in E. congruence. }
  assert (∃ p', rs !! k ≫= (.!! pk) = Some p' ∧
            ((∀ m0, Some m = Some m0 → key_of (roomId m0) = k →
                key_of (playerId m0) = pk →
                action m0 ≠ Some "join" ∧ action m0 ≠ Some "update") → p' = p))
    as Hkeep.
  { exists p. rewrite Hrsk. done. }
  clearbody rs.
  destruct (rs !! km) as [ps0|] eqn:Hrs.
  2:{ by destruct (_ || _)%bool. }
  assert (km = k → ps0 = ps) as Hps0.
  { intros Heq. rewrite Heq in Hrs. congruence. }
  assert (∀ ps', (km = k → ∃ p', ps' !! pk = Some p' ∧
                     ((km = k → pkm = pk → action m ≠ Some "join" ∧
                                            action m ≠ Some "update") → p' = p)) →
            ∃ p', (<[km := ps']> rs !! k) ≫= (.!! pk) = Some p' ∧
              ((∀ m0, Some m = Some m0 → key_of (roomId m0) = k →
                  key_of (playerId m0) = pk →
                  action m0 ≠ Some "join" ∧ action m0 ≠ Some "update") → p' = p))
    as Hput.
  { intros ps' Hps'. destruct (decide (km = k)) as [Heq|Hne].
    - destruct (Hps' Heq) as (p' & Hp' & Hsame). exists p'.
      rewrite Heq, lookup_insert_eq. simpl. split; [done|].
      intros Hm. apply Hsame. intros _ Hpk. by apply (Hm m).
    - exists p. rewrite lookup_insert_ne, Hrsk by done. done. }
  assert (km = k → ∃ p', ps0 !! pk = Some p' ∧
            ((km = k → pkm = pk → action m ≠ Some "join" ∧
                                   action m ≠ Some "update") → p' = p)) as Hsame0.
  { intros Heq. rewrite (Hps0 Heq). by exists p. }
  case_bool_decide as Hjoin.
  - destruct (payload m) as [o|]; [|exact Hkeep].
    destruct (String.eqb pkm "__proto__"); [exact Hkeep|].
    cbn [fst FirstDocument.rooms].
    apply Hput. intros Heq. rewrite (Hps0 Heq).
    destruct (decide (pkm = pk)) as [Hpk|Hpk].
    + rewrite Hpk, lookup_insert_eq. eexists. split; [done|].
      intros H. by destruct (H Heq eq_refl) as [? _].
    + rewrite lookup_insert_ne by done. by exists p.
  - case_bool_decide as Hupd.
    + destruct (ps0 !! pkm) as [q|] eqn:Hq; cbn [fst FirstDocument.rooms].
      * apply Hput. intros Heq. rewrite (Hps0 Heq) in *.
        destruct (payload m) as [o|]; [|by exists p].
        destruct (decide (pkm = pk)) as [Hpk|Hpk].
        -- rewrite Hpk, lookup_insert_eq. eexists. split; [done|].
           intros H. by destruct (H Heq eq_refl) as [_ ?].
        -- rewrite lookup_insert_ne by done. by exists p.
      * destruct (inherited pkm); [|exact Hkeep].
        destruct (has_properties (payload m)); [exact Hkeep|].
        cbn [fst FirstDocument.rooms]. by apply Hput.
    + cbn [fst FirstDocument.rooms]. by apply Hput.
Qed.

Lemma first_handle_keeps (ev : FirstDocument.event) (w : FirstDocument.world)
    (k pk : string) (p : FirstDocument.player) :
  FirstDocument.player_at k pk w = Some p →
  ∃ p', FirstDocument.player_at k pk (FirstDocument.handle ev w).1 = Some p' ∧
    ((∀ c m, ev = FirstDocument.Message c (Some m) →
        key_of (roomId m) = k → key_of (playerId m) = pk →
        action m ≠ Some "join" ∧ action m ≠ Some "update") → p' = p).
Proof.
  intros Hp. destruct ev as [c|c raw|c]; simpl.
  - by exists p.
  - destruct (first_on_message_keeps raw w k pk p Hp) as (p' & Hp' & Hsame).
    exists p'. split; [done|]. intros H. apply Hsame. intros m ->. by apply (H c).
  - by exists p.
Qed.

(** X19. The first revision never forgets: whatever connections, messages
    and closes follow, a stored player stays stored under the same room and
    player id, so rooms and rosters only grow; and the record itself is the
    same unless one of the messages was a [join] or an [update] naming that
    room and player. *)
Theorem first_revision_never_forgets (evs : list FirstDocument.event)
    (w : FirstDocument.world) (k pk : string) (p : FirstDocument.player) :
  FirstDocument.player_at k pk w = Some p →
  ∃ p', FirstDocument.player_at k pk (FirstDocument.run evs w).1 = Some p' ∧
    ((∀ c m, In (FirstDocument.Message c (Some m)) evs →
        key_of (roomId m) = k → key_of (playerId m) = pk →
        action m ≠ Some "join" ∧ action m ≠ Some "update") → p' = p).
Proof.
  revert w p. induction evs as [|ev evs IH]; intros w p Hp.
  - by exists p.
  - cbn [FirstDocument.run].
    destruct (first_handle_keeps ev w k pk p Hp) as (p1 & Hp1 & Hsame1).
    destruct (FirstDocument.handle ev w) as [w1 out1]. cbn [fst] in Hp1.
    destruct (IH w1 p1 Hp1) as (p2 & Hp2 & Hsame2).
    destruct (FirstDocument.run evs w1) as [w2 out2]. cbn [fst] in *.
    exists p2. split; [done|]. intros H.
    rewrite Hsame2, Hsame1; [done| |].
    + intros c m ->. apply (H c). by left.
    + intros c m Hin. apply (H c). by right.
Qed.

Lemma first_revision_never_forgets_witness :
  FirstDocument.player_at "R1" "A"
    (FirstDocument.mkWorld {[ "R1" := {[ "A" := FirstDocument.joined no_fields ]} ]}
       {[ 0%nat := true ]})
    = Some (FirstDocument.joined no_fields) ∧
  ∃ p', FirstDocument.player_at "R1" "A"
          (FirstDocument.run
             [FirstDocument.Message 0 (msg "R1" "B" "join" (Some no_fields));
              FirstDocument.Close 0]
             (FirstDocument.mkWorld
                {[ "R1" := {[ "A" := FirstDocument.joined no_fields ]} ]}
                {[ 0%nat := true ]})).1 = Some p'.
Proof.
  assert (FirstDocument.player_at "R1" "A"
            (FirstDocument.mkWorld
               {[ "R1" := {[ "A" := FirstDocument.joined no_fields ]} ]}
               {[ 0%nat := true ]})
          = Some (FirstDocument.joined no_fields)) as Hp by (vm_compute; reflexivity).
  split; [exact Hp|].
  destruct (first_revision_never_forgets
              [FirstDocument.Message 0 (msg "R1" "B" "join" (Some no_fields));
               FirstDocument.Close 0] _ "R1" "A" _ Hp) as (p' & Hp' & _).
  exists p'. exact Hp'.
Defined.

(** X20. What one decoded message does in the first revision when no
    prototype has been written before and neither id names a builtin of
    [Object.prototype].  It fails, logging one error
    and sending nothing, exactly when it is a [join] without payload or an
    [update] naming a player that is not stored (the current revision
    ignores the latter).  Otherwise, whatever the action, the room exists
    afterwards and every open socket of the server is sent its roster once.
    The set of sockets is never changed. *)
Theorem first_revision_message_outcome (m : message) (w : FirstDocument.world) :
  FirstDocument.pristine w →
  inherited (key_of (roomId m)) = false →
  inherited (key_of (playerId m)) = false →
  let k := key_of (roomId m) in
  let pk := key_of (playerId m) in
  let fails :=
    (action m = Some "join" ∧ payload m = None) ∨
    (action m = Some "update" ∧ FirstDocument.player_at k pk w = None) in
  let res := FirstDocument.on_message (Some m) w in
  FirstDocument.clients res.1 = FirstDocument.clients w ∧
  is_Some (FirstDocument.rooms res.1 !! k) ∧
  (fails → res.2 = [FirstDocument.ConsoleError]) ∧
  (¬ fails →
     ∃ ps, FirstDocument.rooms res.1 !! k = Some ps ∧
       res.2 = map (λ c, FirstDocument.Send c (roomId m) ps)
                 (FirstDocument.open_clients (FirstDocument.clients w))).
Proof.
  intros _ Hown Hpown k pk fails res. subst res fails.
  unfold FirstDocument.on_message, FirstDocument.publish, FirstDocument.player_at.
  fold k pk. fold k in Hown. fold pk in Hpown.
  set (rs := match FirstDocument.rooms w !! k with
             | Some _ => FirstDocument.rooms w
             | None => if inherited k then FirstDocument.rooms w
                       else <[k := ∅]> (FirstDocument.rooms w)
             end).
  assert (rs !! k = Some (default ∅ (FirstDocument.rooms w !! k))) as Hrs.
  { subst rs. destruct (FirstDocument.rooms w !! k) eqn:E; simpl.
    - done.
    - rewrite Hown. by rewrite lookup_insert_eq. }
  assert (FirstDocument.rooms w !! k ≫= (.!! pk)
          = default ∅ (FirstDocument.rooms w !! k) !! pk) as Hat.
  { destruct (FirstDocument.rooms w !! k); simpl; [done|by rewrite lookup_empty]. }
  assert (String.eqb pk "__proto__" = false) as Hnp.
  { apply String.eqb_neq. intros Heq. rewrite Heq in Hpown. discriminate Hpown. }
  rewrite Hrs, Hat.
  set (ps0 := default ∅ (FirstDocument.rooms w !! k)) in *.
  clearbody rs ps0.
  case_bool_decide as Hjoin.
  - assert (action m ≠ Some "update") as Hupd by (rewrite Hjoin; discriminate).
    destruct (payload m) as [o|].
    + rewrite Hnp.
      cbn [fst snd FirstDocument.rooms FirstDocument.clients].
      rewrite lookup_insert_eq. split; [done|]. split; [done|]. split.
      * intros [[_ H]|[H _]]; [discriminate H|done].
      * intros _. eexists. split; done.
    + cbn [fst snd FirstDocument.rooms FirstDocument.clients].
      rewrite Hrs. split; [done|]. split; [done|]. split; [done|].
      intros H. destruct H. by left.
  - case_bool_decide as Hupd.
    + destruct (ps0 !! pk) as [q|] eqn:Hq.
      * cbn [fst snd FirstDocument.rooms FirstDocument.clients].
        rewrite lookup_insert_eq. split; [done|]. split; [done|]. split.
        -- intros [[H _]|[_ H]]; [done|discriminate H].
        -- intros _. eexists. split; done.
      * rewrite Hpown.
        cbn [fst snd FirstDocument.rooms FirstDocument.clients].
        rewrite Hrs. split; [done|]. split; [done|]. split; [done|].
        intros H. destruct H. by right.
    + cbn [fst snd FirstDocument.rooms FirstDocument.clients].
      rewrite lookup_insert_eq. split; [done|]. split; [done|]. split.
      * intros [[H _]|[H _]]; done.
      * intros _. eexists. split; done.
Qed.

Lemma first_revision_message_outcome_witness :
  FirstDocument.pristine
    (FirstDocument.handle (FirstDocument.Connect 0) FirstDocument.initial).1 ∧
  inherited "R1" = false ∧ inherited "A" = false ∧
  (FirstDocument.on_message (msg "R1" "A" "update" (Some ready_fields))
     (FirstDocument.handle (FirstDocument.Connect 0) FirstDocument.initial).1).2
    = [FirstDocument.ConsoleError].
Proof.
  assert (FirstDocument.pristine
            (FirstDocument.handle (FirstDocument.Connect 0) FirstDocument.initial).1)
    as Hw.
  { apply FirstDocument.pristine_step; [constructor|]. by intros []. }
  split; [exact Hw|]. split; [reflexivity|]. split; [reflexivity|].
  refine (proj1 (proj2 (proj2 (first_revision_message_outcome
            (mkMessage (Some "R1") (Some "A") (Some "update") (Some ready_fields))
            _ Hw _ _))) _).
  - reflexivity.
  - reflexivity.
  - right. split; reflexivity.
Defined.
